(** * go-ftp: a shallow embedding of [client.go] and its specification

    The development follows the Go source function by function.  Go strings
    are byte sequences and are modelled as [list ascii]; [uint] and [int] are
    the 64-bit types, modelled as [Z] with the wrap-around written out where
    the source can overflow. *)

From Stdlib Require Import ZArith Ascii String DecimalString Bool Lia List.
Import ListNotations.
Local Open Scope Z_scope.
Local Open Scope list_scope.

(** ** Strings *)

Definition str := list ascii.

(** A Go string literal. *)
Definition lit (s : string) : str := list_ascii_of_string s.

Definition CR : ascii := "013"%char.
Definition LF : ascii := "010"%char.

(** [var CRLF = "\r\n"] *)
Definition CRLF : str := [CR; LF].
Definition ASCII : str := lit "A".
Definition BINARY : str := lit "I".
Definition IMAGE : str := lit "I".

Fixpoint str_eqb (a b : str) : bool :=
  match a, b with
  | [], [] => true
  | x :: a', y :: b' => Ascii.eqb x y && str_eqb a' b'
  | _, _ => false
  end.

(** [fmt.Sprintf("%d", n)] for an unsigned [n]. *)
Definition decimal (n : Z) : str :=
  lit (NilEmpty.string_of_uint (N.to_uint (Z.to_N n))).

(** ** Errors

    The dynamic error values the package can produce or pass on.  The source
    builds its own errors with [fmt.Errorf] in three ways, which the model
    keeps apart:
    - [Errorf format] is [fmt.Errorf(format)], with no operand.  Its argument
      is a format: what [fmt] makes of it is the argument itself only when
      no ['%'] occurs in it.
    - [Errorf_v before cause after] is [fmt.Errorf(f, cause)] for a literal
      format [f] that reads [before], the verb [%v], [after]: the text of
      [cause] is spliced in as it is.
    - [Errorf_Sprintf before cause after] is [fmt.Errorf(msg)] where [msg]
      has been put together beforehand by [fmt.Sprintf] as [before], the
      text of [cause], [after].  Here the whole of [msg] is the format of
      [fmt.Errorf], file names, server lines and the text of [cause]
      included, and a ['%'] in any of them is read as a verb. *)

Inductive num_err := ErrSyntax | ErrRange.

Inductive error :=
| EOF                                              (* io.EOF *)
| ErrNoProgress                                    (* io.ErrNoProgress *)
| SysError (text : str)                            (* raised by a connection, the dialer or the OS *)
| NumError (fn num : str) (err : num_err)          (* *strconv.NumError *)
| Errorf (format : str)                            (* fmt.Errorf(format) *)
| Errorf_v (before : str) (cause : error) (after : str)
| Errorf_Sprintf (before : str) (cause : error) (after : str).

(** No ['%'] occurs in [msg]: as a format it has no verb, and [fmt] writes it
    out as it is. *)
Definition plain (msg : str) : bool := negb (existsb (Ascii.eqb "%") msg).

(** The text of an error, [err.Error()], where the program determines it.
    The result is [None] where the text depends on what [fmt] writes for a
    verb that has no operand, and for the numeric errors of [strconv], which
    quote the number. *)
Fixpoint Error_text (e : error) : option str :=
  match e with
  | EOF => Some (lit "EOF")
  | ErrNoProgress => Some (lit "multiple Read calls return no data or error")
  | SysError text => Some text
  | NumError _ _ _ => None
  | Errorf format => if plain format then Some format else None
  | Errorf_v before cause after =>
      match Error_text cause with
      | Some text =>
          if plain before && plain after then Some (before ++ text ++ after) else None
      | None => None
      end
  | Errorf_Sprintf before cause after =>
      match Error_text cause with
      | Some text =>
          let msg := before ++ text ++ after in
          if plain msg then Some msg else None
      | None => None
      end
  end.

(** ** Response classifier *)

(** [func checkResponseCode(expectCode, code uint) error] *)
Definition checkResponseCode (expectCode code : Z) : option error :=
  if ((1 <=? expectCode) && (expectCode <? 10) && negb (code / 100 =? expectCode))
     || ((10 <=? expectCode) && (expectCode <? 100) && negb (code / 10 =? expectCode))
     || ((100 <=? expectCode) && (expectCode <? 1000) && negb (code =? expectCode))
  then
    let msg := lit "Bad response from server. Expected: " ++ decimal expectCode
               ++ lit ", Got: " ++ decimal code in
    Some (Errorf msg)
  else None.

(** ** Integers: [strconv.Atoi] and the conversions between [int] and [uint] *)

Definition is_digit (c : ascii) : bool :=
  (N.leb 48 (N_of_ascii c)) && (N.leb (N_of_ascii c) 57).

Definition digit_val (c : ascii) : Z := Z.of_N (N_of_ascii c) - 48.

Definition maxUint64 : Z := 2 ^ 64 - 1.
Definition maxInt64 : Z := 2 ^ 63 - 1.

(** [int(x)] and [uint(x)] on 64-bit values: two's complement wrap-around. *)
Definition to_int (x : Z) : Z := (x + 2 ^ 63) mod 2 ^ 64 - 2 ^ 63.
Definition to_uint (x : Z) : Z := x mod 2 ^ 64.

(** The digit loop of [strconv.ParseUint(s, 10, 64)]: it stops at the first
    byte that is not a digit (syntax error) and at the first overflow (range
    error, with the maximal value). *)
Fixpoint ParseUint_loop (n : Z) (s : str) : Z * option num_err :=
  match s with
  | [] => (n, None)
  | c :: t =>
      if is_digit c then
        if maxUint64 / 10 + 1 <=? n then (maxUint64, Some ErrRange)
        else
          let n1 := n * 10 + digit_val c in
          if maxUint64 <? n1 then (maxUint64, Some ErrRange)
          else ParseUint_loop n1 t
      else (0, Some ErrSyntax)
  end.

Definition ParseUint (s : str) : Z * option num_err :=
  match s with
  | [] => (0, Some ErrSyntax)
  | _ => ParseUint_loop 0 s
  end.

(** [strconv.ParseInt(s, 10, 0)] with a 64-bit [int]. *)
Definition ParseInt (s : str) : Z * option num_err :=
  match s with
  | [] => (0, Some ErrSyntax)
  | c :: t =>
      let neg := Ascii.eqb c "-" in
      let digits := if Ascii.eqb c "+" || neg then t else s in
      match ParseUint digits with
      | (_, Some ErrSyntax) => (0, Some ErrSyntax)
      | (un, _) =>
          let cutoff := 2 ^ 63 in
          if negb neg && (cutoff <=? un) then (cutoff - 1, Some ErrRange)
          else if neg && (cutoff <? un) then (- cutoff, Some ErrRange)
          else (if neg then - un else un, None)
      end
  end.

(** [func Atoi(s string) (int, error)] *)
Definition Atoi (s : str) : Z * option error :=
  match ParseInt s with
  | (i, Some e) => (i, Some (NumError (lit "Atoi") s e))
  | (i, None) => (i, None)
  end.

(** ** The [strings] package *)

(** [strings.LastIndex(s, sep)] for a one-byte separator: the index of its
    last occurrence, or -1. *)
Fixpoint LastIndex (s : str) (sep : ascii) : Z :=
  match s with
  | [] => -1
  | c :: t =>
      let r := LastIndex t sep in
      if 0 <=? r then r + 1 else if Ascii.eqb c sep then 0 else -1
  end.

(** [strings.Split(s, sep)] for a one-byte separator. *)
Fixpoint Split (s : str) (sep : ascii) : list str :=
  match s with
  | [] => [[]]
  | c :: t =>
      if Ascii.eqb c sep then [] :: Split t sep
      else match Split t sep with
           | [] => [[c]]
           | w :: ws => (c :: w) :: ws
           end
  end.

(** [func hasPort(s string) bool] *)
Definition hasPort (s : str) : bool := LastIndex s "]" <? LastIndex s ":".

(** ** Connections

    A connection ([io.ReadWriteCloser], [net.Conn], [*os.File]) is a script
    of what its successive [Read] and [Write] calls meet, the bytes written
    to it so far, and whether it has been closed. *)

Inductive rd_event :=
| Chunk (data : str)        (* bytes delivered together *)
| RdErr (e : error).        (* a failing Read *)

Record channel := mkChannel {
  inbox : list rd_event;            (* what the next Reads deliver; exhausted means EOF *)
  wfaults : list (option error);    (* outcome of the next Writes; exhausted means success *)
  outbox : str;                     (* bytes written so far *)
  closed : bool;
  close_err : option error;         (* what Close returns *)
  deadline : option Z               (* read deadline, in seconds from the time it was set *)
}.

Definition set_inbox (ch : channel) (l : list rd_event) : channel :=
  mkChannel l (wfaults ch) (outbox ch) (closed ch) (close_err ch) (deadline ch).

(** [Read(p)] with [len(p) = n]. *)
Definition conn_Read (n : nat) (ch : channel) : str * option error * channel :=
  match inbox ch with
  | [] => ([], Some EOF, ch)
  | RdErr e :: t => ([], Some e, set_inbox ch t)
  | Chunk data :: t =>
      if (length data <=? n)%nat then (data, None, set_inbox ch t)
      else (firstn n data, None, set_inbox ch (Chunk (skipn n data) :: t))
  end.

(** [Write(p)]: only the error is ever looked at by the callers. *)
Definition conn_Write (p : str) (ch : channel) : option error * channel :=
  match wfaults ch with
  | Some e :: t =>
      (Some e, mkChannel (inbox ch) t (outbox ch) (closed ch) (close_err ch) (deadline ch))
  | None :: t =>
      (None, mkChannel (inbox ch) t (outbox ch ++ p) (closed ch) (close_err ch) (deadline ch))
  | [] =>
      (None, mkChannel (inbox ch) [] (outbox ch ++ p) (closed ch) (close_err ch) (deadline ch))
  end.

(** [Close()]: the connection is closed whether or not an error is reported. *)
Definition conn_Close (ch : channel) : option error * channel :=
  (close_err ch,
   mkChannel (inbox ch) (wfaults ch) (outbox ch) true (close_err ch) (deadline ch)).

Definition conn_SetReadDeadline (d : Z) (ch : channel) : channel :=
  mkChannel (inbox ch) (wfaults ch) (outbox ch) (closed ch) (close_err ch) (Some d).

(** ** [bufio.Reader]

    [bufio.NewReader] wraps a connection in a reader with a 4096-byte buffer;
    [fill] asks the connection for as many bytes as the buffer has room for. *)

Definition defaultBufSize : nat := 4096.
Definition maxConsecutiveEmptyReads : nat := 100.

Record Reader := mkReader {
  rd : channel;            (* the underlying connection *)
  buf : str;               (* bytes read from it and not yet handed out: buf[r:w] *)
  rerr : option error      (* pending error *)
}.

Definition NewReader (ch : channel) : Reader := mkReader ch [] None.

Fixpoint fill_tries (i : nat) (b : Reader) : Reader :=
  match i with
  | O => mkReader (rd b) (buf b) (Some ErrNoProgress)
  | S i' =>
      let '(data, e, ch) := conn_Read (defaultBufSize - length (buf b)) (rd b) in
      let b' := mkReader ch (buf b ++ data) (rerr b) in
      match e with
      | Some e => mkReader ch (buf b ++ data) (Some e)
      | None => if (0 <? length data)%nat then b' else fill_tries i' b'
      end
  end.

Definition fill (b : Reader) : Reader := fill_tries maxConsecutiveEmptyReads b.

(** [bytes.IndexByte] followed by the split of the buffer at the delimiter:
    the bytes up to and including the first [delim], and the bytes after. *)
Fixpoint cut (delim : ascii) (s : str) : option (str * str) :=
  match s with
  | [] => None
  | c :: t =>
      if Ascii.eqb c delim then Some ([c], t)
      else match cut delim t with
           | Some (l, r) => Some (c :: l, r)
           | None => None
           end
  end.

(** [ReadString]: the loop of [ReadSlice] inside the loop of
    [collectFragments]; [acc] holds the full buffers collected so far.  The
    result is [None] only when [fuel] runs out. *)
Fixpoint ReadString_loop (fuel : nat) (delim : ascii) (acc : str) (b : Reader)
  : option (str * option error * Reader) :=
  match fuel with
  | O => None
  | S fuel' =>
      match cut delim (buf b) with
      | Some (line, rest) => Some (acc ++ line, None, mkReader (rd b) rest (rerr b))
      | None =>
          match rerr b with
          | Some e => Some (acc ++ buf b, Some e, mkReader (rd b) [] None)
          | None =>
              if (defaultBufSize <=? length (buf b))%nat
              then ReadString_loop fuel' delim (acc ++ buf b) (mkReader (rd b) [] None)
              else ReadString_loop fuel' delim acc (fill b)
          end
      end
  end.

(** The bytes a script still holds. *)
Fixpoint unread (l : list rd_event) : str :=
  match l with
  | [] => []
  | Chunk data :: t => data ++ unread t
  | RdErr _ :: t => unread t
  end.

Definition pending (l : list rd_event) : nat := length (unread l).

(** A number of iterations no call of [ReadString] on [b] exceeds. *)
Definition budget (b : Reader) : nat :=
  2 * pending (inbox (rd b)) + 2 * length (inbox (rd b)) + 4.

Definition ReadString (b : Reader) (delim : ascii) : option (str * option error * Reader) :=
  ReadString_loop (budget b) delim [] b.

(** ** Response reader *)

(** [regexp.MustCompile("[0-9][0-9][0-9] ").MatchString(s)]: the pattern is
    not anchored, it is looked for at every position of [s]. *)
Definition code_here (s : str) : bool :=
  match s with
  | a :: b :: c :: d :: _ => is_digit a && is_digit b && is_digit c && Ascii.eqb d " "
  | _ => false
  end.

Fixpoint MatchString (s : str) : bool :=
  match s with
  | [] => false
  | _ :: t => code_here s || MatchString t
  end.

(** Knows the control connection where commands are sent to the server. *)
Record Connection := mkConnection {
  control : channel;
  hostname : str
}.

Definition cmd_result : Type := Z * str * option error.

(** The [for] loop of [Cmd]: lines are read and appended to [response] until
    one matches; the loop leaves with the three results of [Cmd].  A line
    that matches has at least four bytes, so that [response[0:3]] is always
    in range. *)
Fixpoint Cmd_loop (fuel : nat) (response : str) (reader : Reader)
  : option (cmd_result * Reader) :=
  match fuel with
  | O => None
  | S fuel' =>
      match ReadString reader LF with
      | None => None
      | Some (_, Some err, reader') => Some ((0, [], Some err), reader')
      | Some (ln, None, reader') =>
          let response := response ++ ln in
          if MatchString ln then
            match Atoi (firstn 3 response) with
            | (_, Some err) => Some ((0, response, Some err), reader')
            | (t, None) => Some ((to_uint t, response, None), reader')
            end
          else Cmd_loop fuel' response reader'
      end
  end.

(** [func (c *Connection) Cmd(command string, arg string)
      (code uint, response string, err error)].
    The buffered reader is local to the call: what it still holds when the
    call returns is gone with it. *)
Definition Cmd (c : Connection) (command arg : str) : option (cmd_result * Connection) :=
  let formattedCommand := command ++ lit " " ++ arg ++ CRLF in
  match conn_Write formattedCommand (control c) with
  | (Some err, ch) => Some ((0, [], Some err), mkConnection ch (hostname c))
  | (None, ch) =>
      let reader := NewReader ch in
      match Cmd_loop (S (pending (inbox ch))) [] reader with
      | None => None
      | Some (res, reader') => Some (res, mkConnection (rd reader') (hostname c))
      end
  end.

(** [func (c *Connection) Login(user string, password string) error] *)
Definition Login (c : Connection) (user password : str)
  : option (option error * Connection) :=
  if str_eqb user [] then
    Some (Some (Errorf (lit "FTP Connection Error: User can not be blank!")), c)
  else if str_eqb password [] then
    Some (Some (Errorf (lit "FTP Connection Error: Password can not be blank!")), c)
  else
    match Cmd c (lit "USER") user with
    | None => None
    | Some ((_, _, err), c) =>
        match Cmd c (lit "PASS") password with
        | None => None
        | Some ((_, _, err), c) =>
            match err with
            | Some e => Some (Some e, c)
            | None => Some (None, c)
            end
        end
    end.

(** [func (c *Connection) Logout() error] *)
Definition Logout (c : Connection) : option (option error * Connection) :=
  match Cmd c (lit "QUIT") [] with
  | None => None
  | Some ((_, _, Some err), c) => Some (Some err, c)
  | Some ((_, _, None), c) =>
      match conn_Close (control c) with
      | (Some err, ch) => Some (Some err, mkConnection ch (hostname c))
      | (None, ch) => Some (None, mkConnection ch (hostname c))
      end
  end.

(** ** Passive-mode decoder *)

(** The longest run of digits at the head of [s], and what follows it. *)
Fixpoint span_digits (s : str) : str * str :=
  match s with
  | [] => ([], [])
  | c :: t =>
      if is_digit c then let (d, r) := span_digits t in (c :: d, r)
      else ([], s)
  end.

(** [[0-9]+] at the head of [s]. *)
Definition group (s : str) : option (str * str) :=
  match span_digits s with
  | ([], _) => None
  | (d, r) => Some (d, r)
  end.

(** [[0-9]+,] at the head of [s]. *)
Definition group_comma (s : str) : option (str * str) :=
  match group s with
  | Some (d, c :: r) => if Ascii.eqb c "," then Some (d, r) else None
  | _ => None
  end.

Definition six_groups (h1 h2 h3 h4 p1 p2 : str) : str :=
  h1 ++ lit "," ++ h2 ++ lit "," ++ h3 ++ lit "," ++ h4 ++ lit "," ++ p1 ++ lit "," ++ p2.

(** The pattern [[0-9]+,[0-9]+,[0-9]+,[0-9]+,([0-9]+,[0-9]+)] tried at the
    head of [s].  Every [[0-9]+] is greedy and must be followed by a comma, so
    it can only take the whole run of digits; the result is the match and its
    one submatch. *)
Definition match_here (s : str) : option (str * str) :=
  match group_comma s with
  | None => None
  | Some (h1, s1) =>
  match group_comma s1 with
  | None => None
  | Some (h2, s2) =>
  match group_comma s2 with
  | None => None
  | Some (h3, s3) =>
  match group_comma s3 with
  | None => None
  | Some (h4, s4) =>
  match group_comma s4 with
  | None => None
  | Some (p1, s5) =>
  match group s5 with
  | None => None
  | Some (p2, _) => Some (six_groups h1 h2 h3 h4 p1 p2, p1 ++ lit "," ++ p2)
  end end end end end end.

(** [re.FindStringSubmatch(line)]: the leftmost match and its submatch, or
    [nil]. *)
Fixpoint FindStringSubmatch (line : str) : list str :=
  match match_here line with
  | Some (m0, m1) => [m0; m1]
  | None =>
      match line with
      | [] => []
      | _ :: t => FindStringSubmatch t
      end
  end.

(** [func extractDataPort(line string) (port uint, err error)].  When the
    pattern is not found, [msg], which ends with [line], is handed to
    [fmt.Errorf] as its format. *)
Definition extractDataPort (line : str) : Z * option error :=
  let match_ := FindStringSubmatch line in
  if (length match_ =? 0)%nat then
    let msg := lit "Cannot find data port in server output: " ++ line in
    (0, Some (Errorf msg))
  else
    let octets := Split (nth 1 match_ []) "," in
    let (firstOctet, _) := Atoi (nth 0 octets []) in
    let (secondOctet, _) := Atoi (nth 1 octets []) in
    let port := to_uint (to_int (to_int (firstOctet * 256) + secondOctet)) in
    (port, None).

(** ** The network and the file system *)

Record World := mkWorld {
  net : str -> error + channel;      (* what net.Dial("tcp", address) yields *)
  dialed : list str;                 (* the addresses dialled so far, latest first *)
  fs : str -> error + channel;       (* what os.OpenFile(name, ...) yields *)
  opened : list str                  (* the files opened so far, latest first *)
}.

Definition net_Dial (address : str) (w : World) : (error + channel) * World :=
  (net w address, mkWorld (net w) (address :: dialed w) (fs w) (opened w)).

Definition os_OpenFile (name : str) (w : World) : (error + channel) * World :=
  (fs w name, mkWorld (net w) (dialed w) (fs w) (name :: opened w)).

(** ** Control session *)

(** [welcomeMsg[0:3]] after one [Read] into a zeroed 1024-byte buffer. *)
Definition zero : ascii := "000"%char.

(** [func Dial(host string)], which returns a pointer to a [Connection] and
    an error. *)
Definition Dial (host : str) (w : World) : (error + Connection) * World :=
  if str_eqb host [] then
    (inl (Errorf (lit "FTP Connection Error: Host can not be blank!")), w)
  else if negb (hasPort host) then
    (inl (Errorf (lit "FTP Connection Error: Host must have a port! e.g. host:21")), w)
  else
    match net_Dial host w with
    | (inl err, w) => (inl err, w)
    | (inr conn, w) =>
        match conn_Read 1024 conn with
        | (_, Some err, _) =>
            (inl (Errorf_v
                    (lit "Couldn't read the server's initital connection information. Error: ")
                    err []), w)
        | (data, None, conn) =>
            let welcomeMsg := data ++ repeat zero (1024 - length data) in
            let (code, _) := Atoi (firstn 3 welcomeMsg) in
            match checkResponseCode 2 (to_uint code) with
            | Some err =>
                (inl (Errorf_v (lit "Couldn't read the server's Welcome Message. Error: ")
                        err []), w)
            | None =>
                let hostParts := Split host ":" in
                (inr (mkConnection conn (nth 0 hostParts [])), w)
            end
        end
    end.

(** ** Transfer engine

    The transfer functions thread the session, the world, the data
    connection and the local file through a sequence of calls, and leave
    early with [return]; [defer] registers a call that runs when the function
    is left, however it is left.  A small monad carries this. *)

Record Env := mkEnv {
  conn : Connection;             (* the receiver [c] *)
  world : World;
  dataConn : option channel;     (* downloadConn, uploadConn; [None] is the nil interface *)
  file : option channel          (* destFile, sourceFile; [None] is the nil pointer *)
}.

Inductive step (R A : Type) :=
| Next (a : A)            (* go on with the next statement *)
| Return (r : R)          (* a return statement was executed *)
| Panic.                  (* run-time panic: nil dereference *)
Arguments Next {R A} a.
Arguments Return {R A} r.
Arguments Panic {R A}.

(** How a call ends. *)
Inductive outcome (R : Type) :=
| Returned (r : R)
| Panicked.
Arguments Returned {R} r.
Arguments Panicked {R}.

(** [None] stands for a loop that ran out of fuel. *)
Definition M (R A : Type) : Type := Env -> option (step R A * Env).

Section Engine.
Context {R : Type}.

Definition pure {A} (a : A) : M R A := fun e => Some (Next a, e).

Definition bind {A B} (m : M R A) (k : A -> M R B) : M R B := fun e =>
  match m e with
  | None => None
  | Some (Next a, e') => k a e'
  | Some (Return r, e') => Some (Return r, e')
  | Some (Panic, e') => Some (Panic, e')
  end.

Definition ret {A} (r : R) : M R A := fun e => Some (Return r, e).

(** [if err != nil { return f(err) }] *)
Definition check (err : option error) (f : error -> R) : M R unit :=
  match err with
  | Some e => ret (f e)
  | None => pure tt
  end.

(** [c.Cmd(command, arg)] *)
Definition cmd (command arg : str) : M R cmd_result := fun e =>
  match Cmd (conn e) command arg with
  | None => None
  | Some (res, c) => Some (Next res, mkEnv c (world e) (dataConn e) (file e))
  end.

(** [c.control.Write(p)] *)
Definition control_Write (p : str) : M R (option error) := fun e =>
  let (err, ch) := conn_Write p (control (conn e)) in
  Some (Next err, mkEnv (mkConnection ch (hostname (conn e))) (world e) (dataConn e) (file e)).

(** [xConn, err := net.Dial("tcp", address)]: on failure the connection
    is the nil interface. *)
Definition dial (address : str) : M R (option error) := fun e =>
  match net_Dial address (world e) with
  | (inl err, w) => Some (Next (Some err), mkEnv (conn e) w None (file e))
  | (inr ch, w) => Some (Next None, mkEnv (conn e) w (Some ch) (file e))
  end.

(** [xFile, err := os.OpenFile(name, ...)] *)
Definition open (name : str) : M R (option error) := fun e =>
  match os_OpenFile name (world e) with
  | (inl err, w) => Some (Next (Some err), mkEnv (conn e) w (dataConn e) None)
  | (inr f, w) => Some (Next None, mkEnv (conn e) w (dataConn e) (Some f))
  end.

Definition close_dataConn (e : Env) : Env :=
  match dataConn e with
  | Some ch => mkEnv (conn e) (world e) (Some (snd (conn_Close ch))) (file e)
  | None => e
  end.

Definition close_file (e : Env) : Env :=
  match file e with
  | Some f => mkEnv (conn e) (world e) (dataConn e) (Some (snd (conn_Close f)))
  | None => e
  end.

(** [defer xConn.Close()] followed by the rest of the function.  The method
    of an interface value is looked up when the [defer] statement runs: on
    the nil interface that is a nil dereference, and the function panics.
    Otherwise the connection is closed when the rest is left, whether by
    [return] or by a panic. *)
Definition defer_dataConn_Close {A} (rest : M R A) : M R A := fun e =>
  match dataConn e with
  | None => Some (Panic, e)
  | Some _ =>
      match rest e with
      | None => None
      | Some (s, e') => Some (s, close_dataConn e')
      end
  end.

(** [defer xFile.Close()] followed by the rest of the function: [Close] on
    a nil [*os.File] returns an error, which a [defer] drops. *)
Definition defer_file_Close {A} (rest : M R A) : M R A := fun e =>
  match rest e with
  | None => None
  | Some (s, e') => Some (s, close_file e')
  end.

(** [if timeout > 0 { setReadDeadline(xConn, timeout) }] *)
Definition set_deadline (timeout : Z) : M R unit := fun e =>
  if 0 <? timeout then
    match dataConn e with
    | Some ch =>
        Some (Next tt, mkEnv (conn e) (world e) (Some (conn_SetReadDeadline timeout ch)) (file e))
    | None => Some (Panic, e)
    end
  else Some (Next tt, e).

(** [xConn.Read(buf)] with a buffer of [n] bytes. *)
Definition dataConn_Read (n : nat) : M R (str * option error) := fun e =>
  match dataConn e with
  | Some ch =>
      let '(data, err, ch') := conn_Read n ch in
      Some (Next (data, err), mkEnv (conn e) (world e) (Some ch') (file e))
  | None => Some (Panic, e)
  end.

Definition dataConn_Write (p : str) : M R (option error) := fun e =>
  match dataConn e with
  | Some ch =>
      let (err, ch') := conn_Write p ch in
      Some (Next err, mkEnv (conn e) (world e) (Some ch') (file e))
  | None => Some (Panic, e)
  end.

Definition file_Read (n : nat) : M R (str * option error) := fun e =>
  match file e with
  | Some f =>
      let '(data, err, f') := conn_Read n f in
      Some (Next (data, err), mkEnv (conn e) (world e) (dataConn e) (Some f'))
  | None => Some (Panic, e)
  end.

Definition file_Write (p : str) : M R (option error) := fun e =>
  match file e with
  | Some f =>
      let (err, f') := conn_Write p f in
      Some (Next err, mkEnv (conn e) (world e) (dataConn e) (Some f'))
  | None => Some (Panic, e)
  end.

Definition starved {A} : M R A := fun _ => None.

(** A function body always leaves through [return] or a panic. *)
Definition call (body : M R Empty_set) (e : Env) : option (outcome R * Env) :=
  match body e with
  | None => None
  | Some (Next a, _) => match a with end
  | Some (Return r, e') => Some (Returned r, e')
  | Some (Panic, e') => Some (Panicked, e')
  end.
End Engine.

Declare Scope go_scope.
Delimit Scope go_scope with go.
Notation "x <- m ;; k" := (bind m (fun x => k))
  (at level 61, m at next level, right associativity) : go_scope.
Notation "' p <- m ;; k" := (bind m (fun x => let 'p := x in k))
  (at level 61, p pattern, m at next level, right associativity) : go_scope.
Notation "m ;; k" := (bind m (fun _ => k))
  (at level 61, right associativity) : go_scope.

Definition is_EOF (err : option error) : bool :=
  match err with
  | Some EOF => true
  | _ => false
  end.

Local Open Scope go_scope.

(** The handshake the three transfer functions repeat word for word: PASV
    and its port, TYPE, then the transfer command written to the control
    connection without waiting for an answer.  [fail] is how the function
    returns an error; the result is [dataPort].  The message of a refusal is
    put together by [fmt.Sprintf] and then handed to [fmt.Errorf] as its
    format, here and in the functions below. *)
Definition handshake {R} (fail : error -> R) (verb path mode : str) : M R Z :=
  '(pasvCode, pasvLine, err) <- cmd (lit "PASV") [] ;;
  check err fail ;;
  check (checkResponseCode 2 pasvCode)
        (fun pasvErr => fail (Errorf_Sprintf (lit "Cannot set PASV. Error: ") pasvErr [])) ;;
  let (dataPort, err) := extractDataPort pasvLine in
  check err fail ;;
  '(typeCode, typeLine, err) <- cmd (lit "TYPE") mode ;;
  check err fail ;;
  check (checkResponseCode 2 typeCode)
        (fun typeErr => fail (Errorf_Sprintf (lit "Cannot set TYPE. Error: '") typeErr
                                (lit "'. Line: '" ++ typeLine ++ lit "'"))) ;;
  err <- control_Write (verb ++ lit " " ++ path ++ CRLF) ;;
  check err fail ;;
  pure dataPort.

(** [remoteConnectString := c.hostname + ":" + fmt.Sprintf("%d", dataPort)],
    the dial, the deferred [Close] and the test of the dial's error, in the
    order of the source. *)
Definition connect {R A} (fail : error -> R) (dataPort : Z) (rest : M R A) : M R A :=
  fun e =>
    let remoteConnectString := hostname (conn e) ++ lit ":" ++ decimal dataPort in
    (err <- dial remoteConnectString ;;
     defer_dataConn_Close (
       check err (fun err =>
         fail (Errorf_Sprintf (lit "Couldn't connect to server's remote data port. Error: ") err [])) ;;
       rest)) e.

(** The read loop of [GetBuffer].  A non-empty read is appended to [result];
    [bytes.Buffer.Write] takes all of it at once and returns a nil error,
    which the source stores in [readErr]. *)
Fixpoint GetBuffer_loop (fuel : nat) (result : str) : M (str * option error) str :=
  match fuel with
  | O => starved
  | S fuel' =>
      '(data, readErr) <- dataConn_Read 1024 ;;
      let '(result, readErr) :=
        if (0 <? length data)%nat then (result ++ data, None) else (result, readErr) in
      if is_EOF readErr then pure result
      else
        check readErr (fun e => ([], Some e)) ;;
        GetBuffer_loop fuel' result
  end.

Definition loop_fuel (ch : option channel) : nat :=
  match ch with
  | Some ch => pending (inbox ch) + length (inbox ch) + 1
  | None => 1
  end.

(** [func (c *Connection) GetBuffer(src, mode string, timeout uint)
      ([]byte, error)].  [result.Grow] only reserves capacity and leaves no
    trace here. *)
Definition GetBuffer (src mode : str) (timeout : Z) : M (str * option error) Empty_set :=
  let fail := fun e : error => ([] : str, Some e) in
  dataPort <- handshake fail (lit "RETR") src mode ;;
  connect fail dataPort (
    set_deadline timeout ;;
    result <- (fun e => GetBuffer_loop (loop_fuel (dataConn e)) [] e) ;;
    ret (result, None)).

(** The copy loop of [DownloadFile]. *)
Fixpoint DownloadFile_loop (fuel : nat) (dest : str) : M (option error) unit :=
  match fuel with
  | O => starved
  | S fuel' =>
      '(data, readErr) <- dataConn_Read 1024 ;;
      (if (0 <? length data)%nat then
         err <- file_Write data ;;
         check err (fun err =>
           Some (Errorf_Sprintf (lit "Coudn't write to file, '" ++ dest ++ lit "'. Error: ") err []))
       else pure tt) ;;
      if is_EOF readErr then pure tt
      else
        check readErr Some ;;
        DownloadFile_loop fuel' dest
  end.

(** [func (c *Connection) DownloadFile(src, dest, mode string, timeout uint)
      error] *)
Definition DownloadFile (src dest mode : str) (timeout : Z) : M (option error) Empty_set :=
  dataPort <- handshake Some (lit "RETR") src mode ;;
  connect Some dataPort (
    err <- open dest ;;
    defer_file_Close (
      check err (fun err =>
        Some (Errorf_Sprintf (lit "Cannot open destination file, '" ++ dest ++ lit "'. ") err [])) ;;
      set_deadline timeout ;;
      (fun e => DownloadFile_loop (loop_fuel (dataConn e)) dest e) ;;
      ret None)).

(** The copy loop of [UploadFile]; [sourceFile.Name()] is [src]. *)
Fixpoint UploadFile_loop (fuel : nat) (src : str) : M (option error) unit :=
  match fuel with
  | O => starved
  | S fuel' =>
      '(data, readErr) <- file_Read 1024 ;;
      (if (0 <? length data)%nat then
         writeErr <- dataConn_Write data ;;
         check writeErr (fun writeErr =>
           Some (Errorf_Sprintf (lit "Couldn't write file to server, '" ++ src ++ lit "'. Error: ")
                   writeErr []))
       else pure tt) ;;
      if is_EOF readErr then pure tt
      else
        check readErr Some ;;
        UploadFile_loop fuel' src
  end.

(** [func (c *Connection) UploadFile(src, dest, mode string, timeout uint)
      error] *)
Definition UploadFile (src dest mode : str) (timeout : Z) : M (option error) Empty_set :=
  dataPort <- handshake Some (lit "STOR") dest mode ;;
  connect Some dataPort (
    err <- open src ;;
    defer_file_Close (
      check err (fun err =>
        Some (Errorf_Sprintf (lit "Cannot open src file, '" ++ src ++ lit "'. ") err [])) ;;
      set_deadline timeout ;;
      (fun e => UploadFile_loop (loop_fuel (file e)) src e) ;;
      ret None)).

(** [Get] and [Put] are aliases. *)
Definition Get := DownloadFile.
Definition Put := UploadFile.

Local Close Scope go_scope.

(** ** Vocabulary of the properties *)

(** The message of a classification failure carries both values. *)
Definition bad_response (expectCode code : Z) : error :=
  Errorf (lit "Bad response from server. Expected: " ++ decimal expectCode
          ++ lit ", Got: " ++ decimal code).

(** The value a string of digits denotes, continuing from [n]. *)
Definition digits_from (n : Z) (g : str) : Z :=
  fold_left (fun n c => n * 10 + digit_val c) g n.

Definition digits_value (g : str) : Z := digits_from 0 g.

Definition all_digits (g : str) : Prop := Forall (fun c => is_digit c = true) g.

(** A match of [[0-9]+]. *)
Definition digits (g : str) : Prop := g <> [] /\ all_digits g.

(** The next byte, if any, is not a digit. *)
Definition no_digit_ahead (s : str) : Prop :=
  match s with
  | [] => True
  | c :: _ => is_digit c = false
  end.

(** [s] begins with six comma-separated groups of digits. *)
Definition starts_with_groups (s : str) : Prop :=
  exists h1 h2 h3 h4 p1 p2 post,
    digits h1 /\ digits h2 /\ digits h3 /\ digits h4 /\ digits p1 /\ digits p2 /\
    s = six_groups h1 h2 h3 h4 p1 p2 ++ post.

(** [body] contains a substring of the form h1,h2,h3,h4,p1,p2. *)
Definition has_port_form (body : str) : Prop :=
  exists pre rest, body = pre ++ rest /\ starts_with_groups rest.

(** The match of the pattern in [body]: six groups after [pre], the last one
    as long as it can be, and no six groups starting further left. *)
Record port_match (body pre h1 h2 h3 h4 p1 p2 post : str) : Prop := {
  pm_split : body = pre ++ six_groups h1 h2 h3 h4 p1 p2 ++ post;
  pm_h1 : digits h1;
  pm_h2 : digits h2;
  pm_h3 : digits h3;
  pm_h4 : digits h4;
  pm_p1 : digits p1;
  pm_p2 : digits p2;
  pm_greedy : no_digit_ahead post;
  pm_leftmost : forall pre' rest,
      body = pre' ++ rest -> (length pre' < length pre)%nat -> ~ starts_with_groups rest
}.

(** C10 as it is stated: a group that fails to parse counts for 0. *)
Definition octet_or_zero (g : str) : Z :=
  match Atoi g with
  | (v, None) => v
  | (_, Some _) => 0
  end.

(** Blank or malformed caller input, reported by the package itself. *)
Definition ValidationError (e : error) : Prop :=
  exists msg, e = Errorf (lit "FTP Connection Error: " ++ msg).

(** [host] has a colon-delimited port: a [':'] that comes after every [']']. *)
Definition colon_port (host : str) : Prop :=
  exists i, nth_error host i = Some ":"%char /\
            forall j, nth_error host j = Some "]"%char -> (j < i)%nat.

(** A complete line: bytes without a newline, then the newline. *)
Definition is_line (l : str) : Prop :=
  exists body, l = body ++ [LF] /\ ~ In LF body.

Definition nonempty_chunks (cs : list str) : Prop := Forall (fun c => c <> []) cs.

(** The connection succeeds at its next [Write]. *)
Definition write_ok (ch : channel) : Prop :=
  match wfaults ch with
  | Some _ :: _ => False
  | _ => True
  end.

(** The reader [b] stands before the bytes [s]: no error is pending, and [s]
    is what its buffer holds followed by the chunks [cs] that its connection
    delivers next; [rest] is the script after them, and [ch] gives the other
    fields of the connection. *)
Definition stands (b : Reader) (ch : channel) (cs : list str) (rest : list rd_event)
    (s : str) : Prop :=
  rerr b = None /\ nonempty_chunks cs /\
  rd b = set_inbox ch (map Chunk cs ++ rest) /\
  buf b ++ concat cs = s.

(** A non-terminal line: the pattern is nowhere in it. *)
Definition continuation (l : str) : Prop := is_line l /\ MatchString l = false.

(** A terminal line: three digits and a space at its start. *)
Definition terminal (l : str) : Prop := is_line l /\ code_here l = true.

(** What [Cmd] returns once the loop has put together [response]. *)
Definition reply_result (response : str) : cmd_result :=
  match Atoi (firstn 3 response) with
  | (_, Some err) => (0, response, Some err)
  | (t, None) => (to_uint t, response, None)
  end.

(** The session after a command has been written and its reply read: the
    command is in the outbox, and the script of the control connection is
    down to [l]. *)
Definition after_Cmd (c : Connection) (command arg : str) (l : list rd_event) : Connection :=
  mkConnection
    (mkChannel l (tl (wfaults (control c)))
               (outbox (control c) ++ command ++ lit " " ++ arg ++ CRLF)
               (closed (control c)) (close_err (control c)) (deadline (control c)))
    (hostname c).

(** The bytes the reader has not handed out yet. *)
Definition nu (b : Reader) : nat := length (buf b) + pending (inbox (rd b)).

(** The measure that every iteration of [ReadString] decreases. *)
Definition mu (b : Reader) : nat :=
  2 * pending (inbox (rd b)) + 2 * length (inbox (rd b)) + Nat.min 1 (length (buf b))
  + match rerr b with None => 2 | Some _ => 0 end.

(** A connection that has the script [l] to read and accepts every write. *)
Definition fresh_channel (l : list rd_event) : channel :=
  mkChannel l [] [] false None None.

Definition session (l : list rd_event) : Connection :=
  mkConnection (fresh_channel l) (lit "ftp.example.org").

(** A reply of three continuation lines and the terminal line
    "226 Transfer complete", as RFC 959 shapes it. *)
Definition reply_226 : list str :=
  [lit "226-Listing follows" ++ [CR] ++ [LF];
   lit " first" ++ [CR] ++ [LF];
   lit " second" ++ [CR] ++ [LF]].

Definition line_226 : str := lit "226 Transfer complete" ++ [CR] ++ [LF].

(** The address the data connection is dialled at. *)
Definition data_address (e : Env) (dataPort : Z) : str :=
  hostname (conn e) ++ lit ":" ++ decimal dataPort.

Definition data_open (e : Env) : Prop := dataConn e <> None.

Definition data_closed (e : Env) : Prop :=
  exists ch, dataConn e = Some ch /\ closed ch = true.

(** [m] never drops the data connection. *)
Definition keeps {R A} (m : M R A) : Prop :=
  forall e s e', m e = Some (s, e') -> data_open e -> data_open e'.

(** [m] ends on every state: it never runs out of fuel. *)
Definition total {R A} (m : M R A) : Prop := forall e, m e <> None.

(** What bounds the number of reads a copy loop still makes. *)
Definition left_to_read (ch : option channel) : nat :=
  match ch with
  | Some ch => pending (inbox ch) + length (inbox ch)
  | None => 0
  end.

(** A server that answers PASV and TYPE, and a network on which every dial
    is refused. *)
Definition pasv_reply : str := lit "227 Entering Passive Mode (127,0,0,1,205,238)." ++ CRLF.

Definition type_reply : str := lit "200 Type set to I" ++ CRLF.

Definition refusing : World :=
  mkWorld (fun _ => inl (SysError (lit "connection refused"))) []
          (fun _ => inl (SysError (lit "no such file or directory"))) [].

Definition refused_transfer : Env :=
  mkEnv (session [Chunk pasv_reply; Chunk type_reply]) refusing None None.

(** *** Vocabulary of the further properties *)

(** What the reader and its connection still hold, in order. *)
Definition stream (b : Reader) : str := buf b ++ unread (inbox (rd b)).

(** The pattern occurs in [s]: three digits and a space, anywhere. *)
Definition holds_code (s : str) : Prop :=
  exists pre d1 d2 d3 post,
    s = pre ++ d1 :: d2 :: d3 :: " "%char :: post /\
    is_digit d1 = true /\ is_digit d2 = true /\ is_digit d3 = true.

(** How a script that has run out of chunks ends the next read: with the
    error it holds, or with [io.EOF]. *)
Definition read_failure (tail : list rd_event) : error :=
  match tail with
  | RdErr e :: _ => e
  | _ => EOF
  end.

(** No chunk is next in the script. *)
Definition no_chunk_ahead (tail : list rd_event) : Prop :=
  match tail with
  | Chunk _ :: _ => False
  | _ => True
  end.

(** The bytes of [s] before its first [sep], or all of [s]. *)
Fixpoint up_to (sep : ascii) (s : str) : str :=
  match s with
  | [] => []
  | c :: t => if Ascii.eqb c sep then [] else c :: up_to sep t
  end.

(** The welcome begins with three digits, the first of which is 2. *)
Definition welcome_2xx (data : str) : bool :=
  match data with
  | a :: b :: c :: _ => Ascii.eqb a "2" && is_digit b && is_digit c
  | _ => false
  end.

(** [welcomeMsg[0:3]] for the bytes [data] of the first read. *)
Definition first3 (data : str) : str := firstn 3 (data ++ [zero; zero; zero]).

(** The world after [address] has been dialled. *)
Definition dialled (address : str) (w : World) : World :=
  mkWorld (net w) (address :: dialed w) (fs w) (opened w).

(** How a copy loop ends on a stream that fails as [tail] says: the end of the
    stream is no error, any other failure of the read is. *)
Definition copy_error (tail : list rd_event) : option error :=
  match read_failure tail with
  | EOF => None
  | e => Some e
  end.

(** The connection [f] once [p] has been written to it. *)
Definition written (f : channel) (p : str) : channel :=
  mkChannel (inbox f) (wfaults f) (outbox f ++ p) (closed f) (close_err f) (deadline f).

(** [if timeout > 0 { setReadDeadline(ch, timeout) }] *)
Definition with_deadline (timeout : Z) (ch : channel) : channel :=
  if 0 <? timeout then conn_SetReadDeadline timeout ch else ch.

(** The data connection and the local file are both there. *)
Definition ready (e : Env) : Prop := dataConn e <> None /\ file e <> None.

(** The local file, if one was opened, has been closed. *)
Definition file_closed (e : Env) : Prop :=
  match file e with
  | Some f => closed f = true
  | None => True
  end.

(** From a state where [P] holds, [m] does not panic, and [Q] holds when it
    goes on to the next statement. *)
Definition safe {R A} (P : Env -> Prop) (m : M R A) (Q : A -> Env -> Prop) : Prop :=
  forall e s e', P e -> m e = Some (s, e') ->
    match s with
    | Next a => Q a e'
    | Return _ => True
    | Panic => False
    end.

(** Each of the three transfer functions returns the error [err] and leaves
    the state [e']. *)
Definition all_refuse (src dest mode : str) (timeout : Z) (e : Env) (err : error) (e' : Env)
  : Prop :=
  call (GetBuffer src mode timeout) e = Some (Returned ([], Some err), e') /\
  call (DownloadFile src dest mode timeout) e = Some (Returned (Some err), e') /\
  call (UploadFile src dest mode timeout) e = Some (Returned (Some err), e').

(** The state once the control connection has become [c]: nothing else has
    changed. *)
Definition on_control (e : Env) (c : Connection) : Env :=
  mkEnv c (world e) (dataConn e) (file e).

(** The connection [f] after a write that failed: the fault is used up and
    nothing has been written. *)
Definition write_failed (f : channel) : channel :=
  mkChannel (inbox f) (tl (wfaults f)) (outbox f) (closed f) (close_err f) (deadline f).

(** [m] leaves the control session as it is. *)
Definition steady {R A} (m : M R A) : Prop :=
  forall e s e', m e = Some (s, e') -> conn e' = conn e.

(** A network on which the data port that [pasv_reply] announces answers as
    [data], and a file system whose file "f" is [local]. *)
Definition offering (data local : channel) : World :=
  mkWorld (fun address =>
             if str_eqb address (lit "ftp.example.org:52718") then inr data
             else inl (SysError (lit "connection refused")))
          []
          (fun name =>
             if str_eqb name (lit "f") then inr local
             else inl (SysError (lit "no such file or directory")))
          [].

(** A session about to start a transfer in the world [w], with a server
    that answers PASV and TYPE. *)
Definition transfer_in (w : World) : Env :=
  mkEnv (session [Chunk pasv_reply; Chunk type_reply]) w None None.

(** A server that greets with [welcome]. *)
Definition greeting (welcome : list rd_event) : World :=
  mkWorld (fun _ => inr (fresh_channel welcome)) [] (fun _ => inl EOF) [].

(** The text of a classification failure: literal text and two numbers. *)
Definition bad_response_text (expectCode code : Z) : str :=
  lit "Bad response from server. Expected: " ++ decimal expectCode
  ++ lit ", Got: " ++ decimal code.

(** * Properties *)

Lemma checkResponseCode_cases expectCode code :
  checkResponseCode expectCode code = None \/
  checkResponseCode expectCode code = Some (bad_response expectCode code).
Proof.
  unfold checkResponseCode, bad_response.
  destruct (_ || _); [right | left]; reflexivity.
Qed.


(** The condition of the [if], read as a proposition. *)
Lemma checkResponseCode_None expectCode code :
  checkResponseCode expectCode code = None <->
  ~ ((1 <= expectCode < 10 /\ code / 100 <> expectCode) \/
     (10 <= expectCode < 100 /\ code / 10 <> expectCode) \/
     (100 <= expectCode < 1000 /\ code <> expectCode)).
Proof.
  unfold checkResponseCode. destruct (_ || _) eqn:E.
  - rewrite !orb_true_iff, !andb_true_iff, !negb_true_iff in E.
    rewrite !Z.leb_le, !Z.ltb_lt, !Z.eqb_neq in E.
    split; [discriminate |]. intros Hno. exfalso. apply Hno. lia.
  - rewrite !orb_false_iff, !andb_false_iff, !negb_false_iff in E.
    rewrite !Z.leb_gt, !Z.ltb_ge, !Z.eqb_eq in E.
    split; [intros _; lia | reflexivity].
Qed.

Lemma checkResponseCode_Some expectCode code :
  checkResponseCode expectCode code <> None ->
  checkResponseCode expectCode code = Some (bad_response expectCode code).
Proof.
  intros H. destruct (checkResponseCode_cases expectCode code); [contradiction | assumption].
Qed.

(** An expectation outside 1..999 constrains nothing. *)
Lemma checkResponseCode_unconstrained expectCode code :
  expectCode < 1 \/ 1000 <= expectCode -> checkResponseCode expectCode code = None.
Proof. intros H. apply checkResponseCode_None. lia. Qed.

(** C2. Classification truncates the actual code to the digit width of the
    expectation (code/100 for 1..9, code/10 for 10..99, the code itself for
    100..999) and succeeds exactly when the truncation equals the
    expectation; a failure is an error that carries both values.  For every
    expectation in {2, 23, 230} the code 230 passes and the code 500 fails. *)
Theorem checkResponseCode_spec :
  (forall e a, 1 <= e <= 9 ->
     (checkResponseCode e a = None <-> a / 100 = e) /\
     (a / 100 <> e -> checkResponseCode e a = Some (bad_response e a))) /\
  (forall e a, 10 <= e <= 99 ->
     (checkResponseCode e a = None <-> a / 10 = e) /\
     (a / 10 <> e -> checkResponseCode e a = Some (bad_response e a))) /\
  (forall e a, 100 <= e <= 999 ->
     (checkResponseCode e a = None <-> a = e) /\
     (a <> e -> checkResponseCode e a = Some (bad_response e a))) /\
  (forall e, In e [2; 23; 230] ->
     checkResponseCode e 230 = None /\
     checkResponseCode e 500 = Some (bad_response e 500)).
Proof.
  split; [| split; [| split]].
  - intros e a He. split.
    + rewrite checkResponseCode_None. lia.
    + intros Hne. apply checkResponseCode_Some. rewrite checkResponseCode_None. lia.
  - intros e a He. split.
    + rewrite checkResponseCode_None. lia.
    + intros Hne. apply checkResponseCode_Some. rewrite checkResponseCode_None. lia.
  - intros e a He. split.
    + rewrite checkResponseCode_None. lia.
    + intros Hne. apply checkResponseCode_Some. rewrite checkResponseCode_None. lia.
  - intros e [<- | [<- | [<- | []]]]; split; reflexivity.
Qed.

(** ** Integers *)

Lemma to_uint_to_int x : to_uint (to_int x) = to_uint x.
Proof.
  unfold to_uint, to_int.
  rewrite Zminus_mod_idemp_l. f_equal. lia.
Qed.

Lemma to_uint_to_int_add x y : to_uint (to_int x + y) = to_uint (x + y).
Proof.
  unfold to_uint. rewrite Z.add_mod by (compute; discriminate).
  fold (to_uint (to_int x)). rewrite to_uint_to_int. unfold to_uint.
  rewrite <- Z.add_mod by (compute; discriminate). reflexivity.
Qed.

Lemma to_uint_small x : 0 <= x < 2 ^ 64 -> to_uint x = x.
Proof. intros H. unfold to_uint. now apply Z.mod_small. Qed.

Lemma is_digit_val c : is_digit c = true -> 0 <= digit_val c <= 9.
Proof.
  unfold is_digit, digit_val. rewrite andb_true_iff, !N.leb_le. lia.
Qed.

Lemma is_digit_neq c d : is_digit c = true -> is_digit d = false -> Ascii.eqb c d = false.
Proof.
  intros Hc Hd. destruct (Ascii.eqb_spec c d) as [-> | _]; [congruence | reflexivity].
Qed.

Lemma digits_from_cons n c t :
  digits_from n (c :: t) = digits_from (n * 10 + digit_val c) t.
Proof. reflexivity. Qed.

Lemma digits_from_ge g : forall n, 0 <= n -> all_digits g -> n <= digits_from n g.
Proof.
  induction g as [| c t IH]; intros n Hn Hg; [simpl; lia |].
  inversion Hg as [| ? ? Hc Ht]; subst.
  apply is_digit_val in Hc. rewrite digits_from_cons.
  specialize (IH (n * 10 + digit_val c) ltac:(lia) Ht). lia.
Qed.

Lemma ParseUint_loop_digits g : forall n,
  0 <= n <= maxUint64 -> all_digits g ->
  ParseUint_loop n g =
    if digits_from n g <=? maxUint64 then (digits_from n g, None)
    else (maxUint64, Some ErrRange).
Proof.
  induction g as [| c t IH]; intros n Hn Hg.
  - simpl. replace (n <=? maxUint64) with true by (symmetry; apply Z.leb_le; lia).
    reflexivity.
  - inversion Hg as [| ? ? Hc Ht]; subst.
    cbn [ParseUint_loop]. rewrite Hc, digits_from_cons.
    pose proof (is_digit_val c Hc) as Hd.
    pose proof (digits_from_ge t (n * 10 + digit_val c) ltac:(lia) Ht) as Hge.
    assert (Hmax : maxUint64 = 18446744073709551615) by reflexivity.
    assert (Hcut : maxUint64 / 10 + 1 = 1844674407370955162) by reflexivity.
    rewrite Hcut.
    destruct (1844674407370955162 <=? n) eqn:E1;
      [apply Z.leb_le in E1 | apply Z.leb_gt in E1].
    + replace (_ <=? maxUint64) with false by (symmetry; apply Z.leb_gt; lia).
      reflexivity.
    + destruct (maxUint64 <? n * 10 + digit_val c) eqn:E2;
        [apply Z.ltb_lt in E2 | apply Z.ltb_ge in E2].
      * replace (_ <=? maxUint64) with false by (symmetry; apply Z.leb_gt; lia).
        reflexivity.
      * apply IH; [lia | exact Ht].
Qed.

Lemma is_digit_not_sign c :
  is_digit c = true -> Ascii.eqb c "+" = false /\ Ascii.eqb c "-" = false.
Proof. intros H. split; apply is_digit_neq; auto. Qed.

(** On a string of digits [Atoi] yields the value it denotes, or the largest
    [int] when that value does not fit. *)
Lemma Atoi_digits_full g :
  digits g ->
  Atoi g = if digits_value g <=? maxInt64 then (digits_value g, None)
           else (maxInt64, Some (NumError (lit "Atoi") g ErrRange)).
Proof.
  intros [Hne Hg]. destruct g as [| c t]; [congruence |].
  inversion Hg as [| ? ? Hc Ht]; subst.
  destruct (is_digit_not_sign c Hc) as [Hp Hm].
  unfold Atoi, ParseInt. rewrite Hp, Hm. cbn [orb negb andb].
  unfold ParseUint. rewrite ParseUint_loop_digits by (auto; compute; split; discriminate).
  fold (digits_value (c :: t)).
  assert (H0 : 0 <= digits_value (c :: t))
    by (apply (digits_from_ge (c :: t) 0); [lia | exact Hg]).
  assert (Hmax : maxUint64 = 18446744073709551615) by reflexivity.
  assert (Hint : maxInt64 = 9223372036854775807) by reflexivity.
  assert (H63 : 2 ^ 63 = 9223372036854775808) by reflexivity.
  rewrite H63.
  destruct (digits_value (c :: t) <=? maxUint64) eqn:E;
    [apply Z.leb_le in E | apply Z.leb_gt in E].
  - destruct (9223372036854775808 <=? digits_value (c :: t)) eqn:E2;
      [apply Z.leb_le in E2 | apply Z.leb_gt in E2]; cbv iota beta.
    + replace (_ <=? maxInt64) with false by (symmetry; apply Z.leb_gt; lia).
      reflexivity.
    + replace (_ <=? maxInt64) with true by (symmetry; apply Z.leb_le; lia).
      reflexivity.
  - replace (9223372036854775808 <=? maxUint64) with true by reflexivity.
    replace (_ <=? maxInt64) with false by (symmetry; apply Z.leb_gt; lia).
    reflexivity.
Qed.

Lemma Atoi_digits g :
  digits g -> fst (Atoi g) = Z.min (digits_value g) maxInt64.
Proof.
  intros Hg. rewrite (Atoi_digits_full g Hg).
  destruct (digits_value g <=? maxInt64) eqn:E;
    [apply Z.leb_le in E | apply Z.leb_gt in E]; cbn [fst]; lia.
Qed.

(** ** Passive-mode decoder *)

Lemma span_digits_spec s :
  s = fst (span_digits s) ++ snd (span_digits s) /\
  all_digits (fst (span_digits s)) /\ no_digit_ahead (snd (span_digits s)).
Proof.
  induction s as [| c t IH]; simpl.
  - repeat split. constructor.
  - destruct (is_digit c) eqn:Hc.
    + destruct (span_digits t) as [d r]. simpl in *.
      destruct IH as (-> & Hd & Hr). repeat split; auto.
      constructor; assumption.
    + simpl. repeat split; auto. constructor.
Qed.

Lemma span_digits_app d : forall r,
  all_digits d ->
  span_digits (d ++ r) = (d ++ fst (span_digits r), snd (span_digits r)).
Proof.
  induction d as [| c t IH]; intros r Hd.
  - simpl. now destruct (span_digits r).
  - inversion Hd as [| ? ? Hc Ht]; subst. simpl. rewrite Hc, IH by exact Ht.
    reflexivity.
Qed.

Lemma span_digits_stop r : no_digit_ahead r -> span_digits r = ([], r).
Proof.
  destruct r as [| c t]; simpl; [reflexivity | intros ->; reflexivity].
Qed.

Lemma group_inv s d r :
  group s = Some (d, r) -> digits d /\ s = d ++ r /\ no_digit_ahead r.
Proof.
  unfold group. pose proof (span_digits_spec s) as (Hs & Hd & Hr).
  destruct (span_digits s) as [d' r']. simpl in *.
  destruct d' as [| c t]; [discriminate |].
  intros [= <- <-]. repeat split; auto. discriminate.
Qed.

Lemma group_app d r :
  digits d -> group (d ++ r) = Some (d ++ fst (span_digits r), snd (span_digits r)).
Proof.
  intros [Hne Hd]. unfold group. rewrite span_digits_app by exact Hd.
  destruct d; [congruence | reflexivity].
Qed.

Lemma group_comma_inv s d r :
  group_comma s = Some (d, r) -> digits d /\ s = d ++ lit "," ++ r.
Proof.
  unfold group_comma. destruct (group s) as [[d' [| c r']] |] eqn:G; try discriminate.
  destruct (Ascii.eqb_spec c ",") as [-> | _]; [| discriminate].
  intros [= <- <-]. apply group_inv in G as (Hd & -> & _). split; [exact Hd | reflexivity].
Qed.

Lemma group_comma_app d r :
  digits d -> group_comma (d ++ lit "," ++ r) = Some (d, r).
Proof.
  intros Hd. unfold group_comma. rewrite group_app by exact Hd.
  rewrite span_digits_stop by reflexivity. cbn [fst snd lit list_ascii_of_string app].
  rewrite app_nil_r. reflexivity.
Qed.

Lemma six_groups_app h1 h2 h3 h4 p1 p2 post :
  six_groups h1 h2 h3 h4 p1 p2 ++ post =
  h1 ++ lit "," ++ h2 ++ lit "," ++ h3 ++ lit "," ++ h4 ++ lit "," ++ p1 ++ lit "," ++ p2 ++ post.
Proof. unfold six_groups. now rewrite <- !app_assoc. Qed.

(** What [match_here] finds at the head of six groups. *)
Lemma match_here_groups h1 h2 h3 h4 p1 p2 post :
  digits h1 -> digits h2 -> digits h3 -> digits h4 -> digits p1 -> digits p2 ->
  match_here (six_groups h1 h2 h3 h4 p1 p2 ++ post) =
    Some (six_groups h1 h2 h3 h4 p1 (p2 ++ fst (span_digits post)),
          p1 ++ lit "," ++ p2 ++ fst (span_digits post)).
Proof.
  intros H1 H2 H3 H4 H5 H6. rewrite six_groups_app. unfold match_here.
  rewrite !group_comma_app by assumption. rewrite group_app by assumption.
  reflexivity.
Qed.

Lemma match_here_inv s m0 m1 :
  match_here s = Some (m0, m1) ->
  exists h1 h2 h3 h4 p1 p2 post,
    digits h1 /\ digits h2 /\ digits h3 /\ digits h4 /\ digits p1 /\ digits p2 /\
    no_digit_ahead post /\
    s = six_groups h1 h2 h3 h4 p1 p2 ++ post /\
    m0 = six_groups h1 h2 h3 h4 p1 p2 /\ m1 = p1 ++ lit "," ++ p2.
Proof.
  unfold match_here.
  destruct (group_comma s) as [[h1 s1] |] eqn:G1; [| discriminate].
  destruct (group_comma s1) as [[h2 s2] |] eqn:G2; [| discriminate].
  destruct (group_comma s2) as [[h3 s3] |] eqn:G3; [| discriminate].
  destruct (group_comma s3) as [[h4 s4] |] eqn:G4; [| discriminate].
  destruct (group_comma s4) as [[p1 s5] |] eqn:G5; [| discriminate].
  destruct (group s5) as [[p2 post] |] eqn:G6; [| discriminate].
  intros [= <- <-].
  apply group_comma_inv in G1 as (H1 & ->), G2 as (H2 & ->), G3 as (H3 & ->),
    G4 as (H4 & ->), G5 as (H5 & ->).
  apply group_inv in G6 as (H6 & -> & Hpost).
  exists h1, h2, h3, h4, p1, p2, post. repeat split; try assumption; try apply H1;
    try apply H2; try apply H3; try apply H4; try apply H5; try apply H6.
  now rewrite six_groups_app.
Qed.

Lemma match_here_complete s :
  starts_with_groups s -> match_here s <> None.
Proof.
  intros (h1 & h2 & h3 & h4 & p1 & p2 & post & H1 & H2 & H3 & H4 & H5 & H6 & ->).
  rewrite match_here_groups by assumption. discriminate.
Qed.

Lemma match_here_sound s m0 m1 :
  match_here s = Some (m0, m1) -> starts_with_groups s.
Proof.
  intros H. apply match_here_inv in H
    as (h1 & h2 & h3 & h4 & p1 & p2 & post & H1 & H2 & H3 & H4 & H5 & H6 & _ & -> & _).
  exists h1, h2, h3, h4, p1, p2, post. repeat split; try assumption;
    try apply H1; try apply H2; try apply H3; try apply H4; try apply H5; try apply H6.
Qed.

Lemma FindStringSubmatch_here line m0 m1 :
  match_here line = Some (m0, m1) -> FindStringSubmatch line = [m0; m1].
Proof.
  intros H. destruct line; [discriminate H |].
  cbn [FindStringSubmatch]. now rewrite H.
Qed.

Lemma FindStringSubmatch_skip c line :
  match_here (c :: line) = None ->
  FindStringSubmatch (c :: line) = FindStringSubmatch line.
Proof. intros H. cbn [FindStringSubmatch]. now rewrite H. Qed.

(** The search returns the match that [port_match] describes. *)
Lemma FindStringSubmatch_match pre : forall body h1 h2 h3 h4 p1 p2 post,
  port_match body pre h1 h2 h3 h4 p1 p2 post ->
  FindStringSubmatch body = [six_groups h1 h2 h3 h4 p1 p2; p1 ++ lit "," ++ p2].
Proof.
  induction pre as [| c pre IH]; intros body h1 h2 h3 h4 p1 p2 post [Hs H1 H2 H3 H4 H5 H6 Hg Hl].
  - simpl in Hs. subst body. apply FindStringSubmatch_here.
    rewrite match_here_groups by assumption.
    rewrite span_digits_stop by exact Hg. cbn [fst]. now rewrite app_nil_r.
  - simpl in Hs. subst body.
    rewrite FindStringSubmatch_skip.
    + apply (IH _ h1 h2 h3 h4 p1 p2 post). constructor; try assumption; [reflexivity |].
      intros pre' rest Hsplit Hlen. apply (Hl (c :: pre') rest).
      * simpl. now rewrite Hsplit.
      * simpl. lia.
    + destruct (match_here _) as [[m0 m1] |] eqn:E; [| reflexivity].
      exfalso. apply match_here_sound in E. revert E. apply (Hl [] _ eq_refl). simpl. lia.
Qed.

(** Either the search fails and [body] has no six groups anywhere, or it
    returns a match that [port_match] describes. *)
Lemma FindStringSubmatch_spec body :
  (FindStringSubmatch body = [] /\ ~ has_port_form body) \/
  (exists pre h1 h2 h3 h4 p1 p2 post, port_match body pre h1 h2 h3 h4 p1 p2 post).
Proof.
  induction body as [| c t IH].
  - left. split; [reflexivity |].
    intros (pre & rest & Hs & Hr). symmetry in Hs. apply app_eq_nil in Hs as [-> ->].
    now apply match_here_complete in Hr.
  - destruct (match_here (c :: t)) as [[m0 m1] |] eqn:E.
    + right. apply match_here_inv in E
        as (h1 & h2 & h3 & h4 & p1 & p2 & post & H1 & H2 & H3 & H4 & H5 & H6 & Hg & Hs & _).
      exists [], h1, h2, h3, h4, p1, p2, post. constructor; try assumption.
      simpl. intros ? ? _ Hlen. inversion Hlen.
    + destruct IH as [[Hnil Hno] | (pre & h1 & h2 & h3 & h4 & p1 & p2 & post & Hm)].
      * left. split; [now rewrite FindStringSubmatch_skip |].
        intros (pre & rest & Hs & Hr). destruct pre as [| c' pre].
        -- simpl in Hs. subst rest. now apply match_here_complete in Hr.
        -- simpl in Hs. injection Hs as _ Hs. apply Hno. now exists pre, rest.
      * right. destruct Hm as [Hs H1 H2 H3 H4 H5 H6 Hg Hl].
        exists (c :: pre), h1, h2, h3, h4, p1, p2, post. constructor; try assumption.
        -- simpl. now rewrite Hs.
        -- intros pre' rest Hsplit Hlen. destruct pre' as [| c' pre'].
           ++ simpl in Hsplit. subst rest. intros Hr. now apply match_here_complete in Hr.
           ++ simpl in Hsplit. injection Hsplit as _ Hsplit.
              apply (Hl pre' rest Hsplit). simpl in Hlen. lia.
Qed.

Lemma port_match_form body pre h1 h2 h3 h4 p1 p2 post :
  port_match body pre h1 h2 h3 h4 p1 p2 post -> has_port_form body.
Proof.
  intros [Hs H1 H2 H3 H4 H5 H6 _ _].
  exists pre, (six_groups h1 h2 h3 h4 p1 p2 ++ post). split; [exact Hs |].
  now exists h1, h2, h3, h4, p1, p2, post.
Qed.

Lemma Split_one g : all_digits g -> Split g "," = [g].
Proof.
  induction g as [| c t IH]; intros Hg; [reflexivity |].
  inversion Hg as [| ? ? Hc Ht]; subst. simpl.
  rewrite (is_digit_neq c "," Hc eq_refl), IH by exact Ht. reflexivity.
Qed.

Lemma Split_two g1 g2 :
  all_digits g1 -> all_digits g2 -> Split (g1 ++ lit "," ++ g2) "," = [g1; g2].
Proof.
  intros H1 H2. induction g1 as [| c t IH].
  - simpl. now rewrite Split_one.
  - inversion H1 as [| ? ? Hc Ht]; subst. simpl.
    rewrite (is_digit_neq c "," Hc eq_refl). simpl in IH. now rewrite IH.
Qed.

(** The port the decoder computes from the match: the two parsed groups
    combined in 64-bit arithmetic, without any range check and without an
    error. *)
Lemma extractDataPort_match body pre h1 h2 h3 h4 p1 p2 post :
  port_match body pre h1 h2 h3 h4 p1 p2 post ->
  extractDataPort body = (to_uint (fst (Atoi p1) * 256 + fst (Atoi p2)), None).
Proof.
  intros Hm. unfold extractDataPort.
  rewrite (FindStringSubmatch_match _ _ _ _ _ _ _ _ _ Hm).
  destruct Hm as [_ _ _ _ _ [_ H5] [_ H6] _ _].
  cbn [length Nat.eqb nth]. rewrite Split_two by assumption. cbn [nth].
  destruct (Atoi p1) as [a ea], (Atoi p2) as [b eb]. cbn [fst].
  now rewrite to_uint_to_int, to_uint_to_int_add.
Qed.

Lemma extractDataPort_no_form body :
  ~ has_port_form body ->
  extractDataPort body =
    (0, Some (Errorf (lit "Cannot find data port in server output: " ++ body))).
Proof.
  intros Hno. unfold extractDataPort.
  destruct (FindStringSubmatch_spec body)
    as [[-> _] | (pre & h1 & h2 & h3 & h4 & p1 & p2 & post & Hm)]; [reflexivity |].
  exfalso. apply Hno. eapply port_match_form. exact Hm.
Qed.

Lemma no_match_no_form body :
  FindStringSubmatch body = [] -> ~ has_port_form body.
Proof.
  intros Hnil.
  destruct (FindStringSubmatch_spec body)
    as [[_ Hno] | (pre & h1 & h2 & h3 & h4 & p1 & p2 & post & Hm)]; [exact Hno |].
  apply FindStringSubmatch_match in Hm. congruence.
Qed.

Lemma digits_lit_intro g :
  g <> [] -> forallb is_digit g = true -> digits g.
Proof.
  intros Hne Hall. split; [exact Hne |].
  unfold all_digits. rewrite Forall_forall. now apply forallb_forall.
Qed.

(** A match at the very start of the body is the leftmost one. *)
Lemma port_match_at_start h1 h2 h3 h4 p1 p2 post :
  digits h1 -> digits h2 -> digits h3 -> digits h4 -> digits p1 -> digits p2 ->
  no_digit_ahead post ->
  port_match (six_groups h1 h2 h3 h4 p1 p2 ++ post) [] h1 h2 h3 h4 p1 p2 post.
Proof.
  intros. constructor; try assumption; [reflexivity |].
  simpl. intros ? ? _ Hlen. inversion Hlen.
Qed.

(** C3, as the code has it.  A body that contains six comma-separated groups
    of digits is decoded without error from the fifth and sixth group of the
    leftmost match: each group counts for its value, capped at the largest
    [int], and [p1*256 + p2] is taken modulo 2^64; it is exactly
    [p1*256 + p2] whenever that fits.  The body of the test decodes to 52718.
    A body with no such substring is an error. *)
Theorem extractDataPort_spec :
  (forall body, has_port_form body ->
     exists pre h1 h2 h3 h4 p1 p2 post,
       port_match body pre h1 h2 h3 h4 p1 p2 post /\
       extractDataPort body =
         (to_uint (Z.min (digits_value p1) maxInt64 * 256 + Z.min (digits_value p2) maxInt64),
          None) /\
       (digits_value p2 <= maxInt64 ->
        digits_value p1 * 256 + digits_value p2 < 2 ^ 64 ->
        extractDataPort body = (digits_value p1 * 256 + digits_value p2, None))) /\
  (forall body, ~ has_port_form body ->
     extractDataPort body =
       (0, Some (Errorf (lit "Cannot find data port in server output: " ++ body)))) /\
  extractDataPort (lit "227 Entering Passive Mode (127,0,0,1,205,238).") = (52718, None).
Proof.
  split; [| split; [exact extractDataPort_no_form | reflexivity]].
  intros body Hform.
  destruct (FindStringSubmatch_spec body)
    as [[_ Hno] | (pre & h1 & h2 & h3 & h4 & p1 & p2 & post & Hm)]; [contradiction |].
  exists pre, h1, h2, h3, h4, p1, p2, post.
  pose proof (extractDataPort_match _ _ _ _ _ _ _ _ _ Hm) as Hport.
  pose proof (pm_p1 _ _ _ _ _ _ _ _ _ Hm) as H5.
  pose proof (pm_p2 _ _ _ _ _ _ _ _ _ Hm) as H6.
  rewrite (Atoi_digits p1 H5), (Atoi_digits p2 H6) in Hport.
  split; [exact Hm | split; [exact Hport |]].
  intros Hp2 Hfit. rewrite Hport.
  assert (0 <= digits_value p1) by (apply (digits_from_ge p1 0); [lia | apply H5]).
  assert (0 <= digits_value p2) by (apply (digits_from_ge p2 0); [lia | apply H6]).
  assert (Hint : maxInt64 = 9223372036854775807) by reflexivity.
  assert (H64 : 2 ^ 64 = 18446744073709551616) by reflexivity.
  rewrite !Z.min_l by lia. rewrite to_uint_small by lia. reflexivity.
Qed.

Lemma extractDataPort_spec_witness :
  extractDataPort (lit "500 Illegal PORT command.") =
    (0, Some (Errorf (lit "Cannot find data port in server output: "
                        ++ lit "500 Illegal PORT command."))) /\
  exists port, extractDataPort (lit "(10,0,0,1,4,1)") = (port, None).
Proof.
  split.
  - apply (proj1 (proj2 extractDataPort_spec)). apply no_match_no_form. reflexivity.
  - destruct (proj1 extractDataPort_spec (lit "(10,0,0,1,4,1)"))
      as (pre & h1 & h2 & h3 & h4 & p1 & p2 & post & _ & Hport & _).
    + exists (lit "("), (lit "10,0,0,1,4,1)"). split; [reflexivity |].
      exists (lit "10"), (lit "0"), (lit "0"), (lit "1"), (lit "4"), (lit "1"), (lit ")").
      repeat split; try discriminate; try (repeat constructor).
    + eexists. exact Hport.
Defined.

(** C3 as it is stated fails: the groups of this body are 2^56 and 7, the
    claimed port is 2^56 * 256 + 7, and the decoder returns 7. *)
Lemma extractDataPort_not_exact :
  let p1 := lit "72057594037927936" in
  let p2 := lit "7" in
  let body := six_groups (lit "0") (lit "0") (lit "0") (lit "0") p1 p2 ++ [] in
  body = lit "0,0,0,0,72057594037927936,7" /\
  port_match body [] (lit "0") (lit "0") (lit "0") (lit "0") p1 p2 [] /\
  extractDataPort body = (7, None) /\
  extractDataPort body <> (digits_value p1 * 256 + digits_value p2, None).
Proof.
  cbv zeta. split; [reflexivity |].
  split; [| split; [vm_compute; reflexivity | vm_compute; discriminate]].
  apply port_match_at_start; try (apply digits_lit_intro; [discriminate | reflexivity]).
  exact I.
Qed.

(** C10, as the code has it.  The decoder checks no range: the port is
    computed from the two integers [Atoi] returns for the last two groups of
    the match, whose errors are dropped; [Atoi] returns the value of the
    group, or the largest [int] when the value does not fit; the sum is taken
    modulo 2^64.  A fifth group above 255 whose port fits 64 bits gives that
    port, above 65535, and no error. *)
Theorem extractDataPort_no_range_check body pre h1 h2 h3 h4 p1 p2 post :
  port_match body pre h1 h2 h3 h4 p1 p2 post ->
  extractDataPort body = (to_uint (fst (Atoi p1) * 256 + fst (Atoi p2)), None) /\
  fst (Atoi p1) = Z.min (digits_value p1) maxInt64 /\
  fst (Atoi p2) = Z.min (digits_value p2) maxInt64 /\
  (255 < digits_value p1 ->
   digits_value p2 <= maxInt64 ->
   digits_value p1 * 256 + digits_value p2 < 2 ^ 64 ->
   extractDataPort body = (digits_value p1 * 256 + digits_value p2, None) /\
   65535 < digits_value p1 * 256 + digits_value p2).
Proof.
  intros Hm.
  pose proof (extractDataPort_match _ _ _ _ _ _ _ _ _ Hm) as Hport.
  pose proof (pm_p1 _ _ _ _ _ _ _ _ _ Hm) as H5.
  pose proof (pm_p2 _ _ _ _ _ _ _ _ _ Hm) as H6.
  repeat split; try exact Hport; try (now apply Atoi_digits).
  - rewrite Hport, (Atoi_digits p1 H5), (Atoi_digits p2 H6).
    assert (0 <= digits_value p2) by (apply (digits_from_ge p2 0); [lia | apply H6]).
    assert (Hint : maxInt64 = 9223372036854775807) by reflexivity.
    assert (H64 : 2 ^ 64 = 18446744073709551616) by reflexivity.
    rewrite !Z.min_l by lia. rewrite to_uint_small by lia. reflexivity.
  - assert (0 <= digits_value p2) by (apply (digits_from_ge p2 0); [lia | apply H6]).
    lia.
Qed.

Lemma extractDataPort_no_range_check_witness :
  extractDataPort (lit "10,0,0,1,300,7") = (76807, None) /\ 65535 < 76807.
Proof.
  destruct (extractDataPort_no_range_check
              (six_groups (lit "10") (lit "0") (lit "0") (lit "1") (lit "300") (lit "7") ++ [])
              [] (lit "10") (lit "0") (lit "0") (lit "1") (lit "300") (lit "7") [])
    as (_ & _ & _ & H).
  - apply port_match_at_start; try (apply digits_lit_intro; [discriminate | reflexivity]).
    exact I.
  - apply H; [reflexivity | discriminate | reflexivity].
Defined.

(** C10 as it is stated fails: the fifth group of this body does not fit an
    [int]; counted for 0 it would give port 1, the decoder returns
    2^64 - 255. *)
Lemma extractDataPort_failed_parse_not_zero :
  let p1 := lit "99999999999999999999" in
  let p2 := lit "1" in
  let body := six_groups (lit "1") (lit "2") (lit "3") (lit "4") p1 p2 ++ [] in
  body = lit "1,2,3,4,99999999999999999999,1" /\
  port_match body [] (lit "1") (lit "2") (lit "3") (lit "4") p1 p2 [] /\
  Atoi p1 = (maxInt64, Some (NumError (lit "Atoi") p1 ErrRange)) /\
  extractDataPort body = (18446744073709551361, None) /\
  extractDataPort body <> (octet_or_zero p1 * 256 + octet_or_zero p2, None).
Proof.
  cbv zeta. split; [reflexivity |].
  split; [| split; [vm_compute; reflexivity
                   | split; [vm_compute; reflexivity | vm_compute; discriminate]]].
  apply port_match_at_start; try (apply digits_lit_intro; [discriminate | reflexivity]).
  exact I.
Qed.

(** ** Session construction *)

Lemma LastIndex_spec s c :
  (LastIndex s c = -1 /\ forall j, nth_error s j <> Some c) \/
  (exists i, LastIndex s c = Z.of_nat i /\ nth_error s i = Some c /\
             forall j, nth_error s j = Some c -> (j <= i)%nat).
Proof.
  induction s as [| x t IH].
  - left. split; [reflexivity |]. intros [| j]; discriminate.
  - cbn [LastIndex].
    destruct IH as [[Hm Hno] | (i & Hi & Hnth & Hlast)].
    + rewrite Hm. cbn [Z.leb Z.compare].
      destruct (Ascii.eqb_spec x c) as [-> | Hne].
      * right. exists 0%nat. repeat split.
        intros [| j] Hj; [lia |]. simpl in Hj. now apply Hno in Hj.
      * left. split; [reflexivity |].
        intros [| j]; simpl; [congruence | apply Hno].
    + rewrite Hi. replace (0 <=? Z.of_nat i) with true by (symmetry; apply Z.leb_le; lia).
      right. exists (S i). repeat split; [lia | exact Hnth |].
      intros [| j] Hj; [lia |]. simpl in Hj. apply Hlast in Hj. lia.
Qed.

Lemma hasPort_colon_port s : hasPort s = true <-> colon_port s.
Proof.
  unfold hasPort, colon_port. rewrite Z.ltb_lt.
  destruct (LastIndex_spec s ":") as [[Hc Hnc] | (i & Hi & Hnth & Hlast)];
    destruct (LastIndex_spec s "]") as [[Hb Hnb] | (k & Hk & Hkth & Hklast)];
    rewrite ?Hc, ?Hb, ?Hi, ?Hk.
  - split; [lia |]. intros (i & Hi & _). now apply Hnc in Hi.
  - split; [lia |]. intros (i & Hi & _). now apply Hnc in Hi.
  - split; [| lia]. intros _. exists i. split; [exact Hnth |].
    intros j Hj. now apply Hnb in Hj.
  - split.
    + intros Hlt. exists i. split; [exact Hnth |].
      intros j Hj. apply Hklast in Hj. lia.
    + intros (i' & Hi' & Hbefore). apply Hlast in Hi'.
      apply Hbefore in Hkth. lia.
Qed.

(** C8. A host that is empty or has no colon-delimited port makes [Dial]
    return a validation error, and nothing is dialled: the world is as it
    was. *)
Theorem Dial_rejects_host_without_port host w :
  host = [] \/ ~ colon_port host ->
  exists e, ValidationError e /\ Dial host w = (inl e, w).
Proof.
  intros H. unfold Dial.
  destruct (str_eqb host []) eqn:E.
  - eexists. split; [| reflexivity]. now exists (lit "Host can not be blank!").
  - destruct H as [-> | Hno]; [discriminate E |].
    destruct (hasPort host) eqn:Hp.
    + exfalso. apply Hno. now apply hasPort_colon_port.
    + eexists. split; [| reflexivity]. now exists (lit "Host must have a port! e.g. host:21").
Qed.

Lemma not_colon_port_of_hasPort s : hasPort s = false -> ~ colon_port s.
Proof. intros H Hc. apply hasPort_colon_port in Hc. congruence. Qed.

(** ** Blank credentials *)

(** C9. [Login] with a blank user, or with a blank password, fails with a
    validation error, and the session is as it was: no command has been
    written to the control connection. *)
Theorem Login_blank_rejected :
  (forall c password,
      exists e, ValidationError e /\ Login c [] password = Some (Some e, c)) /\
  (forall c user,
      exists e, ValidationError e /\ Login c user [] = Some (Some e, c)).
Proof.
  split.
  - intros c password. eexists. split; [| reflexivity].
    now exists (lit "User can not be blank!").
  - intros c user. unfold Login. destruct (str_eqb user []).
    + eexists. split; [| reflexivity]. now exists (lit "User can not be blank!").
    + eexists. split; [| reflexivity]. now exists (lit "Password can not be blank!").
Qed.

(** ** Response reader *)

Lemma unread_app l1 l2 : unread (l1 ++ l2) = unread l1 ++ unread l2.
Proof.
  induction l1 as [| [data | e] t IH]; simpl; [reflexivity | | exact IH].
  now rewrite IH, app_assoc.
Qed.

Lemma unread_chunks cs : unread (map Chunk cs) = concat cs.
Proof. induction cs as [| c t IH]; simpl; [reflexivity | now rewrite IH]. Qed.

Lemma set_inbox_id_eq ch l : inbox ch = l -> ch = set_inbox ch l.
Proof. intros <-. now destruct ch. Qed.

Lemma inbox_set_inbox ch l : inbox (set_inbox ch l) = l.
Proof. reflexivity. Qed.

Lemma cut_none delim s : ~ In delim s -> cut delim s = None.
Proof.
  induction s as [| c t IH]; intros Hno; [reflexivity |].
  simpl. destruct (Ascii.eqb_spec c delim) as [-> | _].
  - exfalso. apply Hno. now left.
  - rewrite IH; [reflexivity |]. intros Hin. apply Hno. now right.
Qed.

Lemma cut_line delim body rest :
  ~ In delim body -> cut delim (body ++ delim :: rest) = Some (body ++ [delim], rest).
Proof.
  induction body as [| c t IH]; intros Hno; simpl.
  - now rewrite Ascii.eqb_refl.
  - destruct (Ascii.eqb_spec c delim) as [-> | _].
    + exfalso. apply Hno. now left.
    + rewrite IH; [reflexivity |]. intros Hin. apply Hno. now right.
Qed.

(** Where the first newline of [b ++ x] falls: inside [b], or inside [x]. *)
Lemma split_line (b : str) : forall x body tail,
  b ++ x = body ++ LF :: tail -> ~ In LF body ->
  (exists b', b = body ++ LF :: b' /\ tail = b' ++ x) \/
  (exists body', body = b ++ body' /\ x = body' ++ LF :: tail /\ ~ In LF b).
Proof.
  induction b as [| c t IH]; intros x body tail Heq Hno.
  - right. exists body. simpl in Heq. repeat split; auto.
  - destruct body as [| c' body].
    + left. simpl in Heq. injection Heq as -> Heq. exists t. now split.
    + simpl in Heq. injection Heq as <- Heq.
      destruct (IH x body tail Heq) as [(b' & -> & ->) | (body' & -> & -> & Hb)].
      * intros Hin. apply Hno. now right.
      * left. exists b'. now split.
      * right. exists body'. repeat split; auto.
        intros [Hc | Hin]; [apply Hno; now left | contradiction].
Qed.

Lemma fill_tries_S i b :
  fill_tries (S i) b =
    let '(data, e, ch) := conn_Read (defaultBufSize - length (buf b)) (rd b) in
    match e with
    | Some e => mkReader ch (buf b ++ data) (Some e)
    | None =>
        if (0 <? length data)%nat then mkReader ch (buf b ++ data) (rerr b)
        else fill_tries i (mkReader ch (buf b ++ data) (rerr b))
    end.
Proof. reflexivity. Qed.

(** One [fill] on a reader whose connection has a non-empty chunk next: the
    reader takes the chunk, or as much of it as the buffer has room for. *)
Lemma fill_chunk b c rest :
  rerr b = None -> inbox (rd b) = Chunk c :: rest -> c <> [] ->
  (length (buf b) < defaultBufSize)%nat ->
  exists data left_,
    c = data ++ left_ /\ data <> [] /\
    fill b = mkReader (set_inbox (rd b) (match left_ with
                                         | [] => rest
                                         | _ => Chunk left_ :: rest
                                         end))
                      (buf b ++ data) None.
Proof.
  intros Herr Hin Hc Hroom. unfold fill, maxConsecutiveEmptyReads.
  change 100%nat with (S 99). rewrite fill_tries_S.
  unfold conn_Read. rewrite Hin, Herr.
  destruct (length c <=? defaultBufSize - length (buf b))%nat eqn:E.
  - exists c, []. rewrite app_nil_r. repeat split; auto.
    destruct c; [congruence | reflexivity].
  - apply Nat.leb_gt in E.
    exists (firstn (defaultBufSize - length (buf b)) c),
           (skipn (defaultBufSize - length (buf b)) c).
    rewrite firstn_skipn. repeat split.
    + intros H0. apply (f_equal (@length ascii)) in H0.
      rewrite length_firstn in H0. cbn [length] in H0. lia.
    + assert (Hlen : (0 < length (firstn (defaultBufSize - length (buf b)) c))%nat)
        by (rewrite length_firstn; lia).
      apply Nat.ltb_lt in Hlen. rewrite Hlen.
      destruct (skipn _ c) eqn:Hs; [| reflexivity].
      apply (f_equal (@length ascii)) in Hs. rewrite length_skipn in Hs.
      cbn [length] in Hs. lia.
Qed.

(** [ReadString] returns the next line, whatever the chunks it arrives in,
    and leaves the reader before the bytes that follow the line. *)
Lemma ReadString_loop_line fuel : forall b ch cs rest body tail acc,
  stands b ch cs rest (body ++ LF :: tail) -> ~ In LF body ->
  (2 * length (concat cs) + Nat.min 1 (length (buf b)) < fuel)%nat ->
  exists b' cs',
    ReadString_loop fuel LF acc b = Some (acc ++ body ++ [LF], None, b') /\
    stands b' ch cs' rest tail.
Proof.
  induction fuel as [| fuel IH];
    intros b ch cs rest body tail acc (Herr & Hne & Hrd & Hbuf) Hno Hfuel; [lia |].
  cbn [ReadString_loop].
  destruct (split_line (buf b) (concat cs) body tail Hbuf Hno)
    as [(b1 & Hb & Ht) | (body' & Hbody & Hcs & Hnb)].
  - rewrite Hb, cut_line by assumption.
    exists (mkReader (rd b) b1 (rerr b)), cs. split; [reflexivity |].
    repeat split; auto.
  - rewrite cut_none by assumption. rewrite Herr.
    assert (Hno' : ~ In LF body').
    { intros Hin. apply Hno. rewrite Hbody. apply in_or_app. now right. }
    destruct (defaultBufSize <=? length (buf b))%nat eqn:E;
      [apply Nat.leb_le in E | apply Nat.leb_gt in E].
    + destruct (IH (mkReader (rd b) [] None) ch cs rest body' tail (acc ++ buf b))
        as (b' & cs' & Hrs & Hst).
      * repeat split; auto.
      * exact Hno'.
      * cbn [buf length]. unfold defaultBufSize in E. lia.
      * exists b', cs'. rewrite Hrs. split; [| exact Hst].
        rewrite Hbody, <- !app_assoc. reflexivity.
    + destruct cs as [| c cs0]; [simpl in Hcs; now destruct body' |].
      inversion Hne as [| ? ? Hc Hne0]; subst.
      assert (Hin : inbox (rd b) = Chunk c :: map Chunk cs0 ++ rest)
        by (rewrite Hrd; reflexivity).
      destruct (fill_chunk b c _ Herr Hin Hc E) as (data & left_ & Hsplit & Hdata & Hfill).
      rewrite Hfill.
      assert (Hlen : (length (concat (c :: cs0)) =
                      length data + length left_ + length (concat cs0))%nat)
        by (cbn [concat]; rewrite Hsplit, !length_app; lia).
      assert (Hpos : (0 < length data)%nat) by (destruct data; [congruence | simpl; lia]).
      apply IH with (cs := match left_ with [] => cs0 | _ => left_ :: cs0 end).
      * repeat split.
        -- destruct left_; [exact Hne0 |]. constructor; [discriminate | exact Hne0].
        -- cbn [rd]. rewrite Hrd. destruct left_; reflexivity.
        -- cbn [buf]. rewrite <- Hbuf. cbn [concat]. rewrite Hsplit.
           destruct left_; cbn [concat]; now rewrite ?app_nil_r, <- ?app_assoc.
      * exact Hno.
      * cbn [buf]. destruct left_; cbn [concat length] in *; rewrite ?length_app in *;
          cbn [length] in *; lia.
Qed.

Lemma code_here_MatchString l : code_here l = true -> MatchString l = true.
Proof. destruct l as [| c t]; [discriminate |]. intros H. cbn [MatchString]. now rewrite H. Qed.

(** A matching line has at least four bytes, so [response[0:3]] is in range. *)
Lemma MatchString_length l : MatchString l = true -> (4 <= length l)%nat.
Proof.
  induction l as [| c t IH]; [discriminate |].
  cbn [MatchString]. intros H. apply orb_true_iff in H as [H | H].
  - destruct t as [| ? [| ? [| ? ?]]]; try discriminate H. simpl. lia.
  - apply IH in H. simpl. lia.
Qed.

Lemma lines_length lines :
  Forall continuation lines -> (length lines <= length (concat lines))%nat.
Proof.
  induction 1 as [| l t [(body & -> & _) _] _ IH]; [simpl; lia |].
  cbn [concat length]. rewrite !length_app. simpl. lia.
Qed.

Lemma stands_budget b ch cs rest s :
  stands b ch cs rest s ->
  (2 * length (concat cs) + Nat.min 1 (length (buf b)) < budget b)%nat.
Proof.
  intros (_ & _ & Hrd & _). unfold budget, pending. rewrite Hrd, inbox_set_inbox.
  rewrite unread_app, unread_chunks, length_app. lia.
Qed.

Lemma ReadString_line b ch cs rest body tail :
  stands b ch cs rest ((body ++ [LF]) ++ tail) -> ~ In LF body ->
  exists b' cs',
    ReadString b LF = Some (body ++ [LF], None, b') /\ stands b' ch cs' rest tail.
Proof.
  intros Hst Hno. rewrite <- app_assoc in Hst.
  destruct (ReadString_loop_line (budget b) b ch cs rest body tail [] Hst Hno)
    as (b' & cs' & Hrs & Hst').
  - eapply stands_budget. exact Hst.
  - exists b', cs'. split; [exact Hrs | exact Hst'].
Qed.

(** The loop of [Cmd] reads the continuation lines and the terminal line,
    and stops there. *)
Lemma Cmd_loop_reply lines : forall fuel b ch cs rest term tail response,
  Forall continuation lines -> is_line term -> MatchString term = true ->
  stands b ch cs rest (concat lines ++ term ++ tail) ->
  (length lines < fuel)%nat ->
  exists b' cs',
    Cmd_loop fuel response b = Some (reply_result (response ++ concat lines ++ term), b') /\
    stands b' ch cs' rest tail.
Proof.
  induction lines as [| l lines IH];
    intros fuel b ch cs rest term tail response Hlines Hterm Hmatch Hst Hfuel;
    (destruct fuel as [| fuel]; [simpl in Hfuel; lia |]); cbn [Cmd_loop].
  - destruct Hterm as (body & -> & Hno). cbn [concat app] in Hst.
    destruct (ReadString_line b ch cs rest body tail Hst Hno) as (b' & cs' & -> & Hst').
    rewrite Hmatch. exists b', cs'. split; [| exact Hst'].
    unfold reply_result. cbn [concat app].
    now destruct (Atoi _) as [t [err |]].
  - inversion Hlines as [| ? ? [(body & -> & Hno) Hcont] Hrest]; subst.
    cbn [concat] in Hst. rewrite <- app_assoc in Hst.
    destruct (ReadString_line b ch cs rest body _ Hst Hno) as (b' & cs' & -> & Hst').
    rewrite Hcont.
    destruct (IH fuel b' ch cs' rest term tail (response ++ body ++ [LF])
                Hrest Hterm Hmatch Hst') as (b'' & cs'' & -> & Hst''); [simpl in Hfuel; lia |].
    exists b'', cs''. split; [| exact Hst''].
    cbn [concat]. now rewrite <- !app_assoc.
Qed.

Lemma conn_Write_ok p ch :
  write_ok ch ->
  conn_Write p ch =
    (None, mkChannel (inbox ch) (tl (wfaults ch)) (outbox ch ++ p) (closed ch)
                     (close_err ch) (deadline ch)).
Proof.
  unfold write_ok, conn_Write. destruct (wfaults ch) as [| [e |] t]; [reflexivity | | reflexivity].
  intros [].
Qed.

(** [Cmd] on a reply of continuation lines and a terminal line, delivered in
    the chunks [cs] together with the bytes [extra] that follow the reply:
    the response is the reply, and what the buffered reader had taken of
    [extra] is dropped. *)
Lemma Cmd_reply c command arg lines term cs rest extra :
  write_ok (control c) ->
  inbox (control c) = map Chunk cs ++ rest -> nonempty_chunks cs ->
  concat cs = concat lines ++ term ++ extra ->
  Forall continuation lines -> is_line term -> MatchString term = true ->
  exists dropped cs',
    Cmd c command arg =
      Some (reply_result (concat lines ++ term),
            after_Cmd c command arg (map Chunk cs' ++ rest)) /\
    nonempty_chunks cs' /\ extra = dropped ++ concat cs'.
Proof.
  intros Hw Hin Hne Hcs Hlines Hterm Hmatch. unfold Cmd.
  rewrite conn_Write_ok by exact Hw.
  set (ch := mkChannel _ _ _ _ _ _).
  destruct (Cmd_loop_reply lines (S (pending (inbox ch))) (NewReader ch) ch cs rest
              term extra [] Hlines Hterm Hmatch) as (b' & cs' & -> & Hst).
  - repeat split; auto. cbn [NewReader rd]. unfold ch, set_inbox. cbn. now rewrite Hin.
  - unfold pending. cbn [ch inbox]. rewrite Hin, unread_app, unread_chunks, Hcs, !length_app.
    pose proof (lines_length lines Hlines). lia.
  - destruct Hst as (_ & Hne' & Hrd & Hbuf).
    exists (buf b'), cs'. rewrite Hrd. repeat split; auto.
Qed.

(** *** Whole chunks

    As long as what the reader holds and what is to come fit the buffer,
    every [fill] takes the next chunk whole: what is left on the connection
    is then a suffix of the chunks that were there. *)

Lemma fill_whole b c rest :
  rerr b = None -> inbox (rd b) = Chunk c :: rest -> c <> [] ->
  (length (buf b) + length c <= defaultBufSize)%nat ->
  fill b = mkReader (set_inbox (rd b) rest) (buf b ++ c) None.
Proof.
  intros Herr Hin Hc Hroom. unfold fill, maxConsecutiveEmptyReads.
  change 100%nat with (S 99). rewrite fill_tries_S.
  unfold conn_Read. rewrite Hin, Herr.
  replace (length c <=? defaultBufSize - length (buf b))%nat with true
    by (symmetry; apply Nat.leb_le; lia).
  destruct c; [congruence | reflexivity].
Qed.

Lemma stands_length b ch cs rest s :
  stands b ch cs rest s -> (length (buf b) + length (concat cs) = length s)%nat.
Proof. intros (_ & _ & _ & <-). now rewrite length_app. Qed.


Lemma ReadString_loop_whole fuel : forall b ch cs rest body tail acc,
  stands b ch cs rest (body ++ LF :: tail) -> ~ In LF body ->
  (length (buf b) + length (concat cs) <= defaultBufSize)%nat ->
  (2 * length (concat cs) + Nat.min 1 (length (buf b)) < fuel)%nat ->
  exists b' k,
    ReadString_loop fuel LF acc b = Some (acc ++ body ++ [LF], None, b') /\
    stands b' ch (skipn k cs) rest tail.
Proof.
  induction fuel as [| fuel IH];
    intros b ch cs rest body tail acc (Herr & Hne & Hrd & Hbuf) Hno Hfit Hfuel; [lia |].
  cbn [ReadString_loop].
  destruct (split_line (buf b) (concat cs) body tail Hbuf Hno)
    as [(b1 & Hb & Ht) | (body' & Hbody & Hcs & Hnb)].
  - rewrite Hb, cut_line by assumption.
    exists (mkReader (rd b) b1 (rerr b)), 0%nat. split; [reflexivity |].
    repeat split; auto.
  - rewrite cut_none by assumption. rewrite Herr.
    assert (Hno' : ~ In LF body').
    { intros Hin. apply Hno. rewrite Hbody. apply in_or_app. now right. }
    destruct (defaultBufSize <=? length (buf b))%nat eqn:E;
      [apply Nat.leb_le in E | apply Nat.leb_gt in E].
    + destruct (IH (mkReader (rd b) [] None) ch cs rest body' tail (acc ++ buf b))
        as (b' & k & Hrs & Hst).
      * repeat split; auto.
      * exact Hno'.
      * cbn [buf length]. lia.
      * cbn [buf length]. unfold defaultBufSize in E. lia.
      * exists b', k. rewrite Hrs. split; [| exact Hst].
        rewrite Hbody, <- !app_assoc. reflexivity.
    + destruct cs as [| c cs0]; [simpl in Hcs; now destruct body' |].
      inversion Hne as [| ? ? Hc Hne0]; subst.
      assert (Hin : inbox (rd b) = Chunk c :: map Chunk cs0 ++ rest)
        by (rewrite Hrd; reflexivity).
      cbn [concat] in Hfit, Hfuel. rewrite length_app in Hfit, Hfuel.
      rewrite (fill_whole b c _ Herr Hin Hc) by lia.
      assert (Hpos : (0 < length c)%nat) by (destruct c; [congruence | simpl; lia]).
      destruct (IH (mkReader (set_inbox (rd b) (map Chunk cs0 ++ rest)) (buf b ++ c) None)
                   ch cs0 rest (buf b ++ body') tail acc) as (b' & k & Hrs & Hst).
      * repeat split.
        -- exact Hne0.
        -- cbn [rd]. rewrite Hrd. reflexivity.
        -- cbn [buf]. rewrite <- Hbuf. cbn [concat]. now rewrite <- app_assoc.
      * exact Hno.
      * cbn [buf]. rewrite length_app. lia.
      * cbn [buf]. rewrite length_app. lia.
      * exists b', (S k). split; [exact Hrs | exact Hst].
Qed.

Lemma ReadString_whole b ch cs rest body tail :
  stands b ch cs rest ((body ++ [LF]) ++ tail) -> ~ In LF body ->
  (length (buf b) + length (concat cs) <= defaultBufSize)%nat ->
  exists b' k,
    ReadString b LF = Some (body ++ [LF], None, b') /\ stands b' ch (skipn k cs) rest tail.
Proof.
  intros Hst Hno Hfit. rewrite <- app_assoc in Hst.
  destruct (ReadString_loop_whole (budget b) b ch cs rest body tail [] Hst Hno Hfit)
    as (b' & k & Hrs & Hst').
  - eapply stands_budget. exact Hst.
  - exists b', k. split; [exact Hrs | exact Hst'].
Qed.

Lemma Cmd_loop_whole lines : forall fuel b ch cs rest term tail response,
  Forall continuation lines -> is_line term -> MatchString term = true ->
  stands b ch cs rest (concat lines ++ term ++ tail) ->
  (length (buf b) + length (concat cs) <= defaultBufSize)%nat ->
  (length lines < fuel)%nat ->
  exists b' k,
    Cmd_loop fuel response b = Some (reply_result (response ++ concat lines ++ term), b') /\
    stands b' ch (skipn k cs) rest tail.
Proof.
  induction lines as [| l lines IH];
    intros fuel b ch cs rest term tail response Hlines Hterm Hmatch Hst Hfit Hfuel;
    (destruct fuel as [| fuel]; [simpl in Hfuel; lia |]); cbn [Cmd_loop].
  - destruct Hterm as (body & -> & Hno). cbn [concat app] in Hst.
    destruct (ReadString_whole b ch cs rest body tail Hst Hno Hfit) as (b' & k & -> & Hst').
    rewrite Hmatch. exists b', k. split; [| exact Hst'].
    unfold reply_result. cbn [concat app].
    now destruct (Atoi _) as [t [err |]].
  - inversion Hlines as [| ? ? [(body & -> & Hno) Hcont] Hrest]; subst.
    cbn [concat] in Hst. rewrite <- app_assoc in Hst.
    pose proof (stands_length _ _ _ _ _ Hst) as Hlen.
    destruct (ReadString_whole b ch cs rest body _ Hst Hno Hfit) as (b' & k & -> & Hst').
    pose proof (stands_length _ _ _ _ _ Hst') as Hlen'.
    rewrite Hcont.
    destruct (IH fuel b' ch (skipn k cs) rest term tail (response ++ body ++ [LF])
                Hrest Hterm Hmatch Hst') as (b'' & k' & -> & Hst'').
    + rewrite length_app in Hlen. lia.
    + simpl in Hfuel. lia.
    + exists b'', (k' + k)%nat. rewrite <- skipn_skipn. split; [| exact Hst''].
      cbn [concat]. now rewrite <- !app_assoc.
Qed.

(** [Cmd] on a reply delivered in chunks that fit the buffer of its reader:
    the chunks it leaves on the connection are whole. *)
Lemma Cmd_reply_whole c command arg lines term cs rest extra :
  write_ok (control c) ->
  inbox (control c) = map Chunk cs ++ rest -> nonempty_chunks cs ->
  concat cs = concat lines ++ term ++ extra ->
  Forall continuation lines -> is_line term -> MatchString term = true ->
  (length (concat cs) <= defaultBufSize)%nat ->
  exists dropped k,
    Cmd c command arg =
      Some (reply_result (concat lines ++ term),
            after_Cmd c command arg (map Chunk (skipn k cs) ++ rest)) /\
    extra = dropped ++ concat (skipn k cs).
Proof.
  intros Hw Hin Hne Hcs Hlines Hterm Hmatch Hfit. unfold Cmd.
  rewrite conn_Write_ok by exact Hw.
  set (ch := mkChannel _ _ _ _ _ _).
  destruct (Cmd_loop_whole lines (S (pending (inbox ch))) (NewReader ch) ch cs rest
              term extra [] Hlines Hterm Hmatch) as (b' & k & -> & Hst).
  - repeat split; auto. cbn [NewReader rd]. unfold ch, set_inbox. cbn. now rewrite Hin.
  - cbn [NewReader buf length]. lia.
  - unfold pending. cbn [ch inbox]. rewrite Hin, unread_app, unread_chunks, Hcs, !length_app.
    pose proof (lines_length lines Hlines). lia.
  - destruct Hst as (_ & _ & Hrd & Hbuf).
    exists (buf b'), k. rewrite Hrd. split; [reflexivity | now symmetry].
Qed.

Lemma length_concat_firstn k (cs : list str) :
  (length (concat (firstn k cs)) <= length (concat cs))%nat.
Proof.
  rewrite <- (firstn_skipn k cs) at 2. rewrite concat_app, length_app. lia.
Qed.

(** The chunks read make up the reply and what was dropped; when the reply
    ends in the last chunk, the last chunk has been read. *)
Lemma whole_chunks_read (cs : list str) k reply dropped extra :
  concat cs = reply ++ extra -> extra = dropped ++ concat (skipn k cs) ->
  (length (concat (removelast cs)) < length reply)%nat ->
  skipn k cs = [].
Proof.
  intros Hcs Hextra Hlast.
  destruct (Nat.le_gt_cases (length cs) k) as [Hk | Hk]; [now apply skipn_all2 |].
  exfalso.
  assert (Hread : concat (firstn k cs) = reply ++ dropped).
  { apply (app_inv_tail (concat (skipn k cs))).
    now rewrite <- concat_app, firstn_skipn, <- app_assoc, <- Hextra. }
  assert (Hpre : firstn k cs = firstn k (removelast cs)).
  { rewrite removelast_firstn_len, firstn_firstn. f_equal. lia. }
  pose proof (length_concat_firstn k (removelast cs)) as Hle.
  rewrite <- Hpre, Hread, length_app in Hle. lia.
Qed.

Lemma three_digits_value g :
  all_digits g -> (length g <= 3)%nat -> 0 <= digits_value g < 1000.
Proof.
  intros Hg Hlen.
  destruct g as [| a [| b [| c [| d g]]]]; [ | | | | simpl in Hlen; lia];
    repeat match goal with
           | H : all_digits (_ :: _) |- _ =>
               let Hc := fresh "Hc" in
               inversion H as [| ? ? Hc ?]; subst; clear H; apply is_digit_val in Hc
           | H : Forall _ (_ :: _) |- _ =>
               let Hc := fresh "Hc" in
               inversion H as [| ? ? Hc ?]; subst; clear H; apply is_digit_val in Hc
           end;
    unfold digits_value, digits_from; cbn [fold_left]; lia.
Qed.

(** When the response begins with three digits, they are the code. *)
Lemma reply_result_digits response :
  digits (firstn 3 response) ->
  reply_result response = (digits_value (firstn 3 response), response, None).
Proof.
  intros Hd. unfold reply_result. rewrite (Atoi_digits_full _ Hd).
  pose proof (three_digits_value (firstn 3 response) (proj2 Hd) (firstn_le_length 3 response))
    as Hv.
  assert (Hint : maxInt64 = 9223372036854775807) by reflexivity.
  replace (_ <=? maxInt64) with true by (symmetry; apply Z.leb_le; lia).
  rewrite to_uint_small; [reflexivity |].
  assert (H64 : 2 ^ 64 = 18446744073709551616) by reflexivity. lia.
Qed.

Lemma terminal_digits term : terminal term -> digits (firstn 3 term).
Proof.
  intros [_ H]. destruct term as [| a [| b [| c [| d t]]]]; try discriminate H.
  cbn [code_here] in H. rewrite !andb_true_iff in H. destruct H as [[[Ha Hb] Hc] _].
  split; [discriminate |]. cbn [firstn]. repeat constructor; assumption.
Qed.

(** C1 fails on the code.  The test that ends the loop of [Cmd] is not
    anchored at the start of the line.  Take a reply in which a line [first]
    that is no terminal line (it does not begin with three digits and a
    space) holds three digits and a space further on, as the line
    "226-Total 1234 bytes" does, and in which the terminal line comes later.
    [Cmd] takes [first] for the end of the reply: the response is made of the
    lines up to [first], the code is read from these, and the rest of the
    reply, the terminal line included, is not part of the response. *)
Theorem Cmd_stops_before_terminal_line c command arg lines first later term cs rest :
  write_ok (control c) ->
  inbox (control c) = map Chunk cs ++ rest -> nonempty_chunks cs ->
  concat cs = concat lines ++ first ++ later ++ term ->
  Forall continuation lines ->
  is_line first -> code_here first = false -> MatchString first = true ->
  terminal term ->
  exists code err c',
    Cmd c command arg = Some ((code, concat lines ++ first, err), c') /\
    (code, concat lines ++ first, err) = reply_result (concat lines ++ first) /\
    concat lines ++ first <> concat lines ++ first ++ later ++ term.
Proof.
  intros Hw Hin Hne Hcs Hlines Hfirst _ Hmatch [(body & -> & _) _].
  destruct (Cmd_reply c command arg lines first cs rest (later ++ body ++ [LF])
              Hw Hin Hne Hcs Hlines Hfirst Hmatch) as (dropped & cs' & HCmd & _ & _).
  assert (Hres : exists code err,
             reply_result (concat lines ++ first) = (code, concat lines ++ first, err)).
  { unfold reply_result. destruct (Atoi _) as [t [err |]]; eauto. }
  destruct Hres as (code & err & Hres). rewrite Hres in HCmd.
  exists code, err. eexists. split; [exact HCmd |]. split; [now symmetry |].
  intros Heq. apply (f_equal (@length ascii)) in Heq.
  rewrite !length_app in Heq. cbn [length] in Heq. lia.
Qed.

(** X27. For a reply made of lines in which the pattern occurs nowhere,
    followed by a terminal line, whatever the chunks it arrives in, [Cmd]
    returns the concatenation of all the lines, the terminal one included.
    The code is read from the first three characters of that response, that
    is, of its first line: it is the number they spell when they are digits,
    and it is the code of the terminal line when the first line begins with
    the same three characters, as in a reply that opens with "226-". *)
Theorem Cmd_multiline_response c command arg lines term cs rest extra :
  write_ok (control c) ->
  inbox (control c) = map Chunk cs ++ rest -> nonempty_chunks cs ->
  concat cs = concat lines ++ term ++ extra ->
  Forall continuation lines -> terminal term ->
  let response := concat lines ++ term in
  exists c',
    Cmd c command arg = Some (reply_result response, c') /\
    (digits (firstn 3 response) ->
     reply_result response = (digits_value (firstn 3 response), response, None)) /\
    (firstn 3 response = firstn 3 term ->
     reply_result response = (digits_value (firstn 3 term), response, None)).
Proof.
  intros Hw Hin Hne Hcs Hlines Hterm response.
  destruct (Cmd_reply c command arg lines term cs rest extra Hw Hin Hne Hcs Hlines
              (proj1 Hterm) (code_here_MatchString _ (proj2 Hterm)))
    as (dropped & cs' & HCmd & _ & _).
  eexists. split; [exact HCmd |]. split.
  - apply reply_result_digits.
  - intros Heq. rewrite <- Heq. apply reply_result_digits.
    rewrite Heq. now apply terminal_digits.
Qed.


(** ** Termination and frame of the response reader

    On every script the loops of [ReadString] and of [Cmd] end within the
    fuel they are given, and they touch nothing of the connection but the
    bytes they read. *)

Lemma conn_Read_cases n ch data e ch' :
  conn_Read n ch = (data, e, ch') -> (0 < n)%nat ->
  ch' = set_inbox ch (inbox ch') /\
  (length data + pending (inbox ch') = pending (inbox ch))%nat /\
  match e with
  | Some _ => data = [] /\ (length (inbox ch') <= length (inbox ch))%nat
  | None => (data <> [] /\ (length (inbox ch') <= length (inbox ch))%nat) \/
            (data = [] /\ S (length (inbox ch')) = length (inbox ch))
  end.
Proof.
  unfold conn_Read, pending. intros H Hn.
  destruct (inbox ch) as [| [c | err] t] eqn:Hin.
  - injection H as <- <- <-. rewrite Hin. repeat split; auto. apply set_inbox_id_eq. exact Hin.
  - destruct (length c <=? n)%nat eqn:E; injection H as <- <- <-; cbn [inbox set_inbox unread].
    + repeat split; [now rewrite length_app |].
      destruct c; [right | left]; split; simpl; auto; try discriminate.
    + apply Nat.leb_gt in E. repeat split.
      * rewrite !length_app, length_firstn, length_skipn. lia.
      * left. split; [| simpl; lia]. intros H0. apply (f_equal (@length ascii)) in H0.
        rewrite length_firstn in H0. cbn [length] in H0. lia.
  - injection H as <- <- <-. cbn [inbox set_inbox unread length]. repeat split; auto.
Qed.

Lemma conn_Read_frame n ch data e ch' :
  conn_Read n ch = (data, e, ch') ->
  ch' = set_inbox ch (inbox ch') /\
  (length data + pending (inbox ch') = pending (inbox ch))%nat.
Proof.
  unfold conn_Read, pending. generalize n as room. intros room.
  destruct (inbox ch) as [| [c | err] t] eqn:Hin.
  - intros [= <- <- <-]. rewrite Hin. split; [now apply set_inbox_id_eq | reflexivity].
  - destruct (length c <=? room)%nat; intros [= <- <- <-]; cbn [inbox set_inbox unread].
    + split; [reflexivity | now rewrite length_app].
    + split; [reflexivity |]. rewrite !length_app, length_firstn, length_skipn. lia.
  - intros [= <- <- <-]. cbn [inbox set_inbox unread length]. now split.
Qed.

Lemma fill_tries_frame i : forall b,
  rd (fill_tries i b) = set_inbox (rd b) (inbox (rd (fill_tries i b))) /\
  nu (fill_tries i b) = nu b.
Proof.
  induction i as [| i IH]; intros b; cbn [fill_tries].
  - split; [apply set_inbox_id_eq; reflexivity | reflexivity].
  - destruct (conn_Read _ (rd b)) as [[data e] ch] eqn:HR.
    apply conn_Read_frame in HR as [Hch Hlen].
    destruct e as [err |].
    + cbn [rd]. split; [exact Hch |]. unfold nu. cbn [buf rd]. rewrite length_app. lia.
    + destruct (0 <? length data)%nat.
      * cbn [rd]. split; [exact Hch |]. unfold nu. cbn [buf rd]. rewrite length_app. lia.
      * destruct (IH (mkReader ch (buf b ++ data) (rerr b))) as [Hrd Hnu].
        cbn [rd] in Hrd. split.
        -- rewrite Hrd at 1. rewrite Hch. reflexivity.
        -- rewrite Hnu. unfold nu. cbn [buf rd]. rewrite length_app. lia.
Qed.

Lemma fill_tries_progress i : forall b,
  rerr b = None -> (length (buf b) < defaultBufSize)%nat ->
  (mu (fill_tries i b) < mu b)%nat.
Proof.
  induction i as [| i IH]; intros b Herr Hroom; cbn [fill_tries].
  - unfold mu. cbn [rd buf rerr]. rewrite Herr. lia.
  - destruct (conn_Read _ (rd b)) as [[data e] ch] eqn:HR.
    apply conn_Read_cases in HR as (_ & Hlen & Hcase); [| lia].
    destruct e as [err |].
    + destruct Hcase as [-> Hle]. unfold mu. cbn [rd buf rerr].
      rewrite Herr, app_nil_r. simpl in Hlen. lia.
    + destruct Hcase as [[Hdata Hle] | [-> Hle]].
      * assert (Hpos : (0 < length data)%nat) by (destruct data; [congruence | simpl; lia]).
        apply Nat.ltb_lt in Hpos as Hpos'. rewrite Hpos'.
        unfold mu. cbn [rd buf rerr]. rewrite Herr. lia.
      * cbn [length Nat.ltb Nat.leb].
        eapply Nat.lt_trans; [apply IH; cbn [rerr buf]; [exact Herr | now rewrite app_nil_r] |].
        unfold mu. cbn [rd buf rerr]. rewrite Herr, app_nil_r. simpl in Hlen. lia.
Qed.

Lemma fill_frame b :
  rd (fill b) = set_inbox (rd b) (inbox (rd (fill b))) /\ nu (fill b) = nu b.
Proof. exact (fill_tries_frame maxConsecutiveEmptyReads b). Qed.

Lemma fill_progress b :
  rerr b = None -> (length (buf b) < defaultBufSize)%nat -> (mu (fill b) < mu b)%nat.
Proof. exact (fill_tries_progress maxConsecutiveEmptyReads b). Qed.

Lemma cut_inv delim s l r :
  cut delim s = Some (l, r) -> s = l ++ r /\ l <> [].
Proof.
  revert l r. induction s as [| c t IH]; intros l r; [discriminate |].
  simpl. destruct (Ascii.eqb c delim).
  - intros [= <- <-]. split; [reflexivity | discriminate].
  - destruct (cut delim t) as [[l' r'] |]; [| discriminate].
    intros [= <- <-]. destruct (IH l' r' eq_refl) as [-> _].
    split; [reflexivity | discriminate].
Qed.

(** What a call of [ReadString] returns was taken from the reader, and a
    line returned without error is not empty. *)
Lemma ReadString_loop_sound fuel : forall delim b acc line e b',
  ReadString_loop fuel delim acc b = Some (line, e, b') ->
  exists got,
    line = acc ++ got /\ (length got + nu b' = nu b)%nat /\
    (e = None -> got <> []) /\
    rd b' = set_inbox (rd b) (inbox (rd b')).
Proof.
  induction fuel as [| fuel IH]; intros delim b acc line e b'; [discriminate |].
  cbn [ReadString_loop].
  destruct (cut delim (buf b)) as [[l r] |] eqn:Hcut.
  - intros [= <- <- <-]. apply cut_inv in Hcut as [Hbuf Hl].
    exists l. unfold nu. cbn [buf rd]. rewrite Hbuf, length_app.
    split; [reflexivity |]. split; [lia |]. split; [auto |]. now apply set_inbox_id_eq.
  - destruct (rerr b) as [err |] eqn:Herr.
    + intros [= <- <- <-]. exists (buf b). unfold nu. cbn [buf rd length].
      split; [reflexivity |]. split; [lia |]. split; [discriminate |].
      now apply set_inbox_id_eq.
    + destruct (defaultBufSize <=? length (buf b))%nat eqn:E.
      * intros H. apply IH in H as (got & -> & Hnu & Hgot & Hrd).
        apply Nat.leb_le in E. unfold defaultBufSize in E.
        exists (buf b ++ got). rewrite app_assoc. unfold nu in *. cbn [buf rd length] in *.
        rewrite length_app. split; [reflexivity |]. split; [lia |]. split; [| exact Hrd].
        intros _ H0. apply app_eq_nil in H0 as [H0 _]. rewrite H0 in E.
        cbn [length] in E. lia.
      * intros H. apply IH in H as (got & -> & Hnu & Hgot & Hrd).
        destruct (fill_frame b) as [Hfrd Hfnu].
        exists got. split; [reflexivity |]. split; [lia |]. split; [exact Hgot |].
        rewrite Hrd, Hfrd. reflexivity.
Qed.

Lemma ReadString_loop_total fuel : forall delim b acc,
  (mu b < fuel)%nat -> ReadString_loop fuel delim acc b <> None.
Proof.
  induction fuel as [| fuel IH]; intros delim b acc Hfuel; [lia |].
  cbn [ReadString_loop].
  destruct (cut delim (buf b)) as [[l r] |]; [discriminate |].
  destruct (rerr b) as [err |] eqn:Herr; [discriminate |].
  destruct (defaultBufSize <=? length (buf b))%nat eqn:E;
    [apply Nat.leb_le in E | apply Nat.leb_gt in E]; apply IH.
  - unfold mu in *. cbn [rd buf rerr length] in *. rewrite Herr in Hfuel.
    unfold defaultBufSize in E. lia.
  - pose proof (fill_progress b Herr E). lia.
Qed.

Lemma mu_budget b : (mu b < budget b)%nat.
Proof. unfold mu, budget. destruct (rerr b); lia. Qed.

Lemma Cmd_loop_total fuel : forall response b,
  (nu b < fuel)%nat -> Cmd_loop fuel response b <> None.
Proof.
  induction fuel as [| fuel IH]; intros response b Hfuel; [lia |].
  cbn [Cmd_loop]. unfold ReadString.
  destruct (ReadString_loop (budget b) LF [] b) as [[[ln [err |]] b'] |] eqn:HR.
  - discriminate.
  - apply ReadString_loop_sound in HR as (got & -> & Hnu & Hgot & _).
    destruct (MatchString _); [destruct (Atoi _) as [t [err |]]; discriminate |].
    apply IH. specialize (Hgot eq_refl).
    assert ((0 < length got)%nat) by (destruct got; [congruence | simpl; lia]). lia.
  - exfalso. revert HR. apply ReadString_loop_total, mu_budget.
Qed.

Lemma Cmd_loop_frame fuel : forall response b res b',
  Cmd_loop fuel response b = Some (res, b') ->
  rd b' = set_inbox (rd b) (inbox (rd b')).
Proof.
  induction fuel as [| fuel IH]; intros response b res b'; [discriminate |].
  cbn [Cmd_loop]. unfold ReadString.
  destruct (ReadString_loop (budget b) LF [] b) as [[[ln [err |]] b1] |] eqn:HR;
    [| | discriminate]; apply ReadString_loop_sound in HR as (_ & _ & _ & _ & Hrd).
  - now intros [= <- <-].
  - destruct (MatchString _).
    + destruct (Atoi _) as [t [err |]]; now intros [= <- <-].
    + intros H. apply IH in H. rewrite H, Hrd. reflexivity.
Qed.

(** [Cmd] returns on every session and every script. *)
Lemma Cmd_total c command arg : Cmd c command arg <> None.
Proof.
  unfold Cmd. destruct (conn_Write _ (control c)) as [[err |] ch]; [discriminate |].
  destruct (Cmd_loop _ [] (NewReader ch)) as [[res b'] |] eqn:HL; [discriminate |].
  exfalso. revert HL. apply Cmd_loop_total. unfold nu. cbn [NewReader buf rd length]. lia.
Qed.

(** [Cmd] writes the command, reads from the control connection, and
    changes nothing else of the session. *)
Lemma Cmd_frame c command arg res c' :
  Cmd c command arg = Some (res, c') ->
  hostname c' = hostname c /\
  control c' =
    set_inbox (snd (conn_Write (command ++ lit " " ++ arg ++ CRLF) (control c)))
              (inbox (control c')).
Proof.
  unfold Cmd. destruct (conn_Write _ (control c)) as [[err |] ch].
  - intros [= <- <-]. split; [reflexivity |]. now apply set_inbox_id_eq.
  - destruct (Cmd_loop _ [] (NewReader ch)) as [[res' b'] |] eqn:HL; [| discriminate].
    intros [= <- <-]. split; [reflexivity |].
    apply Cmd_loop_frame in HL. exact HL.
Qed.

(** ** Sample sessions *)

Lemma is_line_intro body :
  forallb (fun c => negb (Ascii.eqb c LF)) body = true -> is_line (body ++ [LF]).
Proof.
  intros H. exists body. split; [reflexivity |].
  rewrite forallb_forall in H. intros Hin. apply H in Hin.
  now rewrite Ascii.eqb_refl in Hin.
Qed.

Lemma continuation_intro body :
  forallb (fun c => negb (Ascii.eqb c LF)) body = true ->
  MatchString (body ++ [LF]) = false -> continuation (body ++ [LF]).
Proof. intros H1 H2. split; [now apply is_line_intro | exact H2]. Qed.

Lemma terminal_intro body :
  forallb (fun c => negb (Ascii.eqb c LF)) body = true ->
  code_here (body ++ [LF]) = true -> terminal (body ++ [LF]).
Proof. intros H1 H2. split; [now apply is_line_intro | exact H2]. Qed.

Ltac continuation_line :=
  match goal with
  | |- continuation (?b ++ [CR] ++ [LF]) =>
      change (b ++ [CR] ++ [LF]) with ((b ++ [CR]) ++ [LF]);
      apply continuation_intro; reflexivity
  end.

Lemma reply_226_continuation : Forall continuation reply_226.
Proof.
  unfold reply_226. repeat (apply Forall_cons; [continuation_line |]). apply Forall_nil.
Qed.

Lemma line_226_terminal : terminal line_226.
Proof.
  change line_226 with ((lit "226 Transfer complete" ++ [CR]) ++ [LF]).
  apply terminal_intro; reflexivity.
Qed.

Lemma Cmd_multiline_response_witness :
  exists c',
    Cmd (session [Chunk (lit "226-Listing follows" ++ CRLF ++ lit " fi");
                  Chunk (lit "rst" ++ CRLF ++ lit " second" ++ CRLF ++ line_226)])
        (lit "STAT") [] =
      Some ((226, concat reply_226 ++ line_226, None), c').
Proof.
  destruct (Cmd_multiline_response
              (session [Chunk (lit "226-Listing follows" ++ CRLF ++ lit " fi");
                        Chunk (lit "rst" ++ CRLF ++ lit " second" ++ CRLF ++ line_226)])
              (lit "STAT") [] reply_226 line_226
              [lit "226-Listing follows" ++ CRLF ++ lit " fi";
               lit "rst" ++ CRLF ++ lit " second" ++ CRLF ++ line_226] [] [])
    as (c' & HCmd & _ & Hcode).
  - exact I.
  - reflexivity.
  - repeat constructor; discriminate.
  - reflexivity.
  - exact reply_226_continuation.
  - exact line_226_terminal.
  - exists c'. rewrite HCmd, (Hcode eq_refl). reflexivity.
Defined.

(** The code is that of the first line: the terminal line of this reply
    begins with 226, and the code [Cmd] returns is the 150 of its first
    line. *)
Lemma Cmd_code_from_first_line :
  let lines := [lit "150-Opening data connection" ++ [CR] ++ [LF];
                lit " first" ++ [CR] ++ [LF];
                lit " second" ++ [CR] ++ [LF]] in
  Forall continuation lines /\ terminal line_226 /\
  digits_value (firstn 3 line_226) = 226 /\
  exists c',
    Cmd (session [Chunk (concat lines ++ line_226)]) (lit "RETR") (lit "f") =
      Some ((150, concat lines ++ line_226, None), c').
Proof.
  cbv zeta. split; [| split; [exact line_226_terminal | split; [reflexivity |]]].
  - repeat (apply Forall_cons; [continuation_line |]). apply Forall_nil.
  - eexists. vm_compute. reflexivity.
Qed.


Lemma Cmd_stops_before_terminal_line_witness :
  let first := (lit "226-Total 1234 bytes" ++ [CR]) ++ [LF] in
  code_here first = false /\
  exists c',
    Cmd (session [Chunk first; Chunk line_226]) (lit "STAT") [] =
      Some ((226, first, None), c').
Proof.
  cbv zeta. split; [reflexivity |].
  destruct (Cmd_stops_before_terminal_line
              (session [Chunk ((lit "226-Total 1234 bytes" ++ [CR]) ++ [LF]); Chunk line_226])
              (lit "STAT") [] [] ((lit "226-Total 1234 bytes" ++ [CR]) ++ [LF]) [] line_226
              [(lit "226-Total 1234 bytes" ++ [CR]) ++ [LF]; line_226] [])
    as (code & err & c' & HCmd & Hres & _).
  - exact I.
  - reflexivity.
  - repeat constructor; discriminate.
  - reflexivity.
  - constructor.
  - apply is_line_intro. reflexivity.
  - reflexivity.
  - reflexivity.
  - exact line_226_terminal.
  - exists c'. rewrite HCmd, Hres. reflexivity.
Defined.

(** The pattern is looked for anywhere in a line: a first line that holds
    three digits and a space further on ends the reply. *)
Lemma Cmd_stops_at_inner_match :
  let first := lit "226-Total 1234 bytes" ++ [CR] ++ [LF] in
  code_here first = false /\
  exists c',
    Cmd (session [Chunk first; Chunk line_226]) (lit "STAT") [] =
      Some ((226, first, None), c') /\
    inbox (control c') = [Chunk line_226].
Proof.
  cbv zeta. split; [reflexivity |]. eexists. split; [vm_compute; reflexivity | reflexivity].
Qed.


(** ** Login and logout *)

(** What [Login] returns is the error of the PASS exchange alone: the error
    of the USER exchange is assigned and then overwritten. *)
Lemma Login_returns_PASS_error c user password :
  user <> [] -> password <> [] ->
  exists r1 c1 code response err c2,
    Cmd c (lit "USER") user = Some (r1, c1) /\
    Cmd c1 (lit "PASS") password = Some ((code, response, err), c2) /\
    Login c user password = Some (err, c2).
Proof.
  intros Hu Hp. unfold Login.
  destruct user as [| u user]; [congruence |].
  destruct password as [| p password]; [congruence |]. cbn [str_eqb].
  destruct (Cmd c (lit "USER") (u :: user)) as [[[[code1 resp1] err1] c1] |] eqn:H1;
    [| now apply Cmd_total in H1].
  destruct (Cmd c1 (lit "PASS") (p :: password)) as [[[[code2 resp2] err2] c2] |] eqn:H2;
    [| now apply Cmd_total in H2].
  exists (code1, resp1, err1), c1, code2, resp2, err2, c2.
  split; [reflexivity |]. split; [exact H2 |]. now destruct err2.
Qed.

(** C6 fails on the code.  The read of the USER reply fails, the PASS
    exchange succeeds, and [Login] returns no error. *)
Lemma Login_loses_USER_error :
  let timeout := SysError (lit "i/o timeout") in
  let c := session [RdErr timeout; Chunk (lit "230 Login successful." ++ CRLF)] in
  exists c1 c2,
    Cmd c (lit "USER") (lit "anonymous") = Some ((0, [], Some timeout), c1) /\
    Cmd c1 (lit "PASS") (lit "guest") =
      Some ((230, lit "230 Login successful." ++ CRLF, None), c2) /\
    Login c (lit "anonymous") (lit "guest") = Some (None, c2).
Proof.
  cbv zeta. eexists. eexists. split; [vm_compute; reflexivity |].
  split; vm_compute; reflexivity.
Qed.

Lemma conn_Write_closed p ch : closed (snd (conn_Write p ch)) = closed ch.
Proof. unfold conn_Write. now destruct (wfaults ch) as [| [e |] t]. Qed.

(** C7, as the code has it.  [Logout] writes QUIT and reads the reply.  When
    that exchange returns no error, whatever the code of the reply, it closes
    the control connection: the error of [Close], if any, is what it
    returns, and the connection is closed in both cases.  When the exchange
    fails, [Logout] returns its error at once and the connection is left as
    open or closed as it was. *)
Theorem Logout_spec c :
  exists code response err c1,
    Cmd c (lit "QUIT") [] = Some ((code, response, err), c1) /\
    control c1 = set_inbox (snd (conn_Write (lit "QUIT" ++ lit " " ++ [] ++ CRLF) (control c)))
                           (inbox (control c1)) /\
    match err with
    | None =>
        Logout c = Some (close_err (control c1),
                         mkConnection (snd (conn_Close (control c1))) (hostname c1)) /\
        closed (snd (conn_Close (control c1))) = true
    | Some e =>
        Logout c = Some (Some e, c1) /\ closed (control c1) = closed (control c)
    end.
Proof.
  destruct (Cmd c (lit "QUIT") []) as [[[[code response] err] c1] |] eqn:HQ;
    [| now apply Cmd_total in HQ].
  exists code, response, err, c1. split; [reflexivity |].
  pose proof (Cmd_frame _ _ _ _ _ HQ) as [_ Hctl]. split; [exact Hctl |].
  unfold Logout. rewrite HQ. destruct err as [e |].
  - split; [reflexivity |]. rewrite Hctl. cbn [set_inbox closed].
    apply conn_Write_closed.
  - split; [| reflexivity]. unfold conn_Close. now destruct (close_err (control c1)).
Qed.

(** C7 as it is stated fails: the server has gone, the read of the QUIT
    reply fails, and [Logout] returns with the connection still open. *)
Lemma Logout_leaves_open :
  exists c',
    Logout (session []) = Some (Some EOF, c') /\
    outbox (control c') = lit "QUIT " ++ CRLF /\
    closed (control c') = false.
Proof. eexists. split; [vm_compute; reflexivity |]. split; reflexivity. Qed.

(** ** Transfer engine *)

Local Open Scope go_scope.

(** When the dial fails, the deferred [Close] is registered on the nil
    connection: the function panics before it looks at the error. *)
Lemma connect_dial_fails {R A} (fail : error -> R) dataPort (rest : M R A) e err :
  net (world e) (data_address e dataPort) = inl err ->
  connect fail dataPort rest e =
    Some (Panic, mkEnv (conn e) (snd (net_Dial (data_address e dataPort) (world e)))
                       None (file e)).
Proof.
  intros Hnet. unfold connect, bind, dial, net_Dial. fold (data_address e dataPort).
  rewrite Hnet. reflexivity.
Qed.

Lemma keeps_pure {R A} (a : A) : keeps (@pure R A a).
Proof. intros e s e' [= <- <-]. auto. Qed.

Lemma keeps_ret {R A} (r : R) : keeps (@ret R A r).
Proof. intros e s e' [= <- <-]. auto. Qed.

Lemma keeps_bind {R A B} (m : M R A) (k : A -> M R B) :
  keeps m -> (forall a, keeps (k a)) -> keeps (bind m k).
Proof.
  intros Hm Hk e s e'. unfold bind.
  destruct (m e) as [[[a | r |] e1] |] eqn:E; [| | | discriminate].
  - intros H Ho. eapply Hk; [exact H |]. eapply Hm; eauto.
  - intros [= <- <-] Ho. eapply Hm; eauto.
  - intros [= <- <-] Ho. eapply Hm; eauto.
Qed.

Lemma keeps_check {R} err (f : error -> R) : keeps (check err f).
Proof. destruct err; [apply keeps_ret | apply keeps_pure]. Qed.

Lemma keeps_open {R} name : keeps (@open R name).
Proof.
  intros e s e'. unfold open. destruct (os_OpenFile name (world e)) as [[err | f] w];
    intros [= <- <-]; auto.
Qed.

Lemma keeps_set_deadline {R} timeout : keeps (@set_deadline R timeout).
Proof.
  intros e s e'. unfold set_deadline, data_open.
  destruct (0 <? timeout); [| intros [= <- <-]; auto].
  destruct (dataConn e); intros [= <- <-]; cbn; congruence.
Qed.

Lemma keeps_dataConn_Read {R} n : keeps (@dataConn_Read R n).
Proof.
  intros e s e'. unfold dataConn_Read, data_open.
  destruct (dataConn e) as [ch |]; [| intros [= <- <-]; auto].
  destruct (conn_Read n ch) as [[data err] ch']. intros [= <- <-]. cbn. congruence.
Qed.

Lemma keeps_dataConn_Write {R} p : keeps (@dataConn_Write R p).
Proof.
  intros e s e'. unfold dataConn_Write, data_open.
  destruct (dataConn e) as [ch |]; [| intros [= <- <-]; auto].
  destruct (conn_Write p ch) as [err ch']. intros [= <- <-]. cbn. congruence.
Qed.

Lemma keeps_file_Read {R} n : keeps (@file_Read R n).
Proof.
  intros e s e'. unfold file_Read, data_open.
  destruct (file e) as [f |]; [| intros [= <- <-]; auto].
  destruct (conn_Read n f) as [[data err] f']. intros [= <- <-]. auto.
Qed.

Lemma keeps_file_Write {R} p : keeps (@file_Write R p).
Proof.
  intros e s e'. unfold file_Write, data_open.
  destruct (file e) as [f |]; [| intros [= <- <-]; auto].
  destruct (conn_Write p f) as [err f']. intros [= <- <-]. auto.
Qed.

Lemma keeps_defer_file_Close {R A} (rest : M R A) :
  keeps rest -> keeps (defer_file_Close rest).
Proof.
  intros Hr e s e'. unfold defer_file_Close.
  destruct (rest e) as [[s1 e1] |] eqn:E; [| discriminate].
  intros [= <- <-] Ho. apply (Hr _ _ _ E) in Ho.
  unfold close_file, data_open in *. now destruct (file e1).
Qed.

Lemma keeps_at {R A} (f : Env -> M R A) :
  (forall e0, keeps (f e0)) -> keeps (fun e => f e e).
Proof. intros H e s e' Hm. now apply (H e e s e'). Qed.

Create HintDb keeps.

#[local] Hint Resolve keeps_pure keeps_ret keeps_check keeps_open keeps_set_deadline
  keeps_dataConn_Read keeps_dataConn_Write keeps_file_Read keeps_file_Write : keeps.

Ltac keeps_step :=
  repeat first
    [ apply keeps_bind; [| intros ?]
    | apply keeps_defer_file_Close
    | progress auto with keeps
    | match goal with
      | |- keeps (let '(_, _) := ?x in _) => destruct x
      | |- keeps (if ?b then _ else _) => destruct b
      end ].

Lemma keeps_GetBuffer_loop fuel : forall result, keeps (GetBuffer_loop fuel result).
Proof.
  induction fuel as [| fuel IH]; intros result; [intros e s e'; discriminate |].
  cbn [GetBuffer_loop]. apply keeps_bind; [auto with keeps |].
  intros [data readErr]. destruct (0 <? length data)%nat; keeps_step; apply IH.
Qed.

Lemma keeps_DownloadFile_loop fuel dest : keeps (DownloadFile_loop fuel dest).
Proof.
  induction fuel as [| fuel IH]; [intros e s e'; discriminate |].
  cbn [DownloadFile_loop]. apply keeps_bind; [auto with keeps |].
  intros [data readErr]. keeps_step; exact IH.
Qed.

Lemma keeps_UploadFile_loop fuel src : keeps (UploadFile_loop fuel src).
Proof.
  induction fuel as [| fuel IH]; [intros e s e'; discriminate |].
  cbn [UploadFile_loop]. apply keeps_bind; [auto with keeps |].
  intros [data readErr]. keeps_step; exact IH.
Qed.

(** When the dial succeeds, the data connection is closed however the rest
    of the function is left. *)
Lemma connect_closes {R A} (fail : error -> R) dataPort (rest : M R A) e ch s e' :
  keeps rest ->
  net (world e) (data_address e dataPort) = inr ch ->
  connect fail dataPort rest e = Some (s, e') ->
  data_closed e'.
Proof.
  intros Hk Hnet. unfold connect, bind at 1, dial, net_Dial. fold (data_address e dataPort).
  rewrite Hnet. unfold defer_dataConn_Close. cbn [dataConn].
  match goal with |- context [bind ?m ?k ?e0] => destruct (bind m k e0) as [[s1 e1] |] eqn:E end;
    [| discriminate].
  intros [= <- <-].
  assert (Ho : data_open e1).
  { refine (keeps_bind _ _ (keeps_check _ _) (fun _ => Hk) _ _ _ E _).
    unfold data_open. cbn. discriminate. }
  unfold data_open in Ho. unfold close_dataConn, data_closed.
  destruct (dataConn e1) as [ch1 |]; [| congruence].
  eexists. split; reflexivity.
Qed.

Lemma call_bind_Next {R A} (m : M R A) (k : A -> M R Empty_set) e a e1 :
  m e = Some (Next a, e1) -> call (bind m k) e = call (k a) e1.
Proof. intros H. unfold call, bind. now rewrite H. Qed.

Lemma call_Panic {R} (m : M R Empty_set) e e' :
  m e = Some (Panic, e') -> call m e = Some (Panicked, e').
Proof. intros H. unfold call. now rewrite H. Qed.

Lemma call_closes {R} (m : M R Empty_set) e o e' :
  (forall s e2, m e = Some (s, e2) -> data_closed e2) ->
  call m e = Some (o, e') -> data_closed e'.
Proof.
  unfold call. destruct (m e) as [[s e2] |]; [| discriminate].
  intros H. destruct s as [a | r |]; [destruct a | |]; intros [= <- <-];
    exact (H _ _ eq_refl).
Qed.

(** The part of C5 that holds.  Once the dial has succeeded, each transfer
    function closes its data connection however it is left. *)
Lemma transfer_closes_data_connection src dest mode timeout e dataPort e1 ch :
  net (world e1) (data_address e1 dataPort) = inr ch ->
  (forall o e',
      handshake (fun err => ([] : str, Some err)) (lit "RETR") src mode e = Some (Next dataPort, e1) ->
      call (GetBuffer src mode timeout) e = Some (o, e') -> data_closed e') /\
  (forall o e',
      handshake Some (lit "RETR") src mode e = Some (Next dataPort, e1) ->
      call (DownloadFile src dest mode timeout) e = Some (o, e') -> data_closed e') /\
  (forall o e',
      handshake Some (lit "STOR") dest mode e = Some (Next dataPort, e1) ->
      call (UploadFile src dest mode timeout) e = Some (o, e') -> data_closed e').
Proof.
  intros Hnet. split; [| split]; intros o e' Hh;
    [unfold GetBuffer | unfold DownloadFile | unfold UploadFile];
    rewrite (call_bind_Next _ _ _ _ _ Hh); apply call_closes; intros s e2;
    (apply connect_closes with (ch := ch); [| exact Hnet]).
  all: keeps_step.
  all: try (apply (keeps_at (fun e0 => GetBuffer_loop (loop_fuel (dataConn e0)) []));
            intros e0; apply keeps_GetBuffer_loop).
  all: try (apply (keeps_at (fun e0 => DownloadFile_loop (loop_fuel (dataConn e0)) dest));
            intros e0; apply keeps_DownloadFile_loop).
  all: try (apply (keeps_at (fun e0 => UploadFile_loop (loop_fuel (file e0)) src));
            intros e0; apply keeps_UploadFile_loop).
Qed.

(** C5 fails on the code.  When the handshake has gone through and the dial
    to the decoded data port fails, each transfer function panics: no error
    is returned, and there is no data connection to close. *)
Theorem transfer_panics_on_failed_dial src dest mode timeout e dataPort e1 err :
  net (world e1) (data_address e1 dataPort) = inl err ->
  (handshake (fun err => ([] : str, Some err)) (lit "RETR") src mode e = Some (Next dataPort, e1) ->
   exists e', call (GetBuffer src mode timeout) e = Some (Panicked, e') /\
              dataConn e' = None) /\
  (handshake Some (lit "RETR") src mode e = Some (Next dataPort, e1) ->
   exists e', call (DownloadFile src dest mode timeout) e = Some (Panicked, e') /\
              dataConn e' = None) /\
  (handshake Some (lit "STOR") dest mode e = Some (Next dataPort, e1) ->
   exists e', call (UploadFile src dest mode timeout) e = Some (Panicked, e') /\
              dataConn e' = None).
Proof.
  intros Hnet. split; [| split]; intros Hh;
    [unfold GetBuffer | unfold DownloadFile | unfold UploadFile];
    rewrite (call_bind_Next _ _ _ _ _ Hh);
    eexists; (split; [apply call_Panic; eapply connect_dial_fails; exact Hnet | reflexivity]).
Qed.

Lemma transfer_panics_on_failed_dial_witness :
  (exists e', call (GetBuffer (lit "/pub/f") BINARY 5) refused_transfer = Some (Panicked, e')) /\
  (exists e', call (DownloadFile (lit "/pub/f") (lit "f") BINARY 5) refused_transfer
              = Some (Panicked, e')) /\
  (exists e', call (UploadFile (lit "f") (lit "/pub/f") BINARY 5) refused_transfer
              = Some (Panicked, e')).
Proof.
  repeat split.
  - edestruct (transfer_panics_on_failed_dial (lit "/pub/f") (lit "f") BINARY 5
                 refused_transfer 52718) as ((e' & H & _) & _ & _);
      [| vm_compute; reflexivity | exists e'; exact H]. reflexivity.
  - edestruct (transfer_panics_on_failed_dial (lit "/pub/f") (lit "f") BINARY 5
                 refused_transfer 52718) as (_ & (e' & H & _) & _);
      [| vm_compute; reflexivity | exists e'; exact H]. reflexivity.
  - edestruct (transfer_panics_on_failed_dial (lit "f") (lit "/pub/f") BINARY 5
                 refused_transfer 52718) as (_ & _ & (e' & H & _));
      [| vm_compute; reflexivity | exists e'; exact H]. reflexivity.
Defined.

(** *** Termination of the transfer functions *)

Lemma bind_total_at {R A B} (m : M R A) (k : A -> M R B) e :
  m e <> None ->
  (forall a e', m e = Some (Next a, e') -> k a e' <> None) ->
  bind m k e <> None.
Proof.
  intros Hm Hk. unfold bind. destruct (m e) as [[[a | r |] e'] |]; try discriminate.
  - now apply Hk.
  - congruence.
Qed.

Lemma total_bind {R A B} (m : M R A) (k : A -> M R B) :
  total m -> (forall a, total (k a)) -> total (bind m k).
Proof. intros Hm Hk e. apply bind_total_at; [apply Hm | intros a e' _; apply Hk]. Qed.

Lemma total_pure {R A} (a : A) : total (@pure R A a).
Proof. intros e. discriminate. Qed.

Lemma total_ret {R A} (r : R) : total (@ret R A r).
Proof. intros e. discriminate. Qed.

Lemma total_check {R} err (f : error -> R) : total (check err f).
Proof. destruct err; [apply total_ret | apply total_pure]. Qed.

Lemma total_cmd {R} command arg : total (@cmd R command arg).
Proof.
  intros e. unfold cmd. destruct (Cmd (conn e) command arg) as [[res c] |] eqn:E;
    [discriminate | now apply Cmd_total in E].
Qed.

Lemma total_control_Write {R} p : total (@control_Write R p).
Proof. intros e. unfold control_Write. now destruct (conn_Write p _). Qed.

Lemma total_dial {R} a : total (@dial R a).
Proof. intros e. unfold dial. now destruct (net_Dial a (world e)) as [[err | ch] w]. Qed.

Lemma total_open {R} name : total (@open R name).
Proof. intros e. unfold open. now destruct (os_OpenFile name (world e)) as [[err | f] w]. Qed.

Lemma total_set_deadline {R} t : total (@set_deadline R t).
Proof. intros e. unfold set_deadline. destruct (0 <? t); [destruct (dataConn e) |]; discriminate. Qed.

Lemma total_defer_dataConn_Close {R A} (rest : M R A) :
  total rest -> total (defer_dataConn_Close rest).
Proof.
  intros Hr e. unfold defer_dataConn_Close. destruct (dataConn e); [| discriminate].
  specialize (Hr e). destruct (rest e) as [[s e'] |]; [discriminate | congruence].
Qed.

Lemma total_defer_file_Close {R A} (rest : M R A) :
  total rest -> total (defer_file_Close rest).
Proof.
  intros Hr e. unfold defer_file_Close.
  specialize (Hr e). destruct (rest e) as [[s e'] |]; [discriminate | congruence].
Qed.

Lemma conn_Read_progress ch data err ch' :
  conn_Read 1024 ch = (data, err, ch') ->
  err = None \/ data <> [] ->
  (left_to_read (Some ch') < left_to_read (Some ch))%nat.
Proof.
  intros HR H. cbn [left_to_read].
  apply conn_Read_cases in HR as (_ & Hlen & Hcase); [| lia].
  destruct err as [err |].
  - destruct Hcase as [-> _]. destruct H as [H | H]; [discriminate | congruence].
  - destruct Hcase as [[Hd Hle] | [-> Hle]].
    + assert (0 < length data)%nat by (destruct data; [congruence | simpl; lia]). lia.
    + simpl in Hlen. lia.
Qed.

Lemma positive_nonempty (data : str) : (0 <? length data)%nat = true -> data <> [].
Proof. intros H ->. discriminate H. Qed.

Lemma GetBuffer_loop_total fuel : forall result e,
  (left_to_read (dataConn e) < fuel)%nat -> GetBuffer_loop fuel result e <> None.
Proof.
  induction fuel as [| fuel IH]; intros result e Hfuel; [lia |].
  cbn [GetBuffer_loop]. unfold bind at 1, dataConn_Read.
  destruct (dataConn e) as [ch |] eqn:Hd; [| discriminate].
  destruct (conn_Read 1024 ch) as [[data err] ch'] eqn:HR.
  destruct (0 <? length data)%nat eqn:Hpos.
  - cbn [is_EOF]. unfold bind, check, pure. apply IH. cbn [dataConn].
    pose proof (conn_Read_progress _ _ _ _ HR (or_intror (positive_nonempty _ Hpos))).
    cbn [left_to_read] in *. lia.
  - destruct (is_EOF err) eqn:HE; [discriminate |].
    destruct err as [err |]; [discriminate |].
    unfold bind, check, pure. apply IH. cbn [dataConn].
    pose proof (conn_Read_progress _ _ _ _ HR (or_introl eq_refl)).
    cbn [left_to_read] in *. lia.
Qed.

Lemma DownloadFile_loop_total fuel dest : forall e,
  (left_to_read (dataConn e) < fuel)%nat -> DownloadFile_loop fuel dest e <> None.
Proof.
  induction fuel as [| fuel IH]; intros e Hfuel; [lia |].
  cbn [DownloadFile_loop]. unfold bind at 1, dataConn_Read.
  destruct (dataConn e) as [ch |] eqn:Hd; [| discriminate].
  destruct (conn_Read 1024 ch) as [[data err] ch'] eqn:HR.
  assert (Hnext : forall e1, dataConn e1 = Some ch' ->
            (if is_EOF err then pure tt
             else bind (check err Some) (fun _ => DownloadFile_loop fuel dest)) e1 <> None).
  { intros e1 He1. destruct (is_EOF err) eqn:HE; [discriminate |].
    destruct err as [err |]; [discriminate |].
    unfold bind, check, pure. apply IH. rewrite He1.
    pose proof (conn_Read_progress _ _ _ _ HR (or_introl eq_refl)).
    cbn [left_to_read] in *. lia. }
  destruct (0 <? length data)%nat.
  - unfold bind at 1 2, file_Write. cbn [file dataConn].
    destruct (file e) as [f |]; [| discriminate].
    destruct (conn_Write data f) as [[werr |] f']; [discriminate |].
    unfold check at 1, pure at 1. apply Hnext. reflexivity.
  - unfold bind at 1, pure at 1. apply Hnext. reflexivity.
Qed.

Lemma UploadFile_loop_total fuel src : forall e,
  (left_to_read (file e) < fuel)%nat -> UploadFile_loop fuel src e <> None.
Proof.
  induction fuel as [| fuel IH]; intros e Hfuel; [lia |].
  cbn [UploadFile_loop]. unfold bind at 1, file_Read.
  destruct (file e) as [f |] eqn:Hf; [| discriminate].
  destruct (conn_Read 1024 f) as [[data err] f'] eqn:HR.
  assert (Hnext : forall e1, file e1 = Some f' ->
            (if is_EOF err then pure tt
             else bind (check err Some) (fun _ => UploadFile_loop fuel src)) e1 <> None).
  { intros e1 He1. destruct (is_EOF err) eqn:HE; [discriminate |].
    destruct err as [err |]; [discriminate |].
    unfold bind, check, pure. apply IH. rewrite He1.
    pose proof (conn_Read_progress _ _ _ _ HR (or_introl eq_refl)).
    cbn [left_to_read] in *. lia. }
  destruct (0 <? length data)%nat.
  - unfold bind at 1 2, dataConn_Write. cbn [file dataConn].
    destruct (dataConn e) as [ch |]; [| discriminate].
    destruct (conn_Write data ch) as [[werr |] ch']; [discriminate |].
    unfold check at 1, pure at 1. apply Hnext. reflexivity.
  - unfold bind at 1, pure at 1. apply Hnext. reflexivity.
Qed.

Lemma total_handshake {R} (fail : error -> R) verb path mode :
  total (handshake fail verb path mode).
Proof.
  unfold handshake. apply total_bind; [apply total_cmd |]. intros [[pasvCode pasvLine] err].
  apply total_bind; [apply total_check |]. intros _.
  apply total_bind; [apply total_check |]. intros _.
  destruct (extractDataPort pasvLine) as [dataPort err'].
  apply total_bind; [apply total_check |]. intros _.
  apply total_bind; [apply total_cmd |]. intros [[typeCode typeLine] err''].
  apply total_bind; [apply total_check |]. intros _.
  apply total_bind; [apply total_check |]. intros _.
  apply total_bind; [apply total_control_Write |]. intros werr.
  apply total_bind; [apply total_check | intros _; apply total_pure].
Qed.

Lemma total_connect {R A} (fail : error -> R) dataPort (rest : M R A) :
  total rest -> total (connect fail dataPort rest).
Proof.
  intros Hr e. unfold connect.
  apply total_bind; [apply total_dial |]. intros err.
  apply total_defer_dataConn_Close, total_bind; [apply total_check | intros _; exact Hr].
Qed.

Lemma loop_fuel_enough ch : (left_to_read ch < loop_fuel ch)%nat.
Proof. destruct ch; simpl; lia. Qed.

(** The transfer functions return, or panic, on every session and world:
    their loops never run out of fuel. *)
Lemma transfer_total src dest mode timeout e :
  call (GetBuffer src mode timeout) e <> None /\
  call (DownloadFile src dest mode timeout) e <> None /\
  call (UploadFile src dest mode timeout) e <> None.
Proof.
  assert (Hcall : forall R (m : M R Empty_set), total m -> call m e <> None).
  { intros R m Hm. unfold call. specialize (Hm e).
    destruct (m e) as [[[[] | r |] e'] |]; [discriminate | discriminate | congruence]. }
  split; [| split]; apply Hcall;
    [unfold GetBuffer | unfold DownloadFile | unfold UploadFile];
    (apply total_bind; [apply total_handshake |]); intros dataPort; apply total_connect.
  - apply total_bind; [apply total_set_deadline |]. intros _.
    apply total_bind; [| intros result; apply total_ret].
    intros e0. apply GetBuffer_loop_total, loop_fuel_enough.
  - apply total_bind; [apply total_open |]. intros err. apply total_defer_file_Close.
    apply total_bind; [apply total_check |]. intros _.
    apply total_bind; [apply total_set_deadline |]. intros _.
    apply total_bind; [| intros _; apply total_ret].
    intros e0. apply DownloadFile_loop_total, loop_fuel_enough.
  - apply total_bind; [apply total_open |]. intros err. apply total_defer_file_Close.
    apply total_bind; [apply total_check |]. intros _.
    apply total_bind; [apply total_set_deadline |]. intros _.
    apply total_bind; [| intros _; apply total_ret].
    intros e0. apply UploadFile_loop_total, loop_fuel_enough.
Qed.

Local Close Scope go_scope.

(** ** Closed instances *)

Lemma checkResponseCode_spec_witness :
  (checkResponseCode 2 230 = None <-> 230 / 100 = 2) /\
  (checkResponseCode 23 500 = None <-> 500 / 10 = 23) /\
  checkResponseCode 230 500 = Some (bad_response 230 500).
Proof.
  destruct checkResponseCode_spec as (H1 & H2 & H3 & _).
  split; [apply (H1 2 230); lia |].
  split; [apply (H2 23 500); lia |].
  apply (H3 230 500); [lia | discriminate].
Defined.

Lemma Dial_rejects_host_without_port_witness :
  (exists e, ValidationError e /\ Dial (lit "[::1]") refusing = (inl e, refusing)) /\
  (exists e, ValidationError e /\ Dial [] refusing = (inl e, refusing)).
Proof.
  split.
  - apply Dial_rejects_host_without_port. right.
    apply not_colon_port_of_hasPort. reflexivity.
  - apply Dial_rejects_host_without_port. left. reflexivity.
Defined.

(** * Further properties

    What the functions do beyond the statements above: the results of
    [Cmd] in every case, the welcome that [Dial] accepts, and the transfer
    functions from the handshake to the closing of the connections. *)

(** ** What [Cmd] returns *)

Lemma conn_Read_stream n ch data e ch' :
  conn_Read n ch = (data, e, ch') -> data ++ unread (inbox ch') = unread (inbox ch).
Proof.
  unfold conn_Read. generalize n as room. intros room.
  destruct (inbox ch) as [| [c | err] t] eqn:Hin.
  - intros [= <- <- <-]. now rewrite Hin.
  - destruct (length c <=? room)%nat; intros [= <- <- <-]; cbn [inbox set_inbox unread].
    + reflexivity.
    + now rewrite app_assoc, firstn_skipn.
  - intros [= <- <- <-]. reflexivity.
Qed.

Lemma fill_tries_stream i : forall b, stream (fill_tries i b) = stream b.
Proof.
  induction i as [| i IH]; intros b; [reflexivity |].
  rewrite fill_tries_S.
  destruct (conn_Read _ (rd b)) as [[data e] ch] eqn:HR.
  apply conn_Read_stream in HR.
  assert (Hs : stream (mkReader ch (buf b ++ data) (rerr b)) = stream b)
    by (unfold stream; cbn [buf rd]; now rewrite <- app_assoc, HR).
  destruct e as [err |]; [exact Hs |].
  destruct (0 <? length data)%nat; [exact Hs |].
  now rewrite IH.
Qed.

Lemma fill_stream b : stream (fill b) = stream b.
Proof. exact (fill_tries_stream maxConsecutiveEmptyReads b). Qed.

(** What [ReadString] hands out is the head of the stream, and a line handed
    out without error ends with the delimiter. *)
Lemma ReadString_loop_stream fuel : forall delim b acc line e b',
  ReadString_loop fuel delim acc b = Some (line, e, b') ->
  exists got,
    line = acc ++ got /\ got ++ stream b' = stream b /\
    (e = None -> exists body, got = body ++ [delim]).
Proof.
  induction fuel as [| fuel IH]; intros delim b acc line e b'; [discriminate |].
  cbn [ReadString_loop].
  destruct (cut delim (buf b)) as [[l r] |] eqn:Hcut.
  - intros [= <- <- <-]. 
    assert (Hl : buf b = l ++ r /\ exists body, l = body ++ [delim]).
    { clear IH. revert l r Hcut. induction (buf b) as [| c t IHt]; intros l r; [discriminate |].
      simpl. destruct (Ascii.eqb_spec c delim) as [-> | _].
      - intros [= <- <-]. split; [reflexivity | now exists []].
      - destruct (cut delim t) as [[l' r'] |]; [| discriminate].
        intros [= <- <-]. destruct (IHt l' r' eq_refl) as [-> (body & ->)].
        split; [reflexivity | now exists (c :: body)]. }
    destruct Hl as [Hbuf Hbody]. exists l. unfold stream. cbn [buf rd].
    rewrite Hbuf, <- app_assoc. auto.
  - destruct (rerr b) as [err |] eqn:Herr.
    + intros [= <- <- <-]. exists (buf b). unfold stream. cbn [buf rd app].
      split; [reflexivity |]. split; [reflexivity | discriminate].
    + destruct (defaultBufSize <=? length (buf b))%nat.
      * intros H. apply IH in H as (got & -> & Hs & Hgot).
        exists (buf b ++ got). rewrite <- !app_assoc. split; [reflexivity |].
        split.
        -- rewrite Hs. reflexivity.
        -- intros He. destruct (Hgot He) as (body & ->).
           exists (buf b ++ body). now rewrite <- app_assoc.
      * intros H. apply IH in H as (got & -> & Hs & Hgot).
        exists got. rewrite Hs, fill_stream. auto.
Qed.

(** The two ways the loop of [Cmd] ends. *)
Lemma Cmd_loop_outcome fuel : forall response b res b',
  Cmd_loop fuel response b = Some (res, b') ->
  (exists err, res = (0, [], Some err)) \/
  (exists pre ln,
      res = reply_result (response ++ pre ++ ln) /\
      MatchString ln = true /\ (exists body, ln = body ++ [LF]) /\
      (pre ++ ln) ++ stream b' = stream b).
Proof.
  induction fuel as [| fuel IH]; intros response b res b'; [discriminate |].
  cbn [Cmd_loop]. unfold ReadString.
  destruct (ReadString_loop (budget b) LF [] b) as [[[ln [err |]] b1] |] eqn:HR;
    [| | discriminate].
  - intros [= <- <-]. left. now exists err.
  - apply ReadString_loop_stream in HR as (got & Hln & Hs & Hgot).
    cbn [app] in Hln. subst ln.
    destruct (MatchString got) eqn:HM.
    + intros H.
      assert (Hres : res = reply_result (response ++ got) /\ b' = b1).
      { unfold reply_result. destruct (Atoi _) as [t [err |]]; now injection H as <- <-. }
      destruct Hres as [-> ->]. right. exists [], got. cbn [app].
      split; [reflexivity | split; [exact HM | split; [now apply Hgot | exact Hs]]].
    + intros H. apply IH in H as [Herr | (pre & ln & -> & HM' & Hbody & Hs')]; [now left |].
      right. exists (got ++ pre), ln. rewrite <- !app_assoc.
      split; [reflexivity | split; [exact HM' | split; [exact Hbody |]]].
      rewrite <- Hs, <- Hs', <- !app_assoc. reflexivity.
Qed.

(** X1. When [Cmd] reports an error the code is 0.  The response is empty when
    the write or a read failed; when the reply was read and its first three
    bytes are not a number, the response is the whole reply and the error is
    the one of [strconv.Atoi]. *)
Theorem Cmd_error_results c command arg code response err c' :
  Cmd c command arg = Some ((code, response, Some err), c') ->
  code = 0 /\
  (response = [] \/
   (response <> [] /\ exists t, Atoi (firstn 3 response) = (t, Some err))).
Proof.
  unfold Cmd. destruct (conn_Write _ (control c)) as [[werr |] ch].
  - intros [= <- <- <- <-]. split; [reflexivity | now left].
  - destruct (Cmd_loop _ [] (NewReader ch)) as [[res b'] |] eqn:HL; [| discriminate].
    intros [= -> <-].
    apply Cmd_loop_outcome in HL as [(e & [= -> -> ->]) | (pre & ln & Hres & HM & _ & _)].
    + split; [reflexivity | now left].
    + cbn [app] in Hres. unfold reply_result in Hres.
      destruct (Atoi (firstn 3 (pre ++ ln))) as [t [e |]] eqn:HA; [| discriminate Hres].
      injection Hres as -> -> ->. split; [reflexivity |]. right. split.
      * apply MatchString_length in HM. intros H0. apply (f_equal (@length ascii)) in H0.
        rewrite length_app in H0. cbn [length] in H0. lia.
      * now exists t.
Qed.

(** X2. When [Cmd] reports no error, the response ends with a piece, closed by
    a newline, that holds the pattern; the code is the number its first three
    bytes spell; the response is the head of what the connection had to
    deliver, and what followed it is either dropped with the reader or still
    unread; the command, a space, the argument and CRLF have been added to
    what was written. *)
Theorem Cmd_success_results c command arg code response c' :
  Cmd c command arg = Some ((code, response, None), c') ->
  exists pre ln dropped t,
    response = pre ++ ln /\ MatchString ln = true /\ (exists body, ln = body ++ [LF]) /\
    Atoi (firstn 3 response) = (t, None) /\ code = to_uint t /\
    unread (inbox (control c)) = response ++ dropped ++ unread (inbox (control c')) /\
    outbox (control c') = outbox (control c) ++ command ++ lit " " ++ arg ++ CRLF.
Proof.
  unfold Cmd. destruct (conn_Write _ (control c)) as [[werr |] ch] eqn:HW; [discriminate |].
  destruct (Cmd_loop _ [] (NewReader ch)) as [[res b'] |] eqn:HL; [| discriminate].
  intros [= -> <-].
  pose proof (Cmd_loop_frame _ _ _ _ _ HL) as Hrd. cbn [NewReader rd] in Hrd.
  apply Cmd_loop_outcome in HL as [(e & He) | (pre & ln & Hres & HM & Hbody & Hs)];
    [discriminate He |].
  cbn [app] in Hres. unfold reply_result in Hres.
  destruct (Atoi (firstn 3 (pre ++ ln))) as [t [e |]] eqn:HA; [discriminate Hres |].
  injection Hres as -> ->.
  assert (Hch : inbox ch = inbox (control c) /\
                outbox ch = outbox (control c) ++ command ++ lit " " ++ arg ++ CRLF).
  { revert HW. unfold conn_Write. destruct (wfaults (control c)) as [| [e |] w];
      intros [= <-]; split; reflexivity. }
  destruct Hch as [Hin Hout].
  exists pre, ln, (buf b'), t.
  split; [reflexivity | split; [exact HM | split; [exact Hbody | split; [exact HA |]]]].
  split; [reflexivity |]. cbn [control]. split.
  - rewrite <- Hin. unfold stream in Hs. cbn [NewReader buf rd app] in Hs.
    rewrite <- Hs, <- app_assoc. reflexivity.
  - rewrite Hrd. cbn [set_inbox outbox]. exact Hout.
Qed.

(** X3. When the write of the command fails, [Cmd] returns the error of the
    write with code 0 and an empty response, and reads nothing: what the
    server had sent stays unread, and nothing is recorded as written. *)
Theorem Cmd_write_failure c command arg e faults :
  wfaults (control c) = Some e :: faults ->
  exists c',
    Cmd c command arg = Some ((0, [], Some e), c') /\
    inbox (control c') = inbox (control c) /\
    outbox (control c') = outbox (control c) /\
    wfaults (control c') = faults.
Proof.
  intros Hw. unfold Cmd, conn_Write. rewrite Hw. eexists. split; [reflexivity |].
  repeat split.
Qed.

Lemma stands_no_LF b ch cs tail partial :
  stands b ch cs tail partial -> ~ In LF partial -> ~ In LF (buf b).
Proof.
  intros (_ & _ & _ & <-) Hno Hin. apply Hno, in_or_app. now left.
Qed.

(** [ReadString] on a stream that ends, or fails, before the next newline:
    the error comes back and what had been read is in the result. *)
Lemma ReadString_loop_fails fuel : forall b ch cs tail partial acc,
  stands b ch cs tail partial -> ~ In LF partial -> no_chunk_ahead tail ->
  (2 * length (concat cs) + Nat.min 1 (length (buf b)) + 2 < fuel)%nat ->
  ReadString_loop fuel LF acc b =
    Some (acc ++ partial, Some (read_failure tail), mkReader (set_inbox ch (tl tail)) [] None).
Proof.
  induction fuel as [| fuel IH]; intros b ch cs tail partial acc Hst Hno Htail Hfuel; [lia |].
  pose proof (stands_no_LF _ _ _ _ _ Hst Hno) as Hnb.
  destruct Hst as (Herr & Hne & Hrd & Hbuf).
  cbn [ReadString_loop]. rewrite cut_none by exact Hnb. rewrite Herr.
  destruct (defaultBufSize <=? length (buf b))%nat eqn:E;
    [apply Nat.leb_le in E | apply Nat.leb_gt in E].
  - rewrite (IH (mkReader (rd b) [] None) ch cs tail (concat cs) (acc ++ buf b)).
    + now rewrite <- Hbuf, <- app_assoc.
    + repeat split; auto.
    + intros Hin. apply Hno. rewrite <- Hbuf. apply in_or_app. now right.
    + exact Htail.
    + cbn [buf length]. unfold defaultBufSize in E. lia.
  - destruct cs as [| c cs0].
    + cbn [concat] in Hbuf. rewrite app_nil_r in Hbuf. cbn [map app] in Hrd.
      destruct fuel as [| fuel]; [cbn [concat length] in Hfuel; lia |].
      unfold fill, maxConsecutiveEmptyReads. change 100%nat with (S 99).
      rewrite fill_tries_S. unfold conn_Read. rewrite Hrd. cbn [inbox set_inbox].
      destruct tail as [| [data | e] r]; [| destruct Htail |].
      * cbn [ReadString_loop buf rerr rd]. rewrite app_nil_r, cut_none by exact Hnb.
        now rewrite Hbuf.
      * cbn [ReadString_loop buf rerr rd]. rewrite app_nil_r, cut_none by exact Hnb.
        now rewrite Hbuf.
    + inversion Hne as [| ? ? Hc Hne0]; subst.
      assert (Hin : inbox (rd b) = Chunk c :: map Chunk cs0 ++ tail)
        by (rewrite Hrd; reflexivity).
      destruct (fill_chunk b c _ Herr Hin Hc E) as (data & left_ & Hsplit & Hdata & Hfill).
      rewrite Hfill.
      assert (Hpos : (0 < length data)%nat) by (destruct data; [congruence | simpl; lia]).
      apply IH with (cs := match left_ with [] => cs0 | _ => left_ :: cs0 end).
      * repeat split.
        -- destruct left_; [exact Hne0 |]. constructor; [discriminate | exact Hne0].
        -- cbn [rd]. rewrite Hrd. destruct left_; reflexivity.
        -- cbn [buf]. cbn [concat]. rewrite Hsplit.
           destruct left_; cbn [concat]; now rewrite ?app_nil_r, <- ?app_assoc.
      * exact Hno.
      * exact Htail.
      * cbn [buf]. cbn [concat] in Hfuel. rewrite Hsplit, !length_app in Hfuel.
        destruct left_; cbn [concat length] in *; rewrite ?length_app in *;
          cbn [length] in *; lia.
Qed.

Lemma Cmd_loop_fails lines : forall fuel b ch cs tail partial response,
  Forall continuation lines -> ~ In LF partial -> no_chunk_ahead tail ->
  stands b ch cs tail (concat lines ++ partial) ->
  (length lines < fuel)%nat ->
  Cmd_loop fuel response b =
    Some ((0, [], Some (read_failure tail)), mkReader (set_inbox ch (tl tail)) [] None).
Proof.
  induction lines as [| l lines IH];
    intros fuel b ch cs tail partial response Hlines Hno Htail Hst Hfuel;
    (destruct fuel as [| fuel]; [simpl in Hfuel; lia |]); cbn [Cmd_loop].
  - cbn [concat app] in Hst. unfold ReadString.
    rewrite (ReadString_loop_fails (budget b) b ch cs tail partial [] Hst Hno Htail).
    + reflexivity.
    + pose proof (stands_budget _ _ _ _ _ Hst) as Hb. 
      destruct Hst as (_ & _ & Hrd & _). unfold budget, pending in *.
      rewrite Hrd, inbox_set_inbox in *. rewrite unread_app, unread_chunks, length_app in *.
      lia.
  - inversion Hlines as [| ? ? [(body & -> & Hnb) Hcont] Hrest]; subst.
    cbn [concat] in Hst. rewrite <- app_assoc in Hst.
    destruct (ReadString_line b ch cs tail body _ Hst Hnb) as (b' & cs' & -> & Hst').
    rewrite Hcont.
    apply (IH fuel b' ch cs' tail partial); auto. simpl in Hfuel. lia.
Qed.

(** X4. The reply breaks off: after some continuation lines the stream ends,
    or a read fails, before a terminal line is complete.  [Cmd] returns code
    0, an empty response and the error of the read ([io.EOF] at the end of the
    stream); what had been read of the reply is lost. *)
Theorem Cmd_incomplete_reply c command arg lines partial cs tail :
  write_ok (control c) ->
  inbox (control c) = map Chunk cs ++ tail -> nonempty_chunks cs ->
  concat cs = concat lines ++ partial ->
  Forall continuation lines -> ~ In LF partial -> no_chunk_ahead tail ->
  Cmd c command arg =
    Some ((0, [], Some (read_failure tail)), after_Cmd c command arg (tl tail)).
Proof.
  intros Hw Hin Hne Hcs Hlines Hno Htail. unfold Cmd.
  rewrite conn_Write_ok by exact Hw.
  set (ch := mkChannel _ _ _ _ _ _).
  rewrite (Cmd_loop_fails lines (S (pending (inbox ch))) (NewReader ch) ch cs tail partial []
             Hlines Hno Htail).
  - reflexivity.
  - repeat split; auto. cbn [NewReader rd]. unfold ch, set_inbox. cbn. now rewrite Hin.
  - unfold pending. cbn [ch inbox]. rewrite Hin, unread_app, unread_chunks, Hcs, !length_app.
    pose proof (lines_length lines Hlines). lia.
Qed.

Lemma Cmd_incomplete_reply_witness :
  Cmd (session [Chunk (lit "150-Opening" ++ CRLF ++ lit "226 Transf")]) (lit "RETR") (lit "f")
  = Some ((0, [], Some EOF),
          after_Cmd (session [Chunk (lit "150-Opening" ++ CRLF ++ lit "226 Transf")])
                    (lit "RETR") (lit "f") []).
Proof.
  apply (Cmd_incomplete_reply _ _ _ [(lit "150-Opening" ++ [CR]) ++ [LF]] (lit "226 Transf")
           [lit "150-Opening" ++ CRLF ++ lit "226 Transf"] []).
  - exact I.
  - reflexivity.
  - repeat constructor. discriminate.
  - reflexivity.
  - apply Forall_cons; [apply continuation_intro; reflexivity | apply Forall_nil].
  - intros H. cbn in H. repeat (destruct H as [H | H]; [discriminate H |]). exact H.
  - exact I.
Defined.

(** X5. The test that ends the loop of [Cmd] holds exactly when three digits
    followed by a space occur somewhere in the line. *)
Theorem MatchString_iff s : MatchString s = true <-> holds_code s.
Proof.
  split.
  - induction s as [| c t IH]; [discriminate |].
    cbn [MatchString]. intros H. apply orb_true_iff in H as [H | H].
    + destruct t as [| d2 [| d3 [| sp post]]]; try discriminate H.
      cbn [code_here] in H. rewrite !andb_true_iff in H.
      destruct H as [[[H1 H2] H3] H4]. apply Ascii.eqb_eq in H4 as ->.
      exists [], c, d2, d3, post. auto.
    + destruct (IH H) as (pre & d1 & d2 & d3 & post & -> & Hd).
      exists (c :: pre), d1, d2, d3, post. auto.
  - intros (pre & d1 & d2 & d3 & post & -> & H1 & H2 & H3).
    induction pre as [| c pre IH].
    + cbn [app MatchString code_here]. now rewrite H1, H2, H3.
    + cbn [app MatchString]. rewrite IH. apply orb_true_r.
Qed.

Lemma Cmd_error_results_witness :
  (0 : Z) = 0 /\
  (lit "abc 123 " ++ CRLF = [] \/
   (lit "abc 123 " ++ CRLF <> [] /\
    exists t, Atoi (firstn 3 (lit "abc 123 " ++ CRLF))
              = (t, Some (NumError (lit "Atoi") (lit "abc") ErrSyntax)))).
Proof.
  eapply (Cmd_error_results (session [Chunk (lit "abc 123 " ++ CRLF)]) (lit "NOOP") []).
  vm_compute. reflexivity.
Defined.

Lemma Cmd_success_results_witness :
  exists pre ln dropped t,
    lit "200 ok" ++ CRLF = pre ++ ln /\ MatchString ln = true /\
    (exists body, ln = body ++ [LF]) /\
    Atoi (firstn 3 (lit "200 ok" ++ CRLF)) = (t, None) /\ 200 = to_uint t /\
    unread (inbox (control (session [Chunk (lit "200 ok" ++ CRLF ++ lit "22")]))) =
      (lit "200 ok" ++ CRLF) ++ dropped ++ unread (inbox (fresh_channel [])) /\
    outbox (mkChannel [] [] (lit "NOOP " ++ CRLF) false None None) =
      outbox (control (session [Chunk (lit "200 ok" ++ CRLF ++ lit "22")]))
      ++ lit "NOOP" ++ lit " " ++ [] ++ CRLF.
Proof.
  apply (Cmd_success_results (session [Chunk (lit "200 ok" ++ CRLF ++ lit "22")])
           (lit "NOOP") [] 200 (lit "200 ok" ++ CRLF)
           (mkConnection (mkChannel [] [] (lit "NOOP " ++ CRLF) false None None)
                         (lit "ftp.example.org"))).
  vm_compute. reflexivity.
Defined.

Lemma Cmd_write_failure_witness :
  exists c',
    Cmd (mkConnection (mkChannel [Chunk (lit "200 ok" ++ CRLF)] [Some (SysError (lit "broken pipe"))]
                         [] false None None) (lit "h")) (lit "NOOP") [] =
      Some ((0, [], Some (SysError (lit "broken pipe"))), c') /\
    inbox (control c') = [Chunk (lit "200 ok" ++ CRLF)] /\
    outbox (control c') = [] /\ wfaults (control c') = [].
Proof.
  exact (Cmd_write_failure
           (mkConnection (mkChannel [Chunk (lit "200 ok" ++ CRLF)]
                            [Some (SysError (lit "broken pipe"))] [] false None None) (lit "h"))
           (lit "NOOP") [] (SysError (lit "broken pipe")) [] eq_refl).
Defined.

(** ** The welcome of [Dial] *)

Lemma Split_head sep s : nth 0 (Split s sep) [] = up_to sep s.
Proof.
  induction s as [| c t IH]; [reflexivity |].
  cbn [Split up_to]. destruct (Ascii.eqb c sep); [reflexivity |].
  destruct (Split t sep) as [| w ws] eqn:E; cbn [nth] in *; now rewrite <- IH.
Qed.

Lemma ParseUint_loop_syntax d : forall n x t,
  all_digits d -> is_digit x = false -> 0 <= n -> digits_from n d <= maxUint64 ->
  ParseUint_loop n (d ++ x :: t) = (0, Some ErrSyntax).
Proof.
  induction d as [| c d IH]; intros n x t Hd Hx Hn Hmax.
  - cbn [app ParseUint_loop]. now rewrite Hx.
  - inversion Hd as [| ? ? Hc Hd']; subst.
    cbn [app ParseUint_loop]. rewrite Hc. rewrite digits_from_cons in Hmax.
    pose proof (is_digit_val c Hc) as Hv.
    pose proof (digits_from_ge d (n * 10 + digit_val c) ltac:(lia) Hd') as Hge.
    assert (Hm : maxUint64 = 18446744073709551615) by reflexivity.
    assert (Hcut : maxUint64 / 10 + 1 = 1844674407370955162) by reflexivity.
    rewrite Hcut.
    replace (1844674407370955162 <=? n) with false by (symmetry; apply Z.leb_gt; lia).
    replace (maxUint64 <? n * 10 + digit_val c) with false by (symmetry; apply Z.ltb_ge; lia).
    apply IH; auto. lia.
Qed.

Lemma digit_2 a : is_digit a = true -> digit_val a = 2 -> a = "2"%char.
Proof.
  unfold digit_val. intros _ H.
  assert (HN : N_of_ascii a = 50%N) by lia.
  rewrite <- (ascii_N_embedding a), HN. reflexivity.
Qed.

Lemma digits_value_three a b c :
  digits_value [a; b; c] = (digit_val a * 10 + digit_val b) * 10 + digit_val c.
Proof. reflexivity. Qed.

Lemma digits_value_two b c : digits_value [b; c] = digit_val b * 10 + digit_val c.
Proof. reflexivity. Qed.

Lemma to_uint_neg_small v : 0 <= v <= 99 -> to_uint (- v) / 100 <> 2.
Proof.
  intros Hv. unfold to_uint.
  assert (H64 : 2 ^ 64 = 18446744073709551616) by reflexivity. rewrite H64.
  destruct (Z.eq_dec v 0) as [-> | Hne]; [compute; discriminate |].
  replace (- v) with (18446744073709551616 - v + (-1) * 18446744073709551616) by lia.
  rewrite Z.mod_add by lia. rewrite Z.mod_small by lia.
  intros H. 
  assert (Hdiv : (18446744073709551616 - v) / 100 >= 184467440737095515).
  { apply Z.le_ge. apply Z.div_le_lower_bound; lia. }
  lia.
Qed.

(** Which three bytes make [Atoi] return a code of class 2. *)
Lemma Atoi_three_2xx a b c :
  to_uint (fst (Atoi [a; b; c])) / 100 = 2 <->
  a = "2"%char /\ is_digit b = true /\ is_digit c = true.
Proof.
  assert (Hint : maxInt64 = 9223372036854775807) by reflexivity.
  assert (Hmax : maxUint64 = 18446744073709551615) by reflexivity.
  assert (H63 : 2 ^ 63 = 9223372036854775808) by reflexivity.
  assert (H64 : 2 ^ 64 = 18446744073709551616) by reflexivity.
  assert (Hzero : to_uint 0 / 100 = 2 <-> False) by (compute; split; [discriminate | tauto]).
  destruct (is_digit a) eqn:Ha.
  - pose proof (is_digit_val a Ha) as Hva.
    destruct (is_digit b) eqn:Hb.
    + pose proof (is_digit_val b Hb) as Hvb.
      destruct (is_digit c) eqn:Hc.
      * pose proof (is_digit_val c Hc) as Hvc.
        assert (Hd : digits [a; b; c]) by (split; [discriminate | repeat constructor; auto]).
        rewrite (Atoi_digits_full _ Hd), digits_value_three.
        replace (_ <=? maxInt64) with true by (symmetry; apply Z.leb_le; lia).
        cbn [fst]. rewrite to_uint_small by lia. split.
        -- intros H. split; [| auto]. apply digit_2; [exact Ha |].
           assert (200 <= (digit_val a * 10 + digit_val b) * 10 + digit_val c < 300); [| lia].
           pose proof (Z.div_mod ((digit_val a * 10 + digit_val b) * 10 + digit_val c) 100
                         ltac:(lia)).
           pose proof (Z.mod_pos_bound ((digit_val a * 10 + digit_val b) * 10 + digit_val c) 100
                         ltac:(lia)). lia.
        -- intros [-> _]. change (digit_val "2") with 2.
           symmetry. apply Z.div_unique with (r := digit_val b * 10 + digit_val c); lia.
      * replace (Atoi [a; b; c]) with (0, Some (NumError (lit "Atoi") [a; b; c] ErrSyntax)).
        -- cbn [fst]. rewrite Hzero. split; [tauto | intros (_ & _ & H); discriminate H].
        -- destruct (is_digit_not_sign a Ha) as [Hp Hm].
           unfold Atoi, ParseInt. rewrite Hp, Hm. cbn [orb].
           change (ParseUint [a; b; c]) with (ParseUint_loop 0 ([a; b] ++ [c])).
           rewrite (ParseUint_loop_syntax [a; b] 0 c []);
             [reflexivity | repeat constructor; auto | exact Hc | lia |].
           unfold digits_from. cbn [fold_left]. lia.
    + replace (Atoi [a; b; c]) with (0, Some (NumError (lit "Atoi") [a; b; c] ErrSyntax)).
      * cbn [fst]. rewrite Hzero. split; [tauto | intros (_ & H & _); discriminate H].
      * destruct (is_digit_not_sign a Ha) as [Hp Hm].
        unfold Atoi, ParseInt. rewrite Hp, Hm. cbn [orb].
        change (ParseUint [a; b; c]) with (ParseUint_loop 0 ([a] ++ b :: [c])).
        rewrite (ParseUint_loop_syntax [a] 0 b [c]);
          [reflexivity | repeat constructor; auto | exact Hb | lia |].
        unfold digits_from. cbn [fold_left]. lia.
  - assert (Hna : a <> "2"%char) by (intros ->; discriminate Ha).
    split; [| intros [H _]; contradiction].
    intros H. exfalso. revert H.
    unfold Atoi, ParseInt.
    destruct (Ascii.eqb a "+" || Ascii.eqb a "-") eqn:Hs.
    + change (ParseUint [b; c]) with (ParseUint_loop 0 [b; c]).
      destruct (is_digit b) eqn:Hb.
      * pose proof (is_digit_val b Hb) as Hvb.
        destruct (is_digit c) eqn:Hc.
        -- pose proof (is_digit_val c Hc) as Hvc.
           rewrite ParseUint_loop_digits by (try lia; repeat constructor; auto).
           fold (digits_value [b; c]). rewrite digits_value_two.
           replace (_ <=? maxUint64) with true by (symmetry; apply Z.leb_le; lia).
           cbv iota beta. rewrite H63.
           replace (9223372036854775808 <=? _) with false by (symmetry; apply Z.leb_gt; lia).
           replace (9223372036854775808 <? _) with false by (symmetry; apply Z.ltb_ge; lia).
           rewrite !andb_false_r. cbv iota beta. cbn [fst].
           destruct (Ascii.eqb a "-"); cbn [fst].
           ++ apply to_uint_neg_small. lia.
           ++ rewrite to_uint_small by lia. intros H.
              assert (Hq : (digit_val b * 10 + digit_val c) / 100 = 0)
                by (apply Z.div_small; lia). lia.
        -- change [b; c] with ([b] ++ [c]).
           rewrite (ParseUint_loop_syntax [b] 0 c []);
             [| repeat constructor; auto | exact Hc | lia
              | unfold digits_from; cbn [fold_left]; lia].
           cbn [fst]. now rewrite Hzero.
      * cbn [ParseUint_loop]. rewrite Hb. cbn [fst]. now rewrite Hzero.
    + change (ParseUint [a; b; c]) with (ParseUint_loop 0 [a; b; c]).
      cbn [ParseUint_loop]. rewrite Ha. cbn [fst]. now rewrite Hzero.
Qed.

Lemma firstn_repeat_zero k n : (k <= n)%nat -> firstn k (repeat zero n) = repeat zero k.
Proof.
  revert n. induction k as [| k IH]; intros n Hk; [reflexivity |].
  destruct n as [| n]; [lia |]. cbn [repeat firstn]. rewrite IH by lia. reflexivity.
Qed.

(** The three bytes [Dial] parses, whatever the size [n >= 3] of its buffer. *)
Lemma welcome_first3 n data :
  (3 <= n)%nat ->
  let got := if (length data <=? n)%nat then data else firstn n data in
  firstn 3 (got ++ repeat zero (n - length got)) = first3 data.
Proof.
  intros Hn. unfold first3. cbv zeta.
  destruct (length data <=? n)%nat eqn:E; [apply Nat.leb_le in E | apply Nat.leb_gt in E].
  - rewrite !firstn_app. f_equal.
    rewrite firstn_repeat_zero by lia.
    change [zero; zero; zero] with (repeat zero 3). rewrite firstn_repeat_zero by lia.
    reflexivity.
  - rewrite !firstn_app, firstn_firstn, length_firstn.
    rewrite Nat.min_l by lia.
    replace (3 - Nat.min n (length data))%nat with 0%nat by lia.
    replace (3 - length data)%nat with 0%nat by lia. reflexivity.
Qed.

Lemma first3_2xx data :
  to_uint (fst (Atoi (first3 data))) / 100 = 2 <-> welcome_2xx data = true.
Proof.
  assert (Hz : is_digit zero = false) by reflexivity.
  unfold first3.
  destruct data as [| a [| b [| c t]]]; cbn [app firstn welcome_2xx];
    rewrite Atoi_three_2xx.
  - split; [intros [H _]; discriminate H | discriminate].
  - split; [intros (_ & H & _); discriminate H | discriminate].
  - split; [intros (_ & _ & H); discriminate H | discriminate].
  - rewrite !andb_true_iff. split.
    + intros (-> & Hb & Hc). auto.
    + intros [[Ha Hb] Hc]. apply Ascii.eqb_eq in Ha. auto.
Qed.

Lemma checkResponseCode_2 code :
  checkResponseCode 2 code = None <-> code / 100 = 2.
Proof. rewrite checkResponseCode_None. lia. Qed.

(** X6. [Dial] on a host with a port, once the connection is made and its
    first read delivers [data].  The welcome is accepted exactly when its
    first three bytes are '2' and two digits; the session then has the host up
    to its first colon as host name, and at most 1024 bytes have been
    consumed.  Any other welcome is an error that wraps the classification
    failure.  The dial is recorded in both cases. *)
Theorem Dial_welcome host w ch data rest :
  host <> [] -> hasPort host = true ->
  net w host = inr ch -> inbox ch = Chunk data :: rest ->
  Dial host w =
    if welcome_2xx data then
      (inr (mkConnection
              (set_inbox ch (if (length data <=? 1024)%nat then rest
                             else Chunk (skipn 1024 data) :: rest))
              (up_to ":" host)),
       dialled host w)
    else
      (inl (Errorf_v (lit "Couldn't read the server's Welcome Message. Error: ")
              (bad_response 2 (to_uint (fst (Atoi (first3 data))))) []),
       dialled host w).
Proof.
  intros Hhost Hport Hnet Hin. unfold Dial.
  destruct host as [| h0 host]; [congruence |]. cbn [str_eqb].
  rewrite Hport. cbn [negb]. unfold net_Dial. rewrite Hnet. fold (dialled (h0 :: host) w).
  unfold conn_Read. rewrite Hin.
  set (n := 1024%nat). assert (Hn : (3 <= n)%nat) by (unfold n; lia). clearbody n.
  pose proof (welcome_first3 n data Hn) as H3. cbv zeta in H3.
  pose proof (first3_2xx data) as H2.
  destruct (length data <=? n)%nat; rewrite H3;
    (destruct (Atoi (first3 data)) as [code err] eqn:HA; cbn [fst] in *;
     destruct (welcome_2xx data);
     [ rewrite (proj2 (checkResponseCode_2 _) (proj2 H2 eq_refl)), Split_head; reflexivity
     | destruct (checkResponseCode_cases 2 (to_uint code)) as [Hn0 | ->];
       [ apply checkResponseCode_2, H2 in Hn0; discriminate Hn0 | reflexivity ] ]).
Qed.

(** X7. [Dial] on a host with a port returns the error of a failed dial as it
    is, and wraps the error of a failed first read, which is [io.EOF] when the
    server says nothing. *)
Theorem Dial_connection_errors host w :
  host <> [] -> hasPort host = true ->
  (forall err, net w host = inl err -> Dial host w = (inl err, dialled host w)) /\
  (forall ch, net w host = inr ch -> no_chunk_ahead (inbox ch) ->
     Dial host w =
       (inl (Errorf_v
               (lit "Couldn't read the server's initital connection information. Error: ")
               (read_failure (inbox ch)) []),
        dialled host w)).
Proof.
  intros Hhost Hport.
  destruct host as [| h0 host]; [congruence |].
  split.
  - intros err Hnet. unfold Dial. cbn [str_eqb]. rewrite Hport. cbn [negb].
    unfold net_Dial. now rewrite Hnet.
  - intros ch Hnet Htail. unfold Dial. cbn [str_eqb]. rewrite Hport. cbn [negb].
    unfold net_Dial. rewrite Hnet. unfold conn_Read.
    destruct (inbox ch) as [| [data | e] t]; [reflexivity | destruct Htail | reflexivity].
Qed.

(** ** The classifier, as ranges *)

(** X8. The codes an expectation lets through, as ranges: a class [e] in 1..9
    accepts exactly the codes from [100 * e] to [100 * e + 99], a prefix [e]
    in 10..99 exactly those from [10 * e] to [10 * e + 9], and an expectation
    of 0, or of 1000 and more, accepts every code. *)
Theorem checkResponseCode_accepts expectCode code :
  0 <= code ->
  (1 <= expectCode <= 9 ->
   (checkResponseCode expectCode code = None <->
    100 * expectCode <= code <= 100 * expectCode + 99)) /\
  (10 <= expectCode <= 99 ->
   (checkResponseCode expectCode code = None <->
    10 * expectCode <= code <= 10 * expectCode + 9)) /\
  (expectCode < 1 \/ 1000 <= expectCode -> checkResponseCode expectCode code = None).
Proof.
  intros Hc. rewrite !checkResponseCode_None. split; [| split]; intros He.
  - assert (Hd : code / 100 = expectCode <-> 100 * expectCode <= code <= 100 * expectCode + 99)
      by (Z.div_mod_to_equations; lia).
    rewrite <- Hd. destruct (Z.eq_dec (code / 100) expectCode) as [E | E].
    + split; [auto | intros _ [[_ H] | [[H _] | [H _]]]; [auto | lia | lia]].
    + split; [intros H; exfalso; apply H; left; split; [lia | exact E] | contradiction].
  - assert (Hd : code / 10 = expectCode <-> 10 * expectCode <= code <= 10 * expectCode + 9)
      by (Z.div_mod_to_equations; lia).
    rewrite <- Hd. destruct (Z.eq_dec (code / 10) expectCode) as [E | E].
    + split; [auto | intros _ [[H _] | [[_ H] | [H _]]]; [lia | auto | lia]].
    + split; [intros H; exfalso; apply H; right; left; split; [lia | exact E] | contradiction].
  - intros [[H _] | [[H _] | [H _]]]; lia.
Qed.

Lemma checkResponseCode_accepts_witness :
  (checkResponseCode 2 299 = None <-> 100 * 2 <= 299 <= 100 * 2 + 99) /\
  (checkResponseCode 23 300 = None <-> 10 * 23 <= 300 <= 10 * 23 + 9) /\
  checkResponseCode 0 530 = None.
Proof.
  split; [| split].
  - apply (checkResponseCode_accepts 2 299); lia.
  - apply (checkResponseCode_accepts 23 300); lia.
  - apply (checkResponseCode_accepts 0 530); lia.
Defined.

(** ** Host names *)

(** X9. The three forms the comment of [hasPort] names.  A colon followed by
    no closing bracket is a port, whatever comes before it and however little
    comes after it; a host without a colon has none; and neither has a host
    that ends in a closing bracket. *)
Theorem hasPort_forms :
  (forall h p, ~ In "]"%char p -> hasPort (h ++ ":"%char :: p) = true) /\
  (forall s, ~ In ":"%char s -> hasPort s = false) /\
  (forall s, hasPort (s ++ ["]"%char]) = false).
Proof.
  split; [| split].
  - intros h p Hp. apply hasPort_colon_port. exists (length h). split.
    + rewrite nth_error_app2 by lia. rewrite Nat.sub_diag. reflexivity.
    + intros j Hj. destruct (Nat.lt_ge_cases j (length h)) as [Hlt | Hge]; [exact Hlt |].
      exfalso. rewrite nth_error_app2 in Hj by lia.
      destruct (j - length h)%nat as [| k]; cbn [nth_error] in Hj; [discriminate |].
      apply nth_error_In in Hj. contradiction.
  - intros s Hs. destruct (hasPort s) eqn:E; [| reflexivity].
    apply hasPort_colon_port in E as (i & Hi & _). apply nth_error_In in Hi. contradiction.
  - intros s. destruct (hasPort (s ++ ["]"%char])) eqn:E; [| reflexivity]. exfalso.
    apply hasPort_colon_port in E as (i & Hi & Hj).
    assert (Hl : nth_error (s ++ ["]"%char]) (length s) = Some "]"%char).
    { rewrite nth_error_app2 by lia. rewrite Nat.sub_diag. reflexivity. }
    apply Hj in Hl.
    assert (Hlen : (i < length (s ++ ["]"%char]))%nat) by (apply nth_error_Some; congruence).
    rewrite length_app in Hlen. cbn [length] in Hlen. lia.
Qed.

(** ** Passive-mode decoder *)

(** X10. With both port groups at most 255, as RFC 959 has them, the decoded
    port is exact and fits sixteen bits. *)
Theorem extractDataPort_octets body pre h1 h2 h3 h4 p1 p2 post :
  port_match body pre h1 h2 h3 h4 p1 p2 post ->
  digits_value p1 <= 255 -> digits_value p2 <= 255 ->
  extractDataPort body = (digits_value p1 * 256 + digits_value p2, None) /\
  0 <= digits_value p1 * 256 + digits_value p2 <= 65535.
Proof.
  intros Hm H1 H2.
  assert (G1 : 0 <= digits_value p1) by (apply digits_from_ge; [lia | apply (pm_p1 _ _ _ _ _ _ _ _ _ Hm)]).
  assert (G2 : 0 <= digits_value p2) by (apply digits_from_ge; [lia | apply (pm_p2 _ _ _ _ _ _ _ _ _ Hm)]).
  split; [| lia].
  rewrite (extractDataPort_match _ _ _ _ _ _ _ _ _ Hm).
  rewrite (Atoi_digits _ (pm_p1 _ _ _ _ _ _ _ _ _ Hm)), (Atoi_digits _ (pm_p2 _ _ _ _ _ _ _ _ _ Hm)).
  unfold maxInt64. rewrite !Z.min_l by lia. rewrite to_uint_small by lia. reflexivity.
Qed.

(** X11. The address the server announces plays no part: two replies whose
    matches end in the same two groups decode to the same port. *)
Theorem extractDataPort_ignores_address
    body pre h1 h2 h3 h4 post body' pre' h1' h2' h3' h4' post' p1 p2 :
  port_match body pre h1 h2 h3 h4 p1 p2 post ->
  port_match body' pre' h1' h2' h3' h4' p1 p2 post' ->
  extractDataPort body = extractDataPort body'.
Proof.
  intros Hm Hm'.
  rewrite (extractDataPort_match _ _ _ _ _ _ _ _ _ Hm).
  rewrite (extractDataPort_match _ _ _ _ _ _ _ _ _ Hm'). reflexivity.
Qed.

(** ** Login *)

Lemma conn_Write_free p ch :
  wfaults ch = [] ->
  wfaults (snd (conn_Write p ch)) = [] /\ outbox (snd (conn_Write p ch)) = outbox ch ++ p.
Proof. intros H. unfold conn_Write. rewrite H. split; reflexivity. Qed.

(** X12. [Login] writes USER and then PASS, whatever became of the USER
    exchange, and leaves the connection as open as it was. *)
Theorem Login_sends_both c user password :
  user <> [] -> password <> [] -> wfaults (control c) = [] ->
  exists err c',
    Login c user password = Some (err, c') /\
    outbox (control c') =
      outbox (control c) ++ (lit "USER" ++ lit " " ++ user ++ CRLF)
                         ++ (lit "PASS" ++ lit " " ++ password ++ CRLF) /\
    hostname c' = hostname c /\ closed (control c') = closed (control c).
Proof.
  intros Hu Hp Hw.
  destruct (Login_returns_PASS_error c user password Hu Hp)
    as (r1 & c1 & code & response & err & c2 & H1 & H2 & HL).
  exists err, c2. split; [exact HL |].
  apply Cmd_frame in H1 as [Hh1 Hc1]. apply Cmd_frame in H2 as [Hh2 Hc2].
  destruct (conn_Write_free (lit "USER" ++ lit " " ++ user ++ CRLF) (control c) Hw) as [Hw1 Ho1].
  assert (Hw1' : wfaults (control c1) = []) by (rewrite Hc1; exact Hw1).
  destruct (conn_Write_free (lit "PASS" ++ lit " " ++ password ++ CRLF) (control c1) Hw1')
    as [_ Ho2].
  split; [| split].
  - rewrite Hc2. cbn [set_inbox outbox]. rewrite Ho2, Hc1. cbn [set_inbox outbox].
    rewrite Ho1. symmetry. apply app_assoc.
  - congruence.
  - rewrite Hc2. cbn [set_inbox closed]. rewrite conn_Write_closed, Hc1.
    cbn [set_inbox closed]. apply conn_Write_closed.
Qed.

Lemma Cmd_single_reply c command arg lines term cs rest :
  write_ok (control c) ->
  inbox (control c) = map Chunk cs ++ rest -> nonempty_chunks cs ->
  concat cs = concat lines ++ term ->
  Forall continuation lines -> is_line term -> MatchString term = true ->
  Cmd c command arg =
    Some (reply_result (concat lines ++ term), after_Cmd c command arg rest).
Proof.
  intros Hw Hin Hne Hcs Hl Ht Hm.
  destruct (Cmd_reply c command arg lines term cs rest [] Hw Hin Hne) as (dropped & cs' & HC & Hne' & Hx);
    [now rewrite app_nil_r | exact Hl | exact Ht | exact Hm |].
  symmetry in Hx. apply app_eq_nil in Hx as [_ Hx].
  destruct cs' as [| c0 cs']; [exact HC |].
  inversion Hne' as [| ? ? Hc0 _]; subst. cbn [concat] in Hx.
  apply app_eq_nil in Hx as [Hx _]. contradiction.
Qed.

Lemma terminal_nonempty l : terminal l -> l <> [].
Proof. intros [(body & -> & _) _]. now destruct body. Qed.

(** X13. The reply codes are not looked at.  The writes succeed; the reply
    to USER, of one line or more, ends where a chunk ends; the reply to PASS
    arrives after it in chunks of its own and is one line that begins with
    three digits and a space.  Then [Login] returns no error, whatever the
    two codes are, and both replies have been consumed. *)
Theorem Login_ignores_codes c user password lines term cs l2 cs2 rest :
  user <> [] -> password <> [] -> wfaults (control c) = [] ->
  inbox (control c) = map Chunk cs ++ map Chunk cs2 ++ rest ->
  nonempty_chunks cs -> nonempty_chunks cs2 ->
  concat cs = concat lines ++ term ->
  Forall continuation lines -> is_line term -> MatchString term = true ->
  concat cs2 = l2 -> terminal l2 ->
  Login c user password =
    Some (None, after_Cmd (after_Cmd c (lit "USER") user (map Chunk cs2 ++ rest))
                          (lit "PASS") password rest).
Proof.
  intros Hu Hp Hw Hin Hne Hne2 Hcs Hl Ht Hm Hcs2 H2.
  pose proof (Cmd_single_reply c (lit "USER") user lines term cs (map Chunk cs2 ++ rest)) as H1.
  unfold write_ok in H1. rewrite Hw in H1. specialize (H1 I Hin Hne Hcs Hl Ht Hm).
  set (c1 := after_Cmd c (lit "USER") user (map Chunk cs2 ++ rest)) in *.
  pose proof (Cmd_single_reply c1 (lit "PASS") password [] l2 cs2 rest) as H3.
  unfold write_ok in H3. cbn [c1 after_Cmd control wfaults] in H3. rewrite Hw in H3.
  cbn [tl concat app] in H3.
  specialize (H3 I eq_refl Hne2 Hcs2 (Forall_nil _) (proj1 H2)
                 (code_here_MatchString _ (proj2 H2))).
  rewrite (reply_result_digits _ (terminal_digits _ H2)) in H3.
  unfold Login.
  destruct user as [| u user]; [congruence |].
  destruct password as [| p password]; [congruence |]. cbn [str_eqb].
  rewrite H1. destruct (reply_result (concat lines ++ term)) as [[code1 resp1] err1].
  fold c1. rewrite H3. reflexivity.
Qed.

(** [Cmd] on a connection that has no chunk to deliver. *)
Lemma Cmd_no_reply c command arg tail :
  write_ok (control c) -> inbox (control c) = tail -> no_chunk_ahead tail ->
  Cmd c command arg =
    Some ((0, [], Some (read_failure tail)), after_Cmd c command arg (tl tail)).
Proof.
  intros Hw Hin Htail. unfold Cmd.
  rewrite conn_Write_ok by exact Hw.
  set (ch := mkChannel _ _ _ _ _ _).
  rewrite (Cmd_loop_fails [] (S (pending (inbox ch))) (NewReader ch) ch [] tail [] []
             (Forall_nil _) (fun H => H) Htail).
  - reflexivity.
  - repeat split; [constructor |]. cbn [NewReader rd]. unfold ch, set_inbox. cbn.
    now rewrite Hin.
  - cbn [length]. lia.
Qed.

(** [Cmd] on a chunk that holds a reply and more: what follows the reply in
    the chunk is gone with the reader. *)
Lemma Cmd_one_chunk c command arg l1 l2 tail :
  write_ok (control c) -> inbox (control c) = Chunk (l1 ++ l2) :: tail ->
  is_line l1 -> MatchString l1 = true ->
  (length (l1 ++ l2) <= defaultBufSize)%nat ->
  Cmd c command arg = Some (reply_result l1, after_Cmd c command arg tail).
Proof.
  intros Hw Hin Hl Hm Hfit.
  assert (Hl1 : l1 <> []) by (destruct Hl as (body & -> & _); now destruct body).
  destruct (Cmd_reply_whole c command arg [] l1 [l1 ++ l2] tail l2) as (dropped & k & HCmd & Hx).
  - exact Hw.
  - exact Hin.
  - constructor; [| constructor]. intros H. apply app_eq_nil in H as [H _]. contradiction.
  - cbn [concat app]. now rewrite app_nil_r.
  - constructor.
  - exact Hl.
  - exact Hm.
  - cbn [concat]. now rewrite app_nil_r.
  - cbn [concat app] in HCmd.
    rewrite (whole_chunks_read [l1 ++ l2] k l1 dropped l2) in HCmd.
    + exact HCmd.
    + cbn [concat]. now rewrite app_nil_r.
    + exact Hx.
    + cbn [removelast concat length]. destruct l1; [congruence | simpl; lia].
Qed.

(** X28. The replies to USER and to PASS arrive in one chunk, which fits the
    reader, and no chunk follows.  The exchange of USER reads the chunk,
    returns the first reply and drops the second with its reader; the
    exchange of PASS then finds nothing to read, and [Login] returns the
    failure of that read, [io.EOF] at the end of the stream, whatever the
    second reply was. *)
Theorem Login_replies_in_one_chunk c user password l1 l2 tail :
  user <> [] -> password <> [] -> wfaults (control c) = [] ->
  inbox (control c) = Chunk (l1 ++ l2) :: tail -> no_chunk_ahead tail ->
  is_line l1 -> MatchString l1 = true ->
  (length (l1 ++ l2) <= defaultBufSize)%nat ->
  Login c user password =
    Some (Some (read_failure tail),
          after_Cmd (after_Cmd c (lit "USER") user tail) (lit "PASS") password (tl tail)).
Proof.
  intros Hu Hp Hw Hin Htail Hl Hm Hfit.
  pose proof (Cmd_one_chunk c (lit "USER") user l1 l2 tail) as H1.
  unfold write_ok in H1. rewrite Hw in H1. specialize (H1 I Hin Hl Hm Hfit).
  set (c1 := after_Cmd c (lit "USER") user tail) in *.
  pose proof (Cmd_no_reply c1 (lit "PASS") password tail) as H2.
  unfold write_ok in H2. cbn [c1 after_Cmd control wfaults] in H2. rewrite Hw in H2.
  specialize (H2 I eq_refl Htail).
  unfold Login.
  destruct user as [| u user]; [congruence |].
  destruct password as [| p password]; [congruence |]. cbn [str_eqb].
  rewrite H1. destruct (reply_result l1) as [[code1 resp1] err1].
  fold c1. rewrite H2. reflexivity.
Qed.

(** ** The text of the errors

    A message that is handed to [fmt.Errorf] as its format comes out as it
    is when no ['%'] occurs in its parts; the numbers of a classification
    failure never hold one. *)

Lemma plain_cons c t : plain (c :: t) = negb (Ascii.eqb "%" c) && plain t.
Proof. unfold plain. cbn [existsb]. apply negb_orb. Qed.

Lemma plain_app a b : plain (a ++ b) = plain a && plain b.
Proof. unfold plain. rewrite existsb_app. apply negb_orb. Qed.

Lemma plain_string_of_uint d : plain (lit (NilEmpty.string_of_uint d)) = true.
Proof.
  unfold lit.
  induction d as [| d IH | d IH | d IH | d IH | d IH | d IH | d IH | d IH | d IH | d IH];
    cbn [NilEmpty.string_of_uint list_ascii_of_string]; [reflexivity | ..];
    rewrite plain_cons, IH; reflexivity.
Qed.

Lemma plain_decimal n : plain (decimal n) = true.
Proof. apply plain_string_of_uint. Qed.

Lemma plain_bad_response_text expectCode code :
  plain (bad_response_text expectCode code) = true.
Proof. unfold bad_response_text. rewrite !plain_app, !plain_decimal. reflexivity. Qed.

Lemma bad_response_Error_text expectCode code :
  Error_text (bad_response expectCode code) = Some (bad_response_text expectCode code).
Proof.
  unfold bad_response. fold (bad_response_text expectCode code). cbn [Error_text].
  now rewrite plain_bad_response_text.
Qed.

Lemma Errorf_Sprintf_text before cause after text :
  Error_text cause = Some text ->
  plain before = true -> plain text = true -> plain after = true ->
  Error_text (Errorf_Sprintf before cause after) = Some (before ++ text ++ after).
Proof.
  intros Hc Hb Ht Ha. cbn [Error_text]. rewrite Hc. cbv zeta.
  now rewrite !plain_app, Hb, Ht, Ha.
Qed.

(** ** The copy loops *)

Local Open Scope go_scope.


Lemma bind_Next {R A B} (m : M R A) (k : A -> M R B) e a e1 :
  m e = Some (Next a, e1) -> bind m k e = k a e1.
Proof. intros H. unfold bind. now rewrite H. Qed.

Lemma bind_Return {R A B} (m : M R A) (k : A -> M R B) e r e1 :
  m e = Some (Return r, e1) -> bind m k e = Some (Return r, e1).
Proof. intros H. unfold bind. now rewrite H. Qed.

Lemma set_inbox_twice ch l1 l2 : set_inbox (set_inbox ch l1) l2 = set_inbox ch l2.
Proof. reflexivity. Qed.

Lemma written_nil f : written f [] = f.
Proof. unfold written. rewrite app_nil_r. now destruct f. Qed.

Lemma written_app f a b : written (written f a) b = written f (a ++ b).
Proof. unfold written. cbn. now rewrite app_assoc. Qed.

Lemma conn_Write_written p f : wfaults f = [] -> conn_Write p f = (None, written f p).
Proof. intros H. unfold conn_Write, written. now rewrite H. Qed.

(** A read from a stream that has a chunk ahead takes the chunk, or its first
    [n] bytes. *)
Lemma conn_Read_chunks n ch c cs tail :
  inbox ch = map Chunk (c :: cs) ++ tail ->
  exists data cs',
    conn_Read n ch = (data, None, set_inbox ch (map Chunk cs' ++ tail)) /\
    concat (c :: cs) = data ++ concat cs'.
Proof.
  intros Hin. unfold conn_Read. rewrite Hin. cbn [map app].
  destruct (length c <=? n)%nat.
  - exists c, cs. split; reflexivity.
  - exists (firstn n c), (skipn n c :: cs). split; [reflexivity |].
    cbn [concat]. now rewrite app_assoc, firstn_skipn.
Qed.

(** A read from a stream with no chunk ahead fails. *)
Lemma conn_Read_end n ch tail :
  inbox ch = tail -> no_chunk_ahead tail ->
  conn_Read n ch = ([], Some (read_failure tail), set_inbox ch (tl tail)).
Proof.
  intros Hin Htail. unfold conn_Read. rewrite Hin.
  destruct tail as [| [data | e] t]; [| destruct Htail | reflexivity].
  cbn [read_failure tl]. now rewrite <- (set_inbox_id_eq ch [] Hin).
Qed.

Lemma read_failure_cases tail :
  (is_EOF (Some (read_failure tail)) = true /\ copy_error tail = None) \/
  (is_EOF (Some (read_failure tail)) = false /\ copy_error tail = Some (read_failure tail)).
Proof. unfold copy_error. destruct (read_failure tail); cbn; auto. Qed.

(** The copy loop of [DownloadFile] writes to the file the bytes the data
    connection delivers, up to the first read that fails. *)
Lemma DownloadFile_loop_copies dest : forall fuel cs e ch f tail,
  dataConn e = Some ch -> file e = Some f -> wfaults f = [] ->
  inbox ch = map Chunk cs ++ tail -> no_chunk_ahead tail ->
  (left_to_read (Some ch) < fuel)%nat ->
  DownloadFile_loop fuel dest e =
    Some (match copy_error tail with
          | None => Next tt
          | Some err => Return (Some err)
          end,
          mkEnv (conn e) (world e) (Some (set_inbox ch (tl tail)))
                (Some (written f (concat cs)))).
Proof.
  induction fuel as [| fuel IH]; intros cs e ch f tail Hd Hf Hw Hin Htail Hfuel; [lia |].
  cbn [DownloadFile_loop]. unfold bind at 1, dataConn_Read. rewrite Hd.
  destruct cs as [| c cs].
  - cbn [map app] in Hin. rewrite (conn_Read_end _ _ _ Hin Htail). cbn [length Nat.ltb Nat.leb].
    unfold bind at 1, pure at 1. cbn [concat]. rewrite written_nil, <- Hf.
    destruct (read_failure_cases tail) as [[HE ->] | [HE ->]]; rewrite HE.
    + reflexivity.
    + reflexivity.
  - destruct (conn_Read_chunks 1024 ch c cs tail Hin) as (data & cs' & HR & Hc).
    rewrite HR. rewrite Hc.
    pose proof (conn_Read_progress _ _ _ _ HR (or_introl eq_refl)) as Hlt.
    assert (Hnext : forall f1, wfaults f1 = [] ->
              (if is_EOF None then pure tt
               else bind (check None Some) (fun _ => DownloadFile_loop fuel dest))
                (mkEnv (conn e) (world e) (Some (set_inbox ch (map Chunk cs' ++ tail))) (Some f1))
              = Some (match copy_error tail with
                      | None => Next tt
                      | Some err => Return (Some err)
                      end,
                      mkEnv (conn e) (world e) (Some (set_inbox ch (tl tail)))
                            (Some (written f1 (concat cs'))))).
    { intros f1 Hw1. cbn [is_EOF]. unfold bind, check, pure.
      rewrite (IH cs' (mkEnv (conn e) (world e) (Some (set_inbox ch (map Chunk cs' ++ tail)))
                              (Some f1))
                 (set_inbox ch (map Chunk cs' ++ tail)) f1 tail
                 eq_refl eq_refl Hw1 eq_refl Htail); [reflexivity |].
      cbn [left_to_read] in *. lia. }
    destruct (0 <? length data)%nat eqn:Hpos.
    + unfold bind at 1 2, file_Write. cbn [file]. rewrite Hf, (conn_Write_written _ _ Hw).
      unfold check at 1, pure at 1. cbn [conn world dataConn].
      rewrite Hnext by exact Hw. now rewrite written_app.
    + unfold bind at 1, pure at 1. rewrite Hf, Hnext by exact Hw.
      assert (data = []) as -> by (destruct data; [reflexivity | discriminate Hpos]).
      reflexivity.
Qed.

(** The read loop of [GetBuffer] collects the bytes the data connection
    delivers, up to the first read that fails. *)
Lemma GetBuffer_loop_collects : forall fuel cs e ch tail result,
  dataConn e = Some ch ->
  inbox ch = map Chunk cs ++ tail -> no_chunk_ahead tail ->
  (left_to_read (Some ch) < fuel)%nat ->
  GetBuffer_loop fuel result e =
    Some (match copy_error tail with
          | None => Next (result ++ concat cs)
          | Some err => Return ([], Some err)
          end,
          mkEnv (conn e) (world e) (Some (set_inbox ch (tl tail))) (file e)).
Proof.
  induction fuel as [| fuel IH]; intros cs e ch tail result Hd Hin Htail Hfuel; [lia |].
  cbn [GetBuffer_loop]. unfold bind at 1, dataConn_Read. rewrite Hd.
  destruct cs as [| c cs].
  - cbn [map app] in Hin. rewrite (conn_Read_end _ _ _ Hin Htail). cbn [length Nat.ltb Nat.leb].
    cbn [concat]. rewrite app_nil_r.
    destruct (read_failure_cases tail) as [[HE ->] | [HE ->]]; rewrite HE.
    + reflexivity.
    + reflexivity.
  - destruct (conn_Read_chunks 1024 ch c cs tail Hin) as (data & cs' & HR & Hc).
    rewrite HR. rewrite Hc.
    pose proof (conn_Read_progress _ _ _ _ HR (or_introl eq_refl)) as Hlt.
    assert (Hnext : forall result1,
              (if is_EOF None then pure result1
               else bind (check None (fun e => ([], Some e)))
                         (fun _ => GetBuffer_loop fuel result1))
                (mkEnv (conn e) (world e) (Some (set_inbox ch (map Chunk cs' ++ tail))) (file e))
              = Some (match copy_error tail with
                      | None => Next (result1 ++ concat cs')
                      | Some err => Return ([], Some err)
                      end,
                      mkEnv (conn e) (world e) (Some (set_inbox ch (tl tail))) (file e))).
    { intros result1. cbn [is_EOF]. unfold bind, check, pure.
      rewrite (IH cs' (mkEnv (conn e) (world e) (Some (set_inbox ch (map Chunk cs' ++ tail)))
                             (file e))
                 (set_inbox ch (map Chunk cs' ++ tail)) tail result1
                 eq_refl eq_refl Htail); [reflexivity |].
      cbn [left_to_read] in *. lia. }
    destruct (0 <? length data)%nat eqn:Hpos.
    + rewrite Hnext. now rewrite app_assoc.
    + rewrite Hnext.
      assert (data = []) as -> by (destruct data; [reflexivity | discriminate Hpos]).
      reflexivity.
Qed.

(** The copy loop of [UploadFile] writes to the data connection the bytes the
    file delivers, up to the first read that fails. *)
Lemma UploadFile_loop_copies src : forall fuel cs e ch f tail,
  dataConn e = Some ch -> file e = Some f -> wfaults ch = [] ->
  inbox f = map Chunk cs ++ tail -> no_chunk_ahead tail ->
  (left_to_read (Some f) < fuel)%nat ->
  UploadFile_loop fuel src e =
    Some (match copy_error tail with
          | None => Next tt
          | Some err => Return (Some err)
          end,
          mkEnv (conn e) (world e) (Some (written ch (concat cs)))
                (Some (set_inbox f (tl tail)))).
Proof.
  induction fuel as [| fuel IH]; intros cs e ch f tail Hd Hf Hw Hin Htail Hfuel; [lia |].
  cbn [UploadFile_loop]. unfold bind at 1, file_Read. rewrite Hf.
  destruct cs as [| c cs].
  - cbn [map app] in Hin. rewrite (conn_Read_end _ _ _ Hin Htail). cbn [length Nat.ltb Nat.leb].
    unfold bind at 1, pure at 1. cbn [concat]. rewrite written_nil, <- Hd.
    destruct (read_failure_cases tail) as [[HE ->] | [HE ->]]; rewrite HE.
    + reflexivity.
    + reflexivity.
  - destruct (conn_Read_chunks 1024 f c cs tail Hin) as (data & cs' & HR & Hc).
    rewrite HR. rewrite Hc.
    pose proof (conn_Read_progress _ _ _ _ HR (or_introl eq_refl)) as Hlt.
    assert (Hnext : forall ch1, wfaults ch1 = [] ->
              (if is_EOF None then pure tt
               else bind (check None Some) (fun _ => UploadFile_loop fuel src))
                (mkEnv (conn e) (world e) (Some ch1) (Some (set_inbox f (map Chunk cs' ++ tail))))
              = Some (match copy_error tail with
                      | None => Next tt
                      | Some err => Return (Some err)
                      end,
                      mkEnv (conn e) (world e) (Some (written ch1 (concat cs')))
                            (Some (set_inbox f (tl tail))))).
    { intros ch1 Hw1. cbn [is_EOF]. unfold bind, check, pure.
      rewrite (IH cs' (mkEnv (conn e) (world e) (Some ch1)
                             (Some (set_inbox f (map Chunk cs' ++ tail))))
                 ch1 (set_inbox f (map Chunk cs' ++ tail)) tail
                 eq_refl eq_refl Hw1 eq_refl Htail); [reflexivity |].
      cbn [left_to_read] in *. lia. }
    destruct (0 <? length data)%nat eqn:Hpos.
    + unfold bind at 1 2, dataConn_Write. cbn [dataConn]. rewrite Hd, (conn_Write_written _ _ Hw).
      unfold check at 1, pure at 1. cbn [conn world file].
      rewrite Hnext by exact Hw. now rewrite written_app.
    + unfold bind at 1, pure at 1. rewrite Hd, Hnext by exact Hw.
      assert (data = []) as -> by (destruct data; [reflexivity | discriminate Hpos]).
      reflexivity.
Qed.

Lemma set_deadline_open {R} timeout e ch :
  dataConn e = Some ch ->
  @set_deadline R timeout e =
    Some (Next tt, mkEnv (conn e) (world e) (Some (with_deadline timeout ch)) (file e)).
Proof.
  intros Hd. unfold set_deadline, with_deadline. rewrite Hd.
  destruct (0 <? timeout); [reflexivity |]. destruct e; cbn in *. now subst.
Qed.

Lemma inbox_with_deadline timeout ch : inbox (with_deadline timeout ch) = inbox ch.
Proof. unfold with_deadline. now destruct (0 <? timeout). Qed.

Lemma wfaults_with_deadline timeout ch : wfaults (with_deadline timeout ch) = wfaults ch.
Proof. unfold with_deadline. now destruct (0 <? timeout). Qed.

Lemma dial_ok {R} address e ch :
  net (world e) address = inr ch ->
  @dial R address e =
    Some (Next None,
          mkEnv (conn e)
                (mkWorld (net (world e)) (address :: dialed (world e)) (fs (world e))
                         (opened (world e)))
                (Some ch) (file e)).
Proof. intros H. unfold dial, net_Dial. now rewrite H. Qed.

Lemma open_ok {R} name e f :
  fs (world e) name = inr f ->
  @open R name e =
    Some (Next None,
          mkEnv (conn e)
                (mkWorld (net (world e)) (dialed (world e)) (fs (world e))
                         (name :: opened (world e)))
                (dataConn e) (Some f)).
Proof. intros H. unfold open, os_OpenFile. now rewrite H. Qed.

Lemma open_fails {R} name e err :
  fs (world e) name = inl err ->
  @open R name e =
    Some (Next (Some err),
          mkEnv (conn e)
                (mkWorld (net (world e)) (dialed (world e)) (fs (world e))
                         (name :: opened (world e)))
                (dataConn e) None).
Proof. intros H. unfold open, os_OpenFile. now rewrite H. Qed.

(** The dial has succeeded: the deferred [Close] is registered on a real
    connection, and the function goes on with [rest]. *)
Lemma connect_ok {R A} (fail : error -> R) dataPort (rest : M R A) e ch :
  net (world e) (data_address e dataPort) = inr ch ->
  connect fail dataPort rest e =
    match rest (mkEnv (conn e)
                      (mkWorld (net (world e)) (data_address e dataPort :: dialed (world e))
                               (fs (world e)) (opened (world e)))
                      (Some ch) (file e)) with
    | None => None
    | Some (s, e') => Some (s, close_dataConn e')
    end.
Proof.
  intros Hnet. unfold connect. fold (data_address e dataPort).
  rewrite (bind_Next _ _ _ _ _ (dial_ok _ _ _ Hnet)).
  unfold defer_dataConn_Close. cbn [dataConn]. reflexivity.
Qed.

Ltac env_simpl := cbn [conn world dataConn file net dialed fs opened].

(** X14. [DownloadFile], from the dial on.  The data connection delivers [cs]
    and then fails as [tail] says; the destination takes every write. *)
Theorem DownloadFile_copies src dest mode timeout e dataPort e1 ch f cs tail :
  handshake Some (lit "RETR") src mode e = Some (Next dataPort, e1) ->
  net (world e1) (data_address e1 dataPort) = inr ch ->
  fs (world e1) dest = inr f -> wfaults f = [] ->
  inbox ch = map Chunk cs ++ tail -> no_chunk_ahead tail ->
  call (DownloadFile src dest mode timeout) e =
    Some (Returned (copy_error tail),
          mkEnv (conn e1)
                (mkWorld (net (world e1)) (data_address e1 dataPort :: dialed (world e1))
                         (fs (world e1)) (dest :: opened (world e1)))
                (Some (snd (conn_Close (set_inbox (with_deadline timeout ch) (tl tail)))))
                (Some (snd (conn_Close (written f (concat cs)))))).
Proof.
  intros Hh Hnet Hfs Hw Hin Htail. unfold DownloadFile.
  rewrite (call_bind_Next _ _ _ _ _ Hh).
  unfold call. rewrite (connect_ok _ _ _ _ _ Hnet).
  erewrite bind_Next by (apply open_ok; env_simpl; exact Hfs). env_simpl.
  unfold defer_file_Close.
  unfold bind at 1, check at 1, pure at 1.
  erewrite bind_Next by (apply set_deadline_open; reflexivity). env_simpl.
  unfold bind at 1.
  erewrite DownloadFile_loop_copies;
    [ | reflexivity | reflexivity | exact Hw
      | rewrite inbox_with_deadline; exact Hin | exact Htail | apply loop_fuel_enough ].
  unfold copy_error. destruct (read_failure tail); reflexivity.
Qed.

(** X15. [GetBuffer], from the dial on: the bytes of the data connection are
    returned when it ends, and none of them when a read fails otherwise. *)
Theorem GetBuffer_collects src mode timeout e dataPort e1 ch cs tail :
  handshake (fun err => ([] : str, Some err)) (lit "RETR") src mode e = Some (Next dataPort, e1) ->
  net (world e1) (data_address e1 dataPort) = inr ch ->
  inbox ch = map Chunk cs ++ tail -> no_chunk_ahead tail ->
  call (GetBuffer src mode timeout) e =
    Some (Returned (match copy_error tail with
                    | None => (concat cs, None)
                    | Some err => ([], Some err)
                    end),
          mkEnv (conn e1)
                (mkWorld (net (world e1)) (data_address e1 dataPort :: dialed (world e1))
                         (fs (world e1)) (opened (world e1)))
                (Some (snd (conn_Close (set_inbox (with_deadline timeout ch) (tl tail)))))
                (file e1)).
Proof.
  intros Hh Hnet Hin Htail. unfold GetBuffer.
  rewrite (call_bind_Next _ _ _ _ _ Hh).
  unfold call. rewrite (connect_ok _ _ _ _ _ Hnet).
  erewrite bind_Next by (apply set_deadline_open; reflexivity). env_simpl.
  unfold bind at 1.
  erewrite GetBuffer_loop_collects;
    [ | reflexivity | rewrite inbox_with_deadline; exact Hin | exact Htail
      | apply loop_fuel_enough ].
  unfold copy_error. destruct (read_failure tail); reflexivity.
Qed.

(** X16. [UploadFile], from the dial on.  The source file delivers [cs] and
    then fails as [tail] says; the data connection takes every write. *)
Theorem UploadFile_copies src dest mode timeout e dataPort e1 ch f cs tail :
  handshake Some (lit "STOR") dest mode e = Some (Next dataPort, e1) ->
  net (world e1) (data_address e1 dataPort) = inr ch ->
  fs (world e1) src = inr f -> wfaults ch = [] ->
  inbox f = map Chunk cs ++ tail -> no_chunk_ahead tail ->
  call (UploadFile src dest mode timeout) e =
    Some (Returned (copy_error tail),
          mkEnv (conn e1)
                (mkWorld (net (world e1)) (data_address e1 dataPort :: dialed (world e1))
                         (fs (world e1)) (src :: opened (world e1)))
                (Some (snd (conn_Close (written (with_deadline timeout ch) (concat cs)))))
                (Some (snd (conn_Close (set_inbox f (tl tail)))))).
Proof.
  intros Hh Hnet Hfs Hw Hin Htail. unfold UploadFile.
  rewrite (call_bind_Next _ _ _ _ _ Hh).
  unfold call. rewrite (connect_ok _ _ _ _ _ Hnet).
  erewrite bind_Next by (apply open_ok; env_simpl; exact Hfs). env_simpl.
  unfold defer_file_Close.
  unfold bind at 1, check at 1, pure at 1.
  erewrite bind_Next by (apply set_deadline_open; reflexivity). env_simpl.
  unfold bind at 1.
  erewrite UploadFile_loop_copies;
    [ | reflexivity | reflexivity | rewrite wfaults_with_deadline; exact Hw
      | exact Hin | exact Htail | apply loop_fuel_enough ].
  unfold copy_error. destruct (read_failure tail); reflexivity.
Qed.

(** X17. The local file cannot be opened.  The remote command has been sent
    and the data connection dialled by then: the connection is closed unread.
    The error is what [fmt.Errorf] makes of a message that names the file and
    ends with the error of the opening; the message is its format, so that
    its text is the message itself when neither the name nor the text of
    that error holds a ['%']. *)
Theorem transfer_open_fails src dest mode timeout e dataPort e1 ch err :
  net (world e1) (data_address e1 dataPort) = inr ch ->
  let left name :=
    mkEnv (conn e1)
          (mkWorld (net (world e1)) (data_address e1 dataPort :: dialed (world e1))
                   (fs (world e1)) (name :: opened (world e1)))
          (Some (snd (conn_Close ch))) None in
  (handshake Some (lit "RETR") src mode e = Some (Next dataPort, e1) ->
   fs (world e1) dest = inl err ->
   call (DownloadFile src dest mode timeout) e =
     Some (Returned (Some (Errorf_Sprintf (lit "Cannot open destination file, '" ++ dest ++ lit "'. ")
                             err [])),
           left dest)) /\
  (handshake Some (lit "STOR") dest mode e = Some (Next dataPort, e1) ->
   fs (world e1) src = inl err ->
   call (UploadFile src dest mode timeout) e =
     Some (Returned (Some (Errorf_Sprintf (lit "Cannot open src file, '" ++ src ++ lit "'. ") err [])),
           left src)) /\
  (forall name text,
      Error_text err = Some text -> plain name = true -> plain text = true ->
      Error_text (Errorf_Sprintf (lit "Cannot open destination file, '" ++ name ++ lit "'. ")
                                 err [])
        = Some (lit "Cannot open destination file, '" ++ name ++ lit "'. " ++ text) /\
      Error_text (Errorf_Sprintf (lit "Cannot open src file, '" ++ name ++ lit "'. ") err [])
        = Some (lit "Cannot open src file, '" ++ name ++ lit "'. " ++ text)).
Proof.
  intros Hnet left. split; [| split].
  - intros Hh Hfs. unfold DownloadFile. rewrite (call_bind_Next _ _ _ _ _ Hh).
    unfold call. rewrite (connect_ok _ _ _ _ _ Hnet).
    erewrite bind_Next by (apply open_fails; env_simpl; exact Hfs). reflexivity.
  - intros Hh Hfs. unfold UploadFile. rewrite (call_bind_Next _ _ _ _ _ Hh).
    unfold call. rewrite (connect_ok _ _ _ _ _ Hnet).
    erewrite bind_Next by (apply open_fails; env_simpl; exact Hfs). reflexivity.
  - intros name text Herr Hname Htext.
    split; (erewrite Errorf_Sprintf_text;
          [ rewrite app_nil_r, <- !app_assoc; reflexivity | exact Herr
          | rewrite !plain_app, Hname; reflexivity | exact Htext | reflexivity ]).
Qed.

(** ** After the dial *)


Lemma safe_bind {R A B} P Q Q' (m : M R A) (k : A -> M R B) :
  safe P m Q -> (forall a, safe (Q a) (k a) Q') -> safe P (bind m k) Q'.
Proof.
  intros Hm Hk e s e' HP. unfold bind.
  destruct (m e) as [[[a | r |] e1] |] eqn:E; [| | | discriminate].
  - intros H. exact (Hk a e1 s e' (Hm e (Next a) e1 HP E) H).
  - intros [= <- <-]. exact I.
  - intros [= <- <-]. exact (Hm e Panic e1 HP E).
Qed.

Lemma safe_pure {R A} (P : Env -> Prop) (Q : A -> Env -> Prop) (a : A) :
  (forall e, P e -> Q a e) -> safe P (@pure R A a) Q.
Proof. intros H e s e' HP [= <- <-]. now apply H. Qed.

Lemma safe_ret {R A} (P : Env -> Prop) (Q : A -> Env -> Prop) (r : R) :
  safe P (@ret R A r) Q.
Proof. intros e s e' HP [= <- <-]. exact I. Qed.

Lemma safe_check {R} (P : Env -> Prop) err (f : error -> R) :
  safe P (check err f) (fun _ => P).
Proof. destruct err; [apply safe_ret | now apply safe_pure]. Qed.

Lemma safe_at {R A} P Q (f : Env -> M R A) :
  (forall e0, safe P (f e0) Q) -> safe P (fun e => f e e) Q.
Proof. intros H e s e' HP Hm. exact (H e e s e' HP Hm). Qed.

Lemma safe_set_deadline {R} timeout (P : Env -> Prop) :
  (forall e, P e -> data_open e) ->
  (forall e ch, P e -> P (mkEnv (conn e) (world e) (Some ch) (file e))) ->
  safe P (@set_deadline R timeout) (fun _ => P).
Proof.
  intros Ho Hs e s e' HP. unfold set_deadline.
  destruct (0 <? timeout); [| intros [= <- <-]; exact HP].
  specialize (Ho e HP). unfold data_open in Ho.
  destruct (dataConn e) as [ch |]; [| congruence].
  intros [= <- <-]. now apply Hs.
Qed.

Lemma safe_dataConn_Read {R} n (P : Env -> Prop) :
  (forall e, P e -> data_open e) ->
  (forall e ch, P e -> P (mkEnv (conn e) (world e) (Some ch) (file e))) ->
  safe P (@dataConn_Read R n) (fun _ => P).
Proof.
  intros Ho Hs e s e' HP. unfold dataConn_Read.
  specialize (Ho e HP). unfold data_open in Ho.
  destruct (dataConn e) as [ch |]; [| congruence].
  destruct (conn_Read n ch) as [[data err] ch']. intros [= <- <-]. now apply Hs.
Qed.

Lemma safe_dataConn_Write {R} p (P : Env -> Prop) :
  (forall e, P e -> data_open e) ->
  (forall e ch, P e -> P (mkEnv (conn e) (world e) (Some ch) (file e))) ->
  safe P (@dataConn_Write R p) (fun _ => P).
Proof.
  intros Ho Hs e s e' HP. unfold dataConn_Write.
  specialize (Ho e HP). unfold data_open in Ho.
  destruct (dataConn e) as [ch |]; [| congruence].
  destruct (conn_Write p ch) as [err ch']. intros [= <- <-]. now apply Hs.
Qed.

Lemma safe_file_Read {R} n : safe ready (@file_Read R n) (fun _ => ready).
Proof.
  intros e s e' [Hd Hf]. unfold file_Read.
  destruct (file e) as [f |]; [| congruence].
  destruct (conn_Read n f) as [[data err] f']. intros [= <- <-].
  split; cbn; [exact Hd | discriminate].
Qed.

Lemma safe_file_Write {R} p : safe ready (@file_Write R p) (fun _ => ready).
Proof.
  intros e s e' [Hd Hf]. unfold file_Write.
  destruct (file e) as [f |]; [| congruence].
  destruct (conn_Write p f) as [err f']. intros [= <- <-].
  split; cbn; [exact Hd | discriminate].
Qed.

Lemma ready_open e : ready e -> data_open e.
Proof. now intros [H _]. Qed.

Lemma ready_set e ch : ready e -> ready (mkEnv (conn e) (world e) (Some ch) (file e)).
Proof. intros [_ H]. split; cbn; [discriminate | exact H]. Qed.

Lemma data_open_set e ch : data_open e -> data_open (mkEnv (conn e) (world e) (Some ch) (file e)).
Proof. intros _. unfold data_open. cbn. discriminate. Qed.

Lemma safe_GetBuffer_loop fuel : forall result,
  safe data_open (GetBuffer_loop fuel result) (fun _ => data_open).
Proof.
  induction fuel as [| fuel IH]; intros result; [intros e s e' _; discriminate |].
  cbn [GetBuffer_loop].
  eapply safe_bind; [apply safe_dataConn_Read; [auto | apply data_open_set] |].
  intros [data readErr].
  destruct (0 <? length data)%nat; cbn [is_EOF].
  - eapply safe_bind; [apply safe_check | intros ?; apply IH].
  - destruct (is_EOF readErr); [now apply safe_pure |].
    eapply safe_bind; [apply safe_check | intros ?; apply IH].
Qed.

Lemma safe_DownloadFile_loop fuel dest :
  safe ready (DownloadFile_loop fuel dest) (fun _ => ready).
Proof.
  induction fuel as [| fuel IH]; [intros e s e' _; discriminate |].
  cbn [DownloadFile_loop].
  eapply safe_bind; [apply safe_dataConn_Read; [apply ready_open | apply ready_set] |].
  intros [data readErr].
  eapply safe_bind with (Q := fun _ => ready).
  - destruct (0 <? length data)%nat; [| now apply safe_pure].
    eapply safe_bind; [apply safe_file_Write | intros err; apply safe_check].
  - intros ?. destruct (is_EOF readErr); [now apply safe_pure |].
    eapply safe_bind; [apply safe_check | intros ?; exact IH].
Qed.

Lemma safe_UploadFile_loop fuel src :
  safe ready (UploadFile_loop fuel src) (fun _ => ready).
Proof.
  induction fuel as [| fuel IH]; [intros e s e' _; discriminate |].
  cbn [UploadFile_loop].
  eapply safe_bind; [apply safe_file_Read |].
  intros [data readErr].
  eapply safe_bind with (Q := fun _ => ready).
  - destruct (0 <? length data)%nat; [| now apply safe_pure].
    eapply safe_bind; [apply safe_dataConn_Write; [apply ready_open | apply ready_set] |].
    intros err; apply safe_check.
  - intros ?. destruct (is_EOF readErr); [now apply safe_pure |].
    eapply safe_bind; [apply safe_check | intros ?; exact IH].
Qed.

Lemma safe_weaken {R A} (P P' : Env -> Prop) (m : M R A) Q :
  (forall e, P e -> P' e) -> safe P' m Q -> safe P m Q.
Proof. intros H Hm e s e' HP. apply Hm, H, HP. Qed.

Lemma file_closed_close_file e : file_closed (close_file e).
Proof. unfold close_file, file_closed. destruct (file e) eqn:E; [reflexivity | now rewrite E]. Qed.

Lemma file_closed_close_dataConn e : file_closed e -> file_closed (close_dataConn e).
Proof. unfold close_dataConn, file_closed. now destruct (dataConn e). Qed.

(** The part of [DownloadFile] and [UploadFile] that follows the dial: the
    file is opened, its [Close] is deferred, and [inner] tests the error of
    the opening before it touches the file. *)
Lemma open_then_safe {R} name (inner : option error -> M R Empty_set) e s e' :
  data_open e ->
  (forall err, safe (fun e => data_open e /\ (err = None -> file e <> None)) (inner err)
                    (fun _ _ => False)) ->
  bind (open name) (fun err => defer_file_Close (inner err)) e = Some (s, e') ->
  s <> Panic /\ file_closed e'.
Proof.
  intros Ho Hs. unfold bind, open, os_OpenFile, defer_file_Close.
  destruct (fs (world e) name) as [err | f];
    match goal with |- context [inner ?x ?e0] => destruct (inner x e0) as [[s1 e1] |] eqn:E end;
    try discriminate; intros [= <- <-]; (split; [| apply file_closed_close_file]);
    intros ->; refine (Hs _ _ _ _ _ E); split; cbn; auto; discriminate.
Qed.

Lemma safe_copy_body {R} (f : error -> R) (r : R) timeout (loop : Env -> M R unit) err :
  (forall e0, safe ready (loop e0) (fun _ => ready)) ->
  safe (fun e => data_open e /\ (err = None -> file e <> None))
       (check err f ;; set_deadline timeout ;; (fun e => loop e e) ;; ret r)
       (fun (_ : Empty_set) _ => False).
Proof.
  intros Hl. destruct err as [err |].
  - apply safe_bind with (Q := fun _ _ => False); [apply safe_ret | intros ? e s e' []].
  - apply safe_weaken with (P' := ready); [intros e [Ho Hf]; split; auto |].
    eapply safe_bind; [apply safe_check |]. intros ?.
    eapply safe_bind; [apply safe_set_deadline; [apply ready_open | apply ready_set] |].
    intros ?. eapply safe_bind; [apply safe_at, Hl | intros ?; apply safe_ret].
Qed.

(** X18. What C5 leaves standing.  Once the dial has succeeded, each transfer
    function returns: it does not panic, its data connection is closed, and so
    is the local file if it was opened. *)
Theorem transfer_returns_after_dial src dest mode timeout e dataPort e1 ch :
  net (world e1) (data_address e1 dataPort) = inr ch ->
  (handshake (fun err => ([] : str, Some err)) (lit "RETR") src mode e = Some (Next dataPort, e1) ->
   exists r e', call (GetBuffer src mode timeout) e = Some (Returned r, e') /\
                data_closed e') /\
  (handshake Some (lit "RETR") src mode e = Some (Next dataPort, e1) ->
   exists r e', call (DownloadFile src dest mode timeout) e = Some (Returned r, e') /\
                data_closed e' /\ file_closed e') /\
  (handshake Some (lit "STOR") dest mode e = Some (Next dataPort, e1) ->
   exists r e', call (UploadFile src dest mode timeout) e = Some (Returned r, e') /\
                data_closed e' /\ file_closed e').
Proof.
  intros Hnet.
  destruct (transfer_total src dest mode timeout e) as (TG & TD & TU).
  destruct (transfer_closes_data_connection src dest mode timeout e dataPort e1 ch Hnet)
    as (CG & CD & CU).
  split; [| split]; intros Hh.
  - destruct (call (GetBuffer src mode timeout) e) as [[o e'] |] eqn:HC; [| congruence].
    pose proof (CG o e' Hh eq_refl) as Hclosed.
    unfold GetBuffer in HC. rewrite (call_bind_Next _ _ _ _ _ Hh) in HC.
    unfold call in HC. rewrite (connect_ok _ _ _ _ _ Hnet) in HC.
    match type of HC with context [bind ?m ?k ?e0] =>
      destruct (bind m k e0) as [[s e3] |] eqn:Hb; [| discriminate];
      assert (Hs : safe data_open (bind m k) (fun (_ : Empty_set) _ => False))
    end.
    { eapply safe_bind; [apply safe_set_deadline; [auto | apply data_open_set] |].
      intros ?. eapply safe_bind; [| intros ?; apply safe_ret].
      apply (safe_at _ _ (fun e0 => GetBuffer_loop (loop_fuel (dataConn e0)) [])).
      intros e0. apply safe_GetBuffer_loop. }
    apply Hs in Hb; [| unfold data_open; cbn; discriminate].
    destruct s as [[] | r |]; [| destruct Hb]. injection HC as <- <-.
    exists r, (close_dataConn e3). split; [reflexivity | exact Hclosed].
  - destruct (call (DownloadFile src dest mode timeout) e) as [[o e'] |] eqn:HC; [| congruence].
    pose proof (CD o e' Hh eq_refl) as Hclosed.
    unfold DownloadFile in HC. rewrite (call_bind_Next _ _ _ _ _ Hh) in HC.
    unfold call in HC. rewrite (connect_ok _ _ _ _ _ Hnet) in HC.
    match type of HC with context [bind ?m ?k ?e0] =>
      destruct (bind m k e0) as [[s e3] |] eqn:Hb; [| discriminate]
    end.
    apply open_then_safe in Hb as [Hs Hf];
      [ | unfold data_open; cbn; discriminate
        | intros err;
          apply (safe_copy_body _ _ _ (fun e0 => DownloadFile_loop (loop_fuel (dataConn e0)) dest));
          intros e0; apply safe_DownloadFile_loop ].
    destruct s as [[] | r |]; [| congruence]. injection HC as <- <-.
    exists r, (close_dataConn e3).
    split; [reflexivity |]. split; [exact Hclosed | now apply file_closed_close_dataConn].
  - destruct (call (UploadFile src dest mode timeout) e) as [[o e'] |] eqn:HC; [| congruence].
    pose proof (CU o e' Hh eq_refl) as Hclosed.
    unfold UploadFile in HC. rewrite (call_bind_Next _ _ _ _ _ Hh) in HC.
    unfold call in HC. rewrite (connect_ok _ _ _ _ _ Hnet) in HC.
    match type of HC with context [bind ?m ?k ?e0] =>
      destruct (bind m k e0) as [[s e3] |] eqn:Hb; [| discriminate]
    end.
    apply open_then_safe in Hb as [Hs Hf];
      [ | unfold data_open; cbn; discriminate
        | intros err;
          apply (safe_copy_body _ _ _ (fun e0 => UploadFile_loop (loop_fuel (file e0)) src));
          intros e0; apply safe_UploadFile_loop ].
    destruct s as [[] | r |]; [| congruence]. injection HC as <- <-.
    exists r, (close_dataConn e3).
    split; [reflexivity |]. split; [exact Hclosed | now apply file_closed_close_dataConn].
Qed.

(** ** The handshake *)


Lemma cmd_eq {R} command arg e res c :
  Cmd (conn e) command arg = Some (res, c) ->
  @cmd R command arg e = Some (Next res, on_control e c).
Proof. intros H. unfold cmd. now rewrite H. Qed.

Lemma all_refuse_intro src dest mode timeout e err e' :
  (forall R (fail : error -> R) verb path,
      handshake fail verb path mode e = Some (Return (fail err), e')) ->
  all_refuse src dest mode timeout e err e'.
Proof.
  intros H. unfold all_refuse, GetBuffer, DownloadFile, UploadFile, call.
  rewrite !(bind_Return _ _ _ _ _ (H _ _ _ _)). repeat split.
Qed.

Lemma checkResponseCode_2_bad code :
  code / 100 <> 2 -> checkResponseCode 2 code = Some (bad_response 2 code).
Proof.
  intros H. destruct (checkResponseCode_cases 2 code) as [Hn | Hs]; [| exact Hs].
  now apply checkResponseCode_2 in Hn.
Qed.

Lemma extractDataPort_form line :
  has_port_form line -> extractDataPort line = (fst (extractDataPort line), None).
Proof.
  intros Hf. destruct (FindStringSubmatch_spec line) as [[_ Hn] | Hm]; [contradiction |].
  destruct Hm as (pre & h1 & h2 & h3 & h4 & p1 & p2 & post & Hm).
  now rewrite (extractDataPort_match _ _ _ _ _ _ _ _ _ Hm).
Qed.

Lemma handshake_PASV_fails {R} (fail : error -> R) verb path mode e code line err c1 :
  Cmd (conn e) (lit "PASV") [] = Some ((code, line, Some err), c1) ->
  handshake fail verb path mode e = Some (Return (fail err), on_control e c1).
Proof.
  intros H. unfold handshake. rewrite (bind_Next _ _ _ _ _ (cmd_eq _ _ _ _ _ H)).
  reflexivity.
Qed.

Lemma handshake_PASV_refused {R} (fail : error -> R) verb path mode e code line c1 :
  Cmd (conn e) (lit "PASV") [] = Some ((code, line, None), c1) ->
  code / 100 <> 2 ->
  handshake fail verb path mode e =
    Some (Return (fail (Errorf_Sprintf (lit "Cannot set PASV. Error: ") (bad_response 2 code) [])),
          on_control e c1).
Proof.
  intros H Hc. unfold handshake. rewrite (bind_Next _ _ _ _ _ (cmd_eq _ _ _ _ _ H)).
  unfold bind at 1, check at 1, pure at 1. rewrite (checkResponseCode_2_bad _ Hc).
  reflexivity.
Qed.

Lemma handshake_no_port {R} (fail : error -> R) verb path mode e code line c1 :
  Cmd (conn e) (lit "PASV") [] = Some ((code, line, None), c1) ->
  code / 100 = 2 -> ~ has_port_form line ->
  handshake fail verb path mode e =
    Some (Return (fail (Errorf (lit "Cannot find data port in server output: " ++ line))),
          on_control e c1).
Proof.
  intros H Hc Hf. unfold handshake. rewrite (bind_Next _ _ _ _ _ (cmd_eq _ _ _ _ _ H)).
  unfold bind at 1, check at 1, pure at 1.
  rewrite (proj2 (checkResponseCode_2 _) Hc).
  unfold bind at 1, check at 1, pure at 1.
  rewrite (extractDataPort_no_form _ Hf). reflexivity.
Qed.

(** The handshake up to the TYPE exchange, when PASV has been accepted and
    its reply holds a port. *)
Lemma handshake_TYPE {R} (fail : error -> R) verb path mode e code line c1 res c2 :
  Cmd (conn e) (lit "PASV") [] = Some ((code, line, None), c1) ->
  code / 100 = 2 -> has_port_form line ->
  Cmd c1 (lit "TYPE") mode = Some (res, c2) ->
  handshake fail verb path mode e =
    (let '(typeCode, typeLine, err) := res in
     check err fail ;;
     check (checkResponseCode 2 typeCode)
           (fun typeErr => fail (Errorf_Sprintf (lit "Cannot set TYPE. Error: '") typeErr
                                   (lit "'. Line: '" ++ typeLine ++ lit "'"))) ;;
     err <- control_Write (verb ++ lit " " ++ path ++ CRLF) ;;
     check err fail ;;
     pure (fst (extractDataPort line))) (on_control e c2).
Proof.
  intros H Hc Hf H2. unfold handshake. rewrite (bind_Next _ _ _ _ _ (cmd_eq _ _ _ _ _ H)).
  unfold bind at 1, check at 1, pure at 1.
  rewrite (proj2 (checkResponseCode_2 _) Hc).
  unfold bind at 1, check at 1, pure at 1.
  rewrite (extractDataPort_form _ Hf).
  unfold bind at 1, check at 1, pure at 1.
  erewrite bind_Next by (apply cmd_eq; exact H2). reflexivity.
Qed.

(** X19. PASV is refused: nothing more is sent, nothing is dialled, no file is
    opened.  The error is what [fmt.Errorf] makes of the message that wraps
    the classification failure; the message holds literal text and two
    numbers, and is the text of the error. *)
Theorem transfer_PASV_refused src dest mode timeout e code line c1 :
  Cmd (conn e) (lit "PASV") [] = Some ((code, line, None), c1) ->
  code / 100 <> 2 ->
  all_refuse src dest mode timeout e
    (Errorf_Sprintf (lit "Cannot set PASV. Error: ") (bad_response 2 code) [])
    (on_control e c1) /\
  Error_text (Errorf_Sprintf (lit "Cannot set PASV. Error: ") (bad_response 2 code) [])
    = Some (lit "Cannot set PASV. Error: " ++ bad_response_text 2 code).
Proof.
  intros H Hc. split.
  - apply all_refuse_intro. intros R fail verb path.
    now apply handshake_PASV_refused with (line := line).
  - erewrite Errorf_Sprintf_text;
      [ now rewrite app_nil_r | apply bad_response_Error_text | reflexivity
      | apply plain_bad_response_text | reflexivity ].
Qed.

(** X20. PASV is accepted with a reply that holds no port: the transfer stops
    there.  The error is what [fmt.Errorf] makes of a message that ends with
    the reply; the message is its format, so that its text is the message
    itself when the reply holds no ['%']. *)
Theorem transfer_no_data_port src dest mode timeout e code line c1 :
  Cmd (conn e) (lit "PASV") [] = Some ((code, line, None), c1) ->
  code / 100 = 2 -> ~ has_port_form line ->
  all_refuse src dest mode timeout e
    (Errorf (lit "Cannot find data port in server output: " ++ line)) (on_control e c1) /\
  (plain line = true ->
   Error_text (Errorf (lit "Cannot find data port in server output: " ++ line))
     = Some (lit "Cannot find data port in server output: " ++ line)).
Proof.
  intros H Hc Hf. split.
  - apply all_refuse_intro. intros R fail verb path.
    now apply handshake_no_port with (code := code).
  - intros Hp. cbn [Error_text]. now rewrite plain_app, Hp.
Qed.

(** X21. TYPE is refused: the transfer command is not sent.  The error is
    what [fmt.Errorf] makes of a message that wraps the classification
    failure and quotes the reply; the message is its format, so that its
    text is the message itself when the reply holds no ['%']. *)
Theorem transfer_TYPE_refused src dest mode timeout e code line c1 typeCode typeLine c2 :
  Cmd (conn e) (lit "PASV") [] = Some ((code, line, None), c1) ->
  code / 100 = 2 -> has_port_form line ->
  Cmd c1 (lit "TYPE") mode = Some ((typeCode, typeLine, None), c2) ->
  typeCode / 100 <> 2 ->
  all_refuse src dest mode timeout e
    (Errorf_Sprintf (lit "Cannot set TYPE. Error: '") (bad_response 2 typeCode)
                    (lit "'. Line: '" ++ typeLine ++ lit "'"))
    (on_control e c2) /\
  (plain typeLine = true ->
   Error_text (Errorf_Sprintf (lit "Cannot set TYPE. Error: '") (bad_response 2 typeCode)
                              (lit "'. Line: '" ++ typeLine ++ lit "'"))
     = Some (lit "Cannot set TYPE. Error: '" ++ bad_response_text 2 typeCode
             ++ lit "'. Line: '" ++ typeLine ++ lit "'")).
Proof.
  intros H Hc Hf H2 Ht. split.
  - apply all_refuse_intro. intros R fail verb path.
    rewrite (handshake_TYPE fail verb path mode e code line c1 _ c2 H Hc Hf H2).
    unfold bind at 1, check at 1, pure at 1. rewrite (checkResponseCode_2_bad _ Ht).
    reflexivity.
  - intros Hp. apply Errorf_Sprintf_text;
      [ apply bad_response_Error_text | reflexivity | apply plain_bad_response_text
      | rewrite !plain_app, Hp; reflexivity ].
Qed.

(** X22. An exchange on the control connection fails: its error is returned as
    it is, and the transfer goes no further. *)
Theorem transfer_control_failure src dest mode timeout e :
  (forall code line err c1,
      Cmd (conn e) (lit "PASV") [] = Some ((code, line, Some err), c1) ->
      all_refuse src dest mode timeout e err (on_control e c1)) /\
  (forall code line c1 typeCode typeLine err c2,
      Cmd (conn e) (lit "PASV") [] = Some ((code, line, None), c1) ->
      code / 100 = 2 -> has_port_form line ->
      Cmd c1 (lit "TYPE") mode = Some ((typeCode, typeLine, Some err), c2) ->
      all_refuse src dest mode timeout e err (on_control e c2)).
Proof.
  split.
  - intros code line err c1 H. apply all_refuse_intro. intros R fail verb path.
    now apply handshake_PASV_fails with (code := code) (line := line).
  - intros code line c1 typeCode typeLine err c2 H Hc Hf H2.
    apply all_refuse_intro. intros R fail verb path.
    now rewrite (handshake_TYPE fail verb path mode e code line c1 _ c2 H Hc Hf H2).
Qed.

(** X23. The handshake goes through.  The writes succeed; the server answers
    PASV and then TYPE with one line each, both of class 2, the first holding
    a port; each of the two replies arrives in chunks of its own, so that the
    reply to PASV ends where a chunk ends.  Then the three commands are on
    the wire in this order, both replies have been consumed, the port is the
    one the PASV line decodes to, and nothing has been dialled or opened
    yet. *)
Theorem handshake_succeeds {R} (fail : error -> R) verb path mode e
    pasvLine typeLine cs1 cs2 rest :
  wfaults (control (conn e)) = [] ->
  inbox (control (conn e)) = map Chunk cs1 ++ map Chunk cs2 ++ rest ->
  nonempty_chunks cs1 -> nonempty_chunks cs2 ->
  concat cs1 = pasvLine -> concat cs2 = typeLine ->
  terminal pasvLine -> terminal typeLine ->
  digits_value (firstn 3 pasvLine) / 100 = 2 ->
  digits_value (firstn 3 typeLine) / 100 = 2 ->
  has_port_form pasvLine ->
  exists e',
    handshake fail verb path mode e = Some (Next (fst (extractDataPort pasvLine)), e') /\
    outbox (control (conn e')) =
      outbox (control (conn e)) ++ (lit "PASV" ++ lit " " ++ [] ++ CRLF)
                                ++ (lit "TYPE" ++ lit " " ++ mode ++ CRLF)
                                ++ (verb ++ lit " " ++ path ++ CRLF) /\
    inbox (control (conn e')) = rest /\
    hostname (conn e') = hostname (conn e) /\
    world e' = world e /\ dataConn e' = dataConn e /\ file e' = file e.
Proof.
  intros Hw Hin Hne1 Hne2 Hcs1 Hcs2 Hp Ht Hpc Htc Hf.
  pose proof (Cmd_single_reply (conn e) (lit "PASV") [] [] pasvLine cs1
                (map Chunk cs2 ++ rest)) as H1.
  unfold write_ok in H1. rewrite Hw in H1. cbn [concat app] in H1.
  specialize (H1 I Hin Hne1 Hcs1 (Forall_nil _) (proj1 Hp)
                 (code_here_MatchString _ (proj2 Hp))).
  rewrite (reply_result_digits _ (terminal_digits _ Hp)) in H1.
  set (c1 := after_Cmd (conn e) (lit "PASV") [] (map Chunk cs2 ++ rest)) in *.
  pose proof (Cmd_single_reply c1 (lit "TYPE") mode [] typeLine cs2 rest) as H2.
  unfold write_ok in H2. cbn [c1 after_Cmd control wfaults inbox] in H2. rewrite Hw in H2.
  cbn [tl concat app] in H2.
  specialize (H2 I eq_refl Hne2 Hcs2 (Forall_nil _) (proj1 Ht)
                 (code_here_MatchString _ (proj2 Ht))).
  rewrite (reply_result_digits _ (terminal_digits _ Ht)) in H2. fold c1 in H2.
  rewrite (handshake_TYPE fail verb path mode e _ _ c1 _ _ H1 Hpc Hf H2).
  unfold bind at 1, check at 1, pure at 1.
  rewrite (proj2 (checkResponseCode_2 _) Htc).
  unfold bind at 1, check at 1, pure at 1.
  unfold bind at 1, control_Write.
  rewrite conn_Write_written by (cbn; now rewrite Hw).
  eexists. split; [reflexivity |].
  unfold c1, after_Cmd, on_control, written.
  cbn [conn control outbox inbox hostname world dataConn file].
  split; [now rewrite <- !app_assoc | repeat split].
Qed.

(** ** A write that fails *)


Lemma conn_Read_first n ch c rest :
  inbox ch = Chunk c :: rest -> c <> [] -> (0 < n)%nat ->
  exists data, conn_Read n ch = (data, None, snd (conn_Read n ch)) /\
               (0 <? length data)%nat = true.
Proof.
  intros Hin Hc Hn. unfold conn_Read. rewrite Hin.
  destruct (length c <=? n)%nat.
  - exists c. split; [reflexivity |]. destruct c; [congruence | reflexivity].
  - exists (firstn n c). split; [reflexivity |].
    destruct c; [congruence |]. destruct n; [lia | reflexivity].
Qed.

Lemma conn_Write_fails p f werr faults :
  wfaults f = Some werr :: faults -> conn_Write p f = (Some werr, write_failed f).
Proof. intros H. unfold conn_Write, write_failed. now rewrite H. Qed.

Lemma loop_fuel_S ch : exists n, loop_fuel ch = S n.
Proof.
  destruct ch as [ch |]; cbn [loop_fuel]; [| now exists 0%nat].
  exists (pending (inbox ch) + length (inbox ch))%nat. lia.
Qed.

(** X24. The first write of the copy loop fails: both ends are closed.  The
    error is what [fmt.Errorf] makes of a message that names the file and
    ends with the error of the write; the message is its format, so that its
    text is the message itself when neither the name nor the text of that
    error holds a ['%']. *)
Theorem transfer_write_fails src dest mode timeout e dataPort e1 ch f c rest werr faults :
  net (world e1) (data_address e1 dataPort) = inr ch -> c <> [] ->
  (handshake Some (lit "RETR") src mode e = Some (Next dataPort, e1) ->
   fs (world e1) dest = inr f ->
   inbox ch = Chunk c :: rest -> wfaults f = Some werr :: faults ->
   call (DownloadFile src dest mode timeout) e =
     Some (Returned (Some (Errorf_Sprintf (lit "Coudn't write to file, '" ++ dest ++ lit "'. Error: ")
                             werr [])),
           mkEnv (conn e1)
                 (mkWorld (net (world e1)) (data_address e1 dataPort :: dialed (world e1))
                          (fs (world e1)) (dest :: opened (world e1)))
                 (Some (snd (conn_Close (snd (conn_Read 1024 (with_deadline timeout ch))))))
                 (Some (snd (conn_Close (write_failed f)))))) /\
  (handshake Some (lit "STOR") dest mode e = Some (Next dataPort, e1) ->
   fs (world e1) src = inr f ->
   inbox f = Chunk c :: rest -> wfaults ch = Some werr :: faults ->
   call (UploadFile src dest mode timeout) e =
     Some (Returned (Some (Errorf_Sprintf (lit "Couldn't write file to server, '" ++ src
                                     ++ lit "'. Error: ") werr [])),
           mkEnv (conn e1)
                 (mkWorld (net (world e1)) (data_address e1 dataPort :: dialed (world e1))
                          (fs (world e1)) (src :: opened (world e1)))
                 (Some (snd (conn_Close (write_failed (with_deadline timeout ch)))))
                 (Some (snd (conn_Close (snd (conn_Read 1024 f))))))) /\
  (forall name text,
      Error_text werr = Some text -> plain name = true -> plain text = true ->
      Error_text (Errorf_Sprintf (lit "Coudn't write to file, '" ++ name ++ lit "'. Error: ")
                                 werr [])
        = Some (lit "Coudn't write to file, '" ++ name ++ lit "'. Error: " ++ text) /\
      Error_text (Errorf_Sprintf (lit "Couldn't write file to server, '" ++ name
                                  ++ lit "'. Error: ") werr [])
        = Some (lit "Couldn't write file to server, '" ++ name ++ lit "'. Error: " ++ text)).
Proof.
  intros Hnet Hc. split; [| split]; [intros Hh Hfs Hin Hw | intros Hh Hfs Hin Hw |].
  - unfold DownloadFile. rewrite (call_bind_Next _ _ _ _ _ Hh).
    unfold call. rewrite (connect_ok _ _ _ _ _ Hnet).
    erewrite bind_Next by (apply open_ok; env_simpl; exact Hfs). env_simpl.
    unfold defer_file_Close.
    unfold bind at 1, check at 1, pure at 1.
    erewrite bind_Next by (apply set_deadline_open; reflexivity). env_simpl.
    unfold bind at 1. cbv beta. env_simpl.
    destruct (loop_fuel_S (Some (with_deadline timeout ch))) as [n ->].
    cbn [DownloadFile_loop]. unfold bind at 1, dataConn_Read. env_simpl.
    destruct (conn_Read_first 1024 (with_deadline timeout ch) c rest) as (data & -> & ->);
      [rewrite inbox_with_deadline; exact Hin | exact Hc | lia |].
    unfold bind at 1 2, file_Write. env_simpl.
    rewrite (conn_Write_fails _ _ _ _ Hw). reflexivity.
  - unfold UploadFile. rewrite (call_bind_Next _ _ _ _ _ Hh).
    unfold call. rewrite (connect_ok _ _ _ _ _ Hnet).
    erewrite bind_Next by (apply open_ok; env_simpl; exact Hfs). env_simpl.
    unfold defer_file_Close.
    unfold bind at 1, check at 1, pure at 1.
    erewrite bind_Next by (apply set_deadline_open; reflexivity). env_simpl.
    unfold bind at 1. cbv beta. env_simpl.
    destruct (loop_fuel_S (Some f)) as [n ->].
    cbn [UploadFile_loop]. unfold bind at 1, file_Read. env_simpl.
    destruct (conn_Read_first 1024 f c rest) as (data & -> & ->);
      [exact Hin | exact Hc | lia |].
    unfold bind at 1 2, dataConn_Write. env_simpl.
    rewrite (conn_Write_fails _ (with_deadline timeout ch) werr faults)
      by (rewrite wfaults_with_deadline; exact Hw).
    reflexivity.
  - intros name text Herr Hname Htext.
    split; (erewrite Errorf_Sprintf_text;
            [ rewrite app_nil_r, <- !app_assoc; reflexivity | exact Herr
            | rewrite !plain_app, Hname; reflexivity | exact Htext | reflexivity ]).
Qed.

(** X25. PASV and TYPE have been accepted and the write of the transfer
    command fails: the error of the write is returned as it is, before
    anything is dialled or opened. *)
Theorem transfer_command_write_fails
    src dest mode timeout e code line c1 typeCode typeLine c2 werr faults :
  Cmd (conn e) (lit "PASV") [] = Some ((code, line, None), c1) ->
  code / 100 = 2 -> has_port_form line ->
  Cmd c1 (lit "TYPE") mode = Some ((typeCode, typeLine, None), c2) ->
  typeCode / 100 = 2 ->
  wfaults (control c2) = Some werr :: faults ->
  all_refuse src dest mode timeout e werr
    (on_control e (mkConnection (write_failed (control c2)) (hostname c2))).
Proof.
  intros H Hc Hf H2 Ht Hw. apply all_refuse_intro. intros R fail verb path.
  rewrite (handshake_TYPE fail verb path mode e code line c1 _ c2 H Hc Hf H2).
  unfold bind at 1, check at 1, pure at 1.
  rewrite (proj2 (checkResponseCode_2 _) Ht).
  unfold bind at 1, check at 1, pure at 1.
  unfold bind at 1, control_Write. cbn [on_control conn].
  rewrite (conn_Write_fails _ _ _ _ Hw). reflexivity.
Qed.

(** ** The control connection during a transfer *)


Lemma steady_pure {R A} (a : A) : steady (@pure R A a).
Proof. now intros e s e' [= <- <-]. Qed.

Lemma steady_ret {R A} (r : R) : steady (@ret R A r).
Proof. now intros e s e' [= <- <-]. Qed.

Lemma steady_bind {R A B} (m : M R A) (k : A -> M R B) :
  steady m -> (forall a, steady (k a)) -> steady (bind m k).
Proof.
  intros Hm Hk e s e'. unfold bind.
  destruct (m e) as [[[a | r |] e1] |] eqn:E; [| | | discriminate].
  - intros H. rewrite (Hk _ _ _ _ H). exact (Hm _ _ _ E).
  - intros [= <- <-]. exact (Hm _ _ _ E).
  - intros [= <- <-]. exact (Hm _ _ _ E).
Qed.

Lemma steady_check {R} err (f : error -> R) : steady (check err f).
Proof. destruct err; [apply steady_ret | apply steady_pure]. Qed.

Lemma steady_dial {R} address : steady (@dial R address).
Proof.
  intros e s e'. unfold dial.
  now destruct (net_Dial address (world e)) as [[err | ch] w]; intros [= <- <-].
Qed.

Lemma steady_open {R} name : steady (@open R name).
Proof.
  intros e s e'. unfold open.
  now destruct (os_OpenFile name (world e)) as [[err | f] w]; intros [= <- <-].
Qed.

Lemma steady_set_deadline {R} timeout : steady (@set_deadline R timeout).
Proof.
  intros e s e'. unfold set_deadline.
  destruct (0 <? timeout); [destruct (dataConn e) |]; now intros [= <- <-].
Qed.

Lemma steady_dataConn_Read {R} n : steady (@dataConn_Read R n).
Proof.
  intros e s e'. unfold dataConn_Read.
  destruct (dataConn e) as [ch |]; [| now intros [= <- <-]].
  destruct (conn_Read n ch) as [[data err] ch']. now intros [= <- <-].
Qed.

Lemma steady_dataConn_Write {R} p : steady (@dataConn_Write R p).
Proof.
  intros e s e'. unfold dataConn_Write.
  destruct (dataConn e) as [ch |]; [| now intros [= <- <-]].
  destruct (conn_Write p ch) as [err ch']. now intros [= <- <-].
Qed.

Lemma steady_file_Read {R} n : steady (@file_Read R n).
Proof.
  intros e s e'. unfold file_Read.
  destruct (file e) as [f |]; [| now intros [= <- <-]].
  destruct (conn_Read n f) as [[data err] f']. now intros [= <- <-].
Qed.

Lemma steady_file_Write {R} p : steady (@file_Write R p).
Proof.
  intros e s e'. unfold file_Write.
  destruct (file e) as [f |]; [| now intros [= <- <-]].
  destruct (conn_Write p f) as [err f']. now intros [= <- <-].
Qed.

Lemma steady_defer_file_Close {R A} (rest : M R A) :
  steady rest -> steady (defer_file_Close rest).
Proof.
  intros Hr e s e'. unfold defer_file_Close.
  destruct (rest e) as [[s1 e1] |] eqn:E; [| discriminate].
  intros [= <- <-]. rewrite <- (Hr _ _ _ E). unfold close_file. now destruct (file e1).
Qed.

Lemma steady_defer_dataConn_Close {R A} (rest : M R A) :
  steady rest -> steady (defer_dataConn_Close rest).
Proof.
  intros Hr e s e'. unfold defer_dataConn_Close.
  destruct (dataConn e); [| now intros [= <- <-]].
  destruct (rest e) as [[s1 e1] |] eqn:E; [| discriminate].
  intros [= <- <-]. rewrite <- (Hr _ _ _ E). unfold close_dataConn. now destruct (dataConn e1).
Qed.

Lemma steady_at {R A} (f : Env -> M R A) :
  (forall e0, steady (f e0)) -> steady (fun e => f e e).
Proof. intros H e s e' Hm. exact (H e e s e' Hm). Qed.

Lemma steady_connect {R A} (fail : error -> R) dataPort (rest : M R A) :
  steady rest -> steady (connect fail dataPort rest).
Proof.
  intros Hr. unfold connect.
  apply (steady_at (fun e0 =>
           bind (dial (hostname (conn e0) ++ lit ":" ++ decimal dataPort)) _)).
  intros e0. apply steady_bind; [apply steady_dial |]. intros err.
  apply steady_defer_dataConn_Close, steady_bind; [apply steady_check | intros _; exact Hr].
Qed.

Lemma steady_GetBuffer_loop fuel : forall result, steady (GetBuffer_loop fuel result).
Proof.
  induction fuel as [| fuel IH]; intros result; [intros e s e'; discriminate |].
  cbn [GetBuffer_loop]. apply steady_bind; [apply steady_dataConn_Read |].
  intros [data readErr]. destruct (0 <? length data)%nat; cbn [is_EOF].
  - apply steady_bind; [apply steady_check | intros _; apply IH].
  - destruct (is_EOF readErr); [apply steady_pure |].
    apply steady_bind; [apply steady_check | intros _; apply IH].
Qed.

Lemma steady_DownloadFile_loop fuel dest : steady (DownloadFile_loop fuel dest).
Proof.
  induction fuel as [| fuel IH]; [intros e s e'; discriminate |].
  cbn [DownloadFile_loop]. apply steady_bind; [apply steady_dataConn_Read |].
  intros [data readErr]. apply steady_bind.
  - destruct (0 <? length data)%nat; [| apply steady_pure].
    apply steady_bind; [apply steady_file_Write | intros err; apply steady_check].
  - intros _. destruct (is_EOF readErr); [apply steady_pure |].
    apply steady_bind; [apply steady_check | intros _; exact IH].
Qed.

Lemma steady_UploadFile_loop fuel src : steady (UploadFile_loop fuel src).
Proof.
  induction fuel as [| fuel IH]; [intros e s e'; discriminate |].
  cbn [UploadFile_loop]. apply steady_bind; [apply steady_file_Read |].
  intros [data readErr]. apply steady_bind.
  - destruct (0 <? length data)%nat; [| apply steady_pure].
    apply steady_bind; [apply steady_dataConn_Write | intros err; apply steady_check].
  - intros _. destruct (is_EOF readErr); [apply steady_pure |].
    apply steady_bind; [apply steady_check | intros _; exact IH].
Qed.

Lemma call_steady {R} (m : M R Empty_set) e o e' :
  steady m -> call m e = Some (o, e') -> conn e' = conn e.
Proof.
  intros Hm. unfold call. destruct (m e) as [[[[] | r |] e1] |] eqn:E; [| | discriminate];
    intros [= <- <-]; exact (Hm _ _ _ E).
Qed.

(** X26. Once the transfer command has been written, the control connection is
    left alone: whatever the server answers to RETR or STOR, before or after
    the transfer, is still there to be read when the function returns. *)
Theorem transfer_leaves_replies_unread src dest mode timeout e dataPort e1 :
  (forall o e',
      handshake (fun err => ([] : str, Some err)) (lit "RETR") src mode e = Some (Next dataPort, e1) ->
      call (GetBuffer src mode timeout) e = Some (o, e') -> conn e' = conn e1) /\
  (forall o e',
      handshake Some (lit "RETR") src mode e = Some (Next dataPort, e1) ->
      call (DownloadFile src dest mode timeout) e = Some (o, e') -> conn e' = conn e1) /\
  (forall o e',
      handshake Some (lit "STOR") dest mode e = Some (Next dataPort, e1) ->
      call (UploadFile src dest mode timeout) e = Some (o, e') -> conn e' = conn e1).
Proof.
  split; [| split]; intros o e' Hh;
    [unfold GetBuffer | unfold DownloadFile | unfold UploadFile];
    rewrite (call_bind_Next _ _ _ _ _ Hh); apply call_steady, steady_connect.
  - apply steady_bind; [apply steady_set_deadline |]. intros _.
    apply steady_bind; [| intros result; apply steady_ret].
    apply (steady_at (fun e0 => GetBuffer_loop (loop_fuel (dataConn e0)) [])).
    intros e0. apply steady_GetBuffer_loop.
  - apply steady_bind; [apply steady_open |]. intros err. apply steady_defer_file_Close.
    apply steady_bind; [apply steady_check |]. intros _.
    apply steady_bind; [apply steady_set_deadline |]. intros _.
    apply steady_bind; [| intros _; apply steady_ret].
    apply (steady_at (fun e0 => DownloadFile_loop (loop_fuel (dataConn e0)) dest)).
    intros e0. apply steady_DownloadFile_loop.
  - apply steady_bind; [apply steady_open |]. intros err. apply steady_defer_file_Close.
    apply steady_bind; [apply steady_check |]. intros _.
    apply steady_bind; [apply steady_set_deadline |]. intros _.
    apply steady_bind; [| intros _; apply steady_ret].
    apply (steady_at (fun e0 => UploadFile_loop (loop_fuel (file e0)) src)).
    intros e0. apply steady_UploadFile_loop.
Qed.

Local Close Scope go_scope.

(** ** Closed instances of the further properties *)

Lemma Dial_welcome_witness :
  Dial (lit "ftp.example.org:21") (greeting [Chunk (lit "220 Service ready" ++ CRLF)]) =
    (inr (session []),
     dialled (lit "ftp.example.org:21") (greeting [Chunk (lit "220 Service ready" ++ CRLF)])) /\
  exists e,
    Dial (lit "ftp.example.org:21") (greeting [Chunk (lit "421 Busy" ++ CRLF)]) =
      (inl e, dialled (lit "ftp.example.org:21") (greeting [Chunk (lit "421 Busy" ++ CRLF)])).
Proof.
  split.
  - apply (Dial_welcome (lit "ftp.example.org:21")
             (greeting [Chunk (lit "220 Service ready" ++ CRLF)])
             (fresh_channel [Chunk (lit "220 Service ready" ++ CRLF)])
             (lit "220 Service ready" ++ CRLF) []); [discriminate | reflexivity ..].
  - eexists.
    apply (Dial_welcome (lit "ftp.example.org:21")
             (greeting [Chunk (lit "421 Busy" ++ CRLF)])
             (fresh_channel [Chunk (lit "421 Busy" ++ CRLF)])
             (lit "421 Busy" ++ CRLF) []); [discriminate | reflexivity ..].
Defined.

Lemma Dial_connection_errors_witness :
  Dial (lit "ftp.example.org:21") refusing =
    (inl (SysError (lit "connection refused")), dialled (lit "ftp.example.org:21") refusing) /\
  Dial (lit "ftp.example.org:21") (greeting []) =
    (inl (Errorf_v
            (lit "Couldn't read the server's initital connection information. Error: ")
            EOF []),
     dialled (lit "ftp.example.org:21") (greeting [])).
Proof.
  split.
  - apply (Dial_connection_errors (lit "ftp.example.org:21") refusing);
      [discriminate | reflexivity ..].
  - apply (proj2 (Dial_connection_errors (lit "ftp.example.org:21") (greeting [])
                    ltac:(discriminate) eq_refl) (fresh_channel []));
      [reflexivity | exact I].
Defined.

Lemma extractDataPort_octets_witness :
  extractDataPort (lit "127,0,0,1,205,238).") = (52718, None) /\ 0 <= 52718 <= 65535.
Proof.
  apply (extractDataPort_octets (lit "127,0,0,1,205,238).") []
           (lit "127") (lit "0") (lit "0") (lit "1") (lit "205") (lit "238") (lit ").")).
  - apply (port_match_at_start (lit "127") (lit "0") (lit "0") (lit "1") (lit "205") (lit "238")
             (lit ").")); try (apply digits_lit_intro; [discriminate | reflexivity]).
    reflexivity.
  - vm_compute. discriminate.
  - vm_compute. discriminate.
Defined.

Lemma extractDataPort_ignores_address_witness :
  extractDataPort (lit "127,0,0,1,205,238).") = extractDataPort (lit "10,20,30,40,205,238").
Proof.
  apply (extractDataPort_ignores_address
           (lit "127,0,0,1,205,238).") []
           (lit "127") (lit "0") (lit "0") (lit "1") (lit ").")
           (lit "10,20,30,40,205,238") []
           (lit "10") (lit "20") (lit "30") (lit "40") []
           (lit "205") (lit "238")).
  - apply (port_match_at_start (lit "127") (lit "0") (lit "0") (lit "1") (lit "205") (lit "238")
             (lit ").")); try (apply digits_lit_intro; [discriminate | reflexivity]).
    reflexivity.
  - apply (port_match_at_start (lit "10") (lit "20") (lit "30") (lit "40") (lit "205")
             (lit "238") []); try (apply digits_lit_intro; [discriminate | reflexivity]).
    exact I.
Defined.

Lemma Login_sends_both_witness :
  exists err c',
    Login (session [RdErr (SysError (lit "i/o timeout"))]) (lit "anonymous") (lit "guest")
      = Some (err, c') /\
    outbox (control c') =
      [] ++ (lit "USER" ++ lit " " ++ lit "anonymous" ++ CRLF)
         ++ (lit "PASS" ++ lit " " ++ lit "guest" ++ CRLF) /\
    hostname c' = lit "ftp.example.org" /\ closed (control c') = false.
Proof.
  apply (Login_sends_both (session [RdErr (SysError (lit "i/o timeout"))])
           (lit "anonymous") (lit "guest")); [discriminate | discriminate | reflexivity].
Defined.

Lemma Login_ignores_codes_witness :
  exists c',
    Login (session [Chunk (lit "530 Not logged in." ++ CRLF);
                    Chunk (lit "530 Login incorrect." ++ CRLF)])
          (lit "anonymous") (lit "guest") = Some (None, c').
Proof.
  eexists.
  apply (Login_ignores_codes
           (session [Chunk (lit "530 Not logged in." ++ CRLF);
                     Chunk (lit "530 Login incorrect." ++ CRLF)])
           (lit "anonymous") (lit "guest")
           [] (lit "530 Not logged in." ++ [CR] ++ [LF])
           [lit "530 Not logged in." ++ CRLF]
           (lit "530 Login incorrect." ++ [CR] ++ [LF])
           [lit "530 Login incorrect." ++ CRLF] []).
  - discriminate.
  - discriminate.
  - reflexivity.
  - reflexivity.
  - repeat constructor. discriminate.
  - repeat constructor. discriminate.
  - reflexivity.
  - constructor.
  - apply (is_line_intro (lit "530 Not logged in." ++ [CR])). reflexivity.
  - reflexivity.
  - reflexivity.
  - apply (terminal_intro (lit "530 Login incorrect." ++ [CR])); reflexivity.
Defined.

Lemma DownloadFile_copies_witness :
  exists e',
    call (DownloadFile (lit "/pub/f") (lit "f") BINARY 5)
         (transfer_in (offering (fresh_channel [Chunk (lit "hello, "); Chunk (lit "world")])
                                (fresh_channel [])))
      = Some (Returned None, e') /\
    option_map outbox (file e') = Some (lit "hello, world") /\
    option_map deadline (dataConn e') = Some (Some 5).
Proof.
  eexists. split.
  - eapply (DownloadFile_copies (lit "/pub/f") (lit "f") BINARY 5 _ 52718 _ _ _
              [lit "hello, "; lit "world"] []).
    + vm_compute. reflexivity.
    + vm_compute. reflexivity.
    + vm_compute. reflexivity.
    + reflexivity.
    + reflexivity.
    + exact I.
  - split; reflexivity.
Defined.

Lemma GetBuffer_collects_witness :
  exists e',
    call (GetBuffer (lit "/pub/f") BINARY 0)
         (transfer_in (offering (fresh_channel [Chunk (lit "hello, "); Chunk (lit "world");
                                                RdErr (SysError (lit "connection reset"))])
                                (fresh_channel [])))
      = Some (Returned ([], Some (SysError (lit "connection reset"))), e') /\
    option_map deadline (dataConn e') = Some None.
Proof.
  eexists. split.
  - eapply (GetBuffer_collects (lit "/pub/f") BINARY 0 _ 52718 _ _
              [lit "hello, "; lit "world"] [RdErr (SysError (lit "connection reset"))]).
    + vm_compute. reflexivity.
    + vm_compute. reflexivity.
    + reflexivity.
    + exact I.
  - reflexivity.
Defined.

Lemma UploadFile_copies_witness :
  exists e',
    call (UploadFile (lit "f") (lit "/pub/f") BINARY 0)
         (transfer_in (offering (fresh_channel [])
                                (fresh_channel [Chunk (lit "hello, "); Chunk (lit "world")])))
      = Some (Returned None, e') /\
    option_map outbox (dataConn e') = Some (lit "hello, world") /\
    outbox (control (conn e')) =
      lit "PASV " ++ CRLF ++ lit "TYPE I" ++ CRLF ++ lit "STOR /pub/f" ++ CRLF.
Proof.
  eexists. split.
  - eapply (UploadFile_copies (lit "f") (lit "/pub/f") BINARY 0 _ 52718 _ _ _
              [lit "hello, "; lit "world"] []).
    + vm_compute. reflexivity.
    + vm_compute. reflexivity.
    + vm_compute. reflexivity.
    + reflexivity.
    + reflexivity.
    + exact I.
  - split; reflexivity.
Defined.

Lemma transfer_open_fails_witness :
  exists e',
    call (DownloadFile (lit "/pub/f") (lit "g") BINARY 5)
         (transfer_in (offering (fresh_channel [Chunk (lit "hello")]) (fresh_channel [])))
      = Some (Returned (Some (Errorf_Sprintf (lit "Cannot open destination file, 'g'. ")
                                (SysError (lit "no such file or directory")) [])), e') /\
    option_map inbox (dataConn e') = Some [Chunk (lit "hello")] /\
    option_map closed (dataConn e') = Some true /\ file e' = None.
Proof.
  eexists. split.
  - refine (proj1 (transfer_open_fails (lit "/pub/f") (lit "g") BINARY 5 _ 52718 _ _ _ _) _ _).
    2: (vm_compute; reflexivity).
    + vm_compute. reflexivity.
    + vm_compute. reflexivity.
  - repeat split.
Defined.

Lemma pasv_reply_form : has_port_form pasv_reply.
Proof.
  exists (lit "227 Entering Passive Mode ("), (lit "127,0,0,1,205,238)." ++ CRLF).
  split; [reflexivity |].
  exists (lit "127"), (lit "0"), (lit "0"), (lit "1"), (lit "205"), (lit "238"),
         (lit ")." ++ CRLF).
  repeat (split; [apply digits_lit_intro; [discriminate | reflexivity] |]).
  reflexivity.
Qed.

Lemma pasv_reply_terminal : terminal pasv_reply.
Proof.
  apply (terminal_intro (lit "227 Entering Passive Mode (127,0,0,1,205,238)." ++ [CR]));
    reflexivity.
Qed.

Lemma type_reply_terminal : terminal type_reply.
Proof. apply (terminal_intro (lit "200 Type set to I" ++ [CR])); reflexivity. Qed.

Lemma transfer_returns_after_dial_witness :
  exists r e',
    call (DownloadFile (lit "/pub/f") (lit "g") BINARY 5)
         (transfer_in (offering (fresh_channel [Chunk (lit "hello")]) (fresh_channel [])))
      = Some (Returned r, e') /\
    data_closed e' /\ file_closed e'.
Proof.
  refine (proj1 (proj2 (transfer_returns_after_dial (lit "/pub/f") (lit "g") BINARY 5
                          _ 52718 _ _ _)) _).
  2: (vm_compute; reflexivity).
  vm_compute. reflexivity.
Defined.

Lemma transfer_PASV_refused_witness :
  exists e',
    all_refuse (lit "/pub/f") (lit "f") BINARY 5
      (mkEnv (session [Chunk (lit "530 Please login with USER and PASS." ++ CRLF)])
             refusing None None)
      (Errorf_Sprintf (lit "Cannot set PASV. Error: ") (bad_response 2 530) []) e' /\
    outbox (control (conn e')) = lit "PASV " ++ CRLF /\ dialed (world e') = [].
Proof.
  eexists. split.
  - eapply (transfer_PASV_refused (lit "/pub/f") (lit "f") BINARY 5
              (mkEnv (session [Chunk (lit "530 Please login with USER and PASS." ++ CRLF)])
                     refusing None None) 530).
    + vm_compute. reflexivity.
    + vm_compute. discriminate.
  - split; reflexivity.
Defined.

Lemma transfer_no_data_port_witness :
  exists e',
    all_refuse (lit "/pub/f") (lit "f") BINARY 5
      (mkEnv (session [Chunk (lit "227 Entering Passive Mode" ++ CRLF)]) refusing None None)
      (Errorf (lit "Cannot find data port in server output: "
               ++ lit "227 Entering Passive Mode" ++ CRLF)) e'.
Proof.
  eexists.
  eapply (transfer_no_data_port (lit "/pub/f") (lit "f") BINARY 5
            (mkEnv (session [Chunk (lit "227 Entering Passive Mode" ++ CRLF)])
                   refusing None None) 227).
  - vm_compute. reflexivity.
  - reflexivity.
  - apply no_match_no_form. reflexivity.
Defined.

Lemma transfer_TYPE_refused_witness :
  exists e',
    all_refuse (lit "/pub/f") (lit "f") (lit "E") 5
      (mkEnv (session [Chunk pasv_reply; Chunk (lit "504 Not implemented." ++ CRLF)])
             refusing None None)
      (Errorf_Sprintf (lit "Cannot set TYPE. Error: '") (bad_response 2 504)
                (lit "'. Line: '" ++ (lit "504 Not implemented." ++ CRLF) ++ lit "'")) e' /\
    outbox (control (conn e')) = lit "PASV " ++ CRLF ++ lit "TYPE E" ++ CRLF.
Proof.
  eexists. split.
  - eapply (transfer_TYPE_refused (lit "/pub/f") (lit "f") (lit "E") 5
              (mkEnv (session [Chunk pasv_reply; Chunk (lit "504 Not implemented." ++ CRLF)])
                     refusing None None) 227 pasv_reply _ 504).
    + vm_compute. reflexivity.
    + reflexivity.
    + exact pasv_reply_form.
    + vm_compute. reflexivity.
    + vm_compute. discriminate.
  - reflexivity.
Defined.

Lemma handshake_succeeds_witness :
  exists e',
    handshake Some (lit "RETR") (lit "/pub/f") BINARY refused_transfer = Some (Next 52718, e') /\
    outbox (control (conn e')) =
      [] ++ (lit "PASV" ++ lit " " ++ [] ++ CRLF)
         ++ (lit "TYPE" ++ lit " " ++ BINARY ++ CRLF)
         ++ (lit "RETR" ++ lit " " ++ lit "/pub/f" ++ CRLF) /\
    inbox (control (conn e')) = [] /\
    hostname (conn e') = lit "ftp.example.org" /\
    world e' = refusing /\ dataConn e' = None /\ file e' = None.
Proof.
  apply (handshake_succeeds Some (lit "RETR") (lit "/pub/f") BINARY refused_transfer
           pasv_reply type_reply [pasv_reply] [type_reply] []).
  - reflexivity.
  - reflexivity.
  - repeat constructor. discriminate.
  - repeat constructor. discriminate.
  - reflexivity.
  - reflexivity.
  - exact pasv_reply_terminal.
  - exact type_reply_terminal.
  - reflexivity.
  - reflexivity.
  - exact pasv_reply_form.
Defined.

Lemma transfer_write_fails_witness :
  exists e',
    call (DownloadFile (lit "/pub/f") (lit "f") BINARY 0)
         (transfer_in (offering (fresh_channel [Chunk (lit "hello")])
                                (mkChannel [] [Some (SysError (lit "no space left on device"))]
                                           [] false None None)))
      = Some (Returned (Some (Errorf_Sprintf (lit "Coudn't write to file, 'f'. Error: ")
                                (SysError (lit "no space left on device")) [])), e') /\
    option_map closed (dataConn e') = Some true /\ option_map closed (file e') = Some true.
Proof.
  eexists. split.
  - refine (proj1 (transfer_write_fails (lit "/pub/f") (lit "f") BINARY 0 _ 52718 _ _ _
                     (lit "hello") [] _ [] _ _) _ _ _ _).
    3: (vm_compute; reflexivity).
    + vm_compute. reflexivity.
    + discriminate.
    + vm_compute. reflexivity.
    + reflexivity.
    + reflexivity.
  - split; reflexivity.
Defined.

Lemma transfer_command_write_fails_witness :
  exists e',
    all_refuse (lit "/pub/f") (lit "f") BINARY 5
      (mkEnv (mkConnection
                (mkChannel [Chunk pasv_reply; Chunk type_reply]
                           [None; None; Some (SysError (lit "broken pipe"))] [] false None None)
                (lit "ftp.example.org"))
             refusing None None)
      (SysError (lit "broken pipe")) e' /\
    outbox (control (conn e')) = lit "PASV " ++ CRLF ++ lit "TYPE I" ++ CRLF /\
    dialed (world e') = [].
Proof.
  eexists. split.
  - eapply (transfer_command_write_fails (lit "/pub/f") (lit "f") BINARY 5
              (mkEnv (mkConnection
                        (mkChannel [Chunk pasv_reply; Chunk type_reply]
                                   [None; None; Some (SysError (lit "broken pipe"))]
                                   [] false None None)
                        (lit "ftp.example.org"))
                     refusing None None)
              227 pasv_reply _ 200 type_reply _ (SysError (lit "broken pipe")) []).
    + vm_compute. reflexivity.
    + reflexivity.
    + exact pasv_reply_form.
    + vm_compute. reflexivity.
    + reflexivity.
    + reflexivity.
  - split; reflexivity.
Defined.

Lemma transfer_control_failure_witness :
  exists e',
    all_refuse (lit "/pub/f") (lit "f") BINARY 5 (mkEnv (session []) refusing None None) EOF e' /\
    dialed (world e') = [] /\ opened (world e') = [].
Proof.
  eexists. split.
  - eapply (proj1 (transfer_control_failure (lit "/pub/f") (lit "f") BINARY 5
                     (mkEnv (session []) refusing None None)) 0 []).
    vm_compute. reflexivity.
  - split; reflexivity.
Defined.

Lemma transfer_leaves_replies_unread_witness :
  exists e',
    call (DownloadFile (lit "/pub/f") (lit "f") BINARY 0)
         (mkEnv (session [Chunk pasv_reply; Chunk type_reply;
                          Chunk (lit "150 Opening BINARY mode data connection." ++ CRLF);
                          Chunk line_226])
                (offering (fresh_channel [Chunk (lit "hello")]) (fresh_channel []))
                None None)
      = Some (Returned None, e') /\
    inbox (control (conn e')) =
      [Chunk (lit "150 Opening BINARY mode data connection." ++ CRLF); Chunk line_226].
Proof.
  set (e := mkEnv _ _ None None).
  eassert (Hh : handshake Some (lit "RETR") (lit "/pub/f") BINARY e = Some (Next 52718, _))
    by (vm_compute; reflexivity).
  eassert (Hc : call (DownloadFile (lit "/pub/f") (lit "f") BINARY 0) e = Some (Returned None, _))
    by (vm_compute; reflexivity).
  eexists. split; [exact Hc |].
  rewrite (proj1 (proj2 (transfer_leaves_replies_unread _ _ _ _ _ _ _)) _ _ Hh Hc).
  reflexivity.
Defined.

Lemma Login_replies_in_one_chunk_witness :
  exists c',
    Login (session [Chunk ((lit "331 Please specify the password." ++ [CR] ++ [LF])
                           ++ lit "230 Login successful." ++ CRLF)])
          (lit "anonymous") (lit "guest") = Some (Some EOF, c').
Proof.
  eexists.
  apply (Login_replies_in_one_chunk
           (session [Chunk ((lit "331 Please specify the password." ++ [CR] ++ [LF])
                            ++ lit "230 Login successful." ++ CRLF)])
           (lit "anonymous") (lit "guest")
           (lit "331 Please specify the password." ++ [CR] ++ [LF])
           (lit "230 Login successful." ++ CRLF) []).
  - discriminate.
  - discriminate.
  - reflexivity.
  - reflexivity.
  - exact I.
  - apply (is_line_intro (lit "331 Please specify the password." ++ [CR])). reflexivity.
  - reflexivity.
  - apply Nat.leb_le. vm_compute. reflexivity.
Defined.
